(** * Device digit map generation (res/res_digitmap.c)

    A shallow embedding of [generate_digit_map] and [generate_digit_map_all]
    and the properties of the dialplan-to-digit-map translation.

    The dialplan store of the PBX core (context lookup, the per-context
    ignore patterns, the maximum include depth) and the allocator behind
    [ast_strdup] are outside this module; they enter the development as the
    variables of a section. *)

From Stdlib Require Import ZArith Lia Bool Ascii.
From stdpp Require Import base list strings.

Local Open Scope Z_scope.

(** ** C strings *)

Module Str.

Fixpoint take (n : nat) (s : string) : string :=
  match n, s with
  | S n', String c s' => String c (take n' s')
  | _, _ => EmptyString
  end.

Fixpoint drop (n : nat) (s : string) : string :=
  match n, s with
  | S n', String _ s' => drop n' s'
  | _, _ => s
  end.

(** [*s] read as a string: the first character, or nothing at the
    terminating NUL. *)
Definition first (s : string) : string :=
  match s with
  | String c _ => String c EmptyString
  | EmptyString => EmptyString
  end.

Definition is_empty (s : string) : bool :=
  match s with
  | EmptyString => true
  | String _ _ => false
  end.

(** [strchr(s, c)] followed by a cut at the match: the text before the first
    [c] and the text after it, or [None] when [c] does not occur. *)
Fixpoint split_at (c : ascii) (s : string) : option (string * string) :=
  match s with
  | EmptyString => None
  | String a s' =>
      if Ascii.eqb a c then Some (EmptyString, s')
      else match split_at c s' with
           | Some (l, r) => Some (String a l, r)
           | None => None
           end
  end.

Definition tolower (c : ascii) : ascii :=
  let n := nat_of_ascii c in
  if (65 <=? n)%nat && (n <=? 90)%nat then ascii_of_nat (n + 32) else c.

Fixpoint lower (s : string) : string :=
  match s with
  | EmptyString => EmptyString
  | String c s' => String (tolower c) (lower s')
  end.

(** [!strcasecmp(a, b)] in the C locale. *)
Definition caseeq (a b : string) : bool := String.eqb (lower a) (lower b).

Fixpoint mem_char (c : ascii) (s : string) : bool :=
  match s with
  | EmptyString => false
  | String a s' => Ascii.eqb a c || mem_char c s'
  end.

Fixpoint concat (l : list string) : string :=
  match l with
  | [] => EmptyString
  | s :: l' => s +:+ concat l'
  end.

End Str.

Definition strlen (s : string) : Z := Z.of_nat (String.length s).

(** The [\n] of the format strings. *)
Definition newline : string := String "010" EmptyString.

(** ** The bounded output buffer *)

Definition BUF_SIZE : Z := 2048.

(** The caller's array and the two by-value parameters that walk it:
    [mem] is the array read as a C string from its first byte, [buf] the
    offset of the write cursor from the first byte, [len] the room that is
    left at the cursor. *)
Record outbuf : Type := Outbuf { mem : string; buf : Z; len : Z }.

(** [snprintf(buf, len, fmt, ...)] where the formatted text is [s]: stores
    at most [len - 1] bytes of [s] and a NUL at the cursor, and returns the
    length of [s]. *)
Definition snprintf (b : outbuf) (s : string) : string * Z :=
  (if 0 <? len b
   then Str.take (Z.to_nat (buf b)) (mem b) +:+ Str.take (Z.to_nat (len b - 1)) s
   else mem b,
   strlen s).

(** The [buf_append] macro. [Exhausted] is its [res = -1; break;] arm. *)
Inductive appended : Type :=
| Appended (b : outbuf)
| Exhausted (b : outbuf).

Definition buf_append (b : outbuf) (s : string) : appended :=
  let '(m, bytes) := snprintf b s in
  if bytes >=? len b
  then Exhausted (Outbuf m (buf b) (len b))
  else Appended (Outbuf m (buf b + bytes) (len b - bytes)).

(** The committed part of the array: what lies before the cursor. *)
Definition committed (b : outbuf) : string := Str.take (Z.to_nat (buf b)) (mem b).

(** ** Diagnostics: the [ast_log] warnings of the module *)

Inductive diag : Type :=
| NoSuchContext (context : string)
| DialplanInvalid (exten : string)
| CannotTranslate (exten : string)
| PeriodInBrackets (exten : string)
| NoSpaceLeft
| MaxDepthExceeded
| EmptyInclude
| CircularInclude (include context : string)
| StrdupFailed.

(** ** The dialplan as the generator reads it *)

Record ast_exten : Type := Exten { exten_name : string; exten_priority : Z }.

Record ast_context : Type :=
  Context { context_extensions : list ast_exten; context_includes : list string }.

(** ** Translating one extension name *)

(** The bracket bookkeeping among the per-extension locals of the extension
    loop; [ignorepat] is carried next to it. *)
Record bracket_vars : Type :=
  BracketVars { in_pattern : Z; current_pattern_items : Z; contains_range : Z }.

Inductive flow : Type :=
| Next (ignorepat : bool) (v : bracket_vars) (b : outbuf) (log : list diag)
| Stop (b : outbuf) (log : list diag).

Definition then_append (b : outbuf) (s : string) (log : list diag)
    (k : outbuf -> flow) : flow :=
  match buf_append b s with
  | Appended b' => k b'
  | Exhausted b' => Stop b' log
  end.

(** The bookkeeping of the literal branch for one character. *)
Definition track_brackets (ename : string) (c : ascii) (v : bracket_vars)
    : bracket_vars * list diag :=
  if Ascii.eqb c "[" then
    let n := in_pattern v + 1 in
    if 1 <? n
    then (BracketVars 1 0 0, [DialplanInvalid ename])
    else (BracketVars n 0 0, [])
  else if Ascii.eqb c "]" then
    let n := in_pattern v - 1 in
    let '(n', d1) := if n <? 0 then (0, [DialplanInvalid ename]) else (n, []) in
    let d2 := if negb (contains_range v =? 0) && (1 <? current_pattern_items v)
              then [CannotTranslate ename] else [] in
    (BracketVars n' 0 0, d1 ++ d2)
  else if negb (in_pattern v =? 0) then
    if Ascii.eqb c "." then (v, [PeriodInBrackets ename])
    else if Ascii.eqb c "-" then
      (BracketVars (in_pattern v) (current_pattern_items v - 1) (contains_range v + 1), [])
    else
      (BracketVars (in_pattern v) (current_pattern_items v + 1) (contains_range v), [])
  else (v, []).

(** One pass through the body of [while ( *name )] with [*name = c]. *)
Definition name_step (ename prefix : string) (c : ascii)
    (ignorepat : bool) (v : bracket_vars) (b : outbuf) (log : list diag) : flow :=
  let before k :=
    if negb (Str.is_empty prefix) && ignorepat
    then then_append b "," log (fun b' => k false b')
    else k ignorepat b in
  let after ignorepat v b log :=
    if Str.is_empty prefix && ignorepat
    then then_append b "," log (fun b' => Next false v b' log)
    else Next ignorepat v b log in
  before (fun ignorepat b =>
    if Ascii.eqb c "N" then then_append b "[2-9]" log (fun b' => after ignorepat v b' log)
    else if Ascii.eqb c "Z" then then_append b "[1-9]" log (fun b' => after ignorepat v b' log)
    else if Ascii.eqb c "X" then then_append b "x" log (fun b' => after ignorepat v b' log)
    else if Ascii.eqb c "!" then then_append b "S0" log (fun b' => after ignorepat v b' log)
    else
      let '(v', d) := track_brackets ename c v in
      let log' := log ++ d in
      then_append b (String c EmptyString) log' (fun b' => after ignorepat v' b' log')).

(** [while ( *name ) { ... name++; }]: the result is the buffer, whether the
    loop was left through a failed append ([res = -1]), and the log. *)
Fixpoint name_loop (ename prefix name : string)
    (ignorepat : bool) (v : bracket_vars) (b : outbuf) (log : list diag)
    : outbuf * bool * list diag :=
  match name with
  | EmptyString => (b, false, log)
  | String c name' =>
      match name_step ename prefix c ignorepat v b log with
      | Next ig' v' b' log' => name_loop ename prefix name' ig' v' b' log'
      | Stop b' log' => (b', true, log')
      end
  end.

(** ** Results of a run

    [BadAccess]: a write to [includes[]] outside the array, or a read of an
    entry that holds no name. [OutOfFuel]: the recursion budget of the model
    was used up. Neither is a result of the C function; the theorems below
    show that [generate_digit_map_all] produces neither. *)
Inductive exec (A : Type) : Type :=
| Done (a : A)
| BadAccess
| OutOfFuel.
Arguments Done {A} a.
Arguments BadAccess {A}.
Arguments OutOfFuel {A}.

#[global] Instance exec_bind : MBind exec := fun A B k m =>
  match m with
  | Done a => k a
  | BadAccess => BadAccess
  | OutOfFuel => OutOfFuel
  end.

(** ** Include entries *)

(** The include name as [ast_get_include_name] gives it is cut at the first
    ['|'] (the context name ends there), the rest is cut at its next ['|'],
    and what follows that one is the dial prefix of the include ([tmp2]).
    [tmp2] starts as [""] and is NULL ([None]) when the name has one ['|']
    only. The context name is finally cut at its first [','] . *)
Definition parse_include (raw : string) : string * option string :=
  let '(includename, tmp2) :=
    match Str.split_at "|" raw with
    | Some (name, tmp) =>
        (name, match Str.split_at "|" tmp with
               | Some (_, t2) => Some t2
               | None => None
               end)
    | None => (raw, Some EmptyString)
    end in
  (match Str.split_at "," includename with
   | Some (name, _) => name
   | None => includename
   end, tmp2).

(** What [%s] prints for its argument; glibc prints a NULL pointer as
    [(null)]. *)
Definition printf_s (s : option string) : string :=
  match s with
  | Some s => s
  | None => "(null)"
  end.

(** [char newprefix[32]; snprintf(newprefix, sizeof(newprefix), "%s%s", prefix, tmp2)] *)
Definition newprefix (prefix : string) (tmp2 : option string) : string :=
  Str.take 31 (prefix +:+ printf_s tmp2).

(** The state a call shares with its caller through pointers: the counter of
    [struct map_geninfo], the [includes[]] array, the output array and the
    log. *)
Record shared : Type :=
  Shared { includecount : nat; includes : list (option string); out : string; warnings : list diag }.

Section Generator.

(** The maximum include depth of the PBX core ([asterisk/pbx.h], where it
    is 128), which is also the size of the [includes[]] array. *)
Variable AST_PBX_MAX_STACK : nat.
(** Context lookup by name. *)
Variable ast_context_find : string -> option ast_context.
(** [ast_ignore_pattern context pattern]: does an ignore pattern of
    [context] match [pattern]. *)
Variable ast_ignore_pattern : string -> string -> bool.
(** Whether [ast_strdup] gives memory for the copy of an include name. The
    copy is made for one include entry at a time, and a traversal comes to
    an entry along one way only: [position] lists the indices of the include
    entries followed from the root context down, the entry's own index
    last. *)
Variable ast_strdup : list nat -> bool.

(** [includes[i]], which has to hold a name. *)
Definition include_at (incs : list (option string)) (i : nat) : exec string :=
  match incs !! i with
  | Some (Some name) => Done name
  | _ => BadAccess
  end.

(** [includes[i] = v], inside the array. *)
Definition include_set (incs : list (option string)) (i : nat) (v : option string)
    : exec (list (option string)) :=
  if (i <? length incs)%nat then Done (<[i := v]> incs) else BadAccess.

(** [for (i = 0; !ignorepat && i < geninfo->includecount; i++)
       ignorepat = ast_ignore_pattern(includes[i], firstchar);]
    with [n] iterations left. *)
Fixpoint ignorepat_scan (incs : list (option string)) (firstchar : string)
    (i n : nat) : exec bool :=
  match n with
  | O => Done false
  | S n' =>
      name ← include_at incs i;
      if ast_ignore_pattern name firstchar then Done true
      else ignorepat_scan incs firstchar (S i) n'
  end.

Definition is_special (name : string) : bool :=
  String.eqb name "a" || String.eqb name "i" || String.eqb name "s" || String.eqb name "t".

Definition strip_sentinel (name : string) : string :=
  match name with
  | String c name' => if Ascii.eqb c "_" then name' else name
  | EmptyString => name
  end.

(** How an iteration of the extension loop ends: at its closing brace or a
    [continue] ([false]), or through the [break] of an append that is not
    inside the character loop ([true]). The buffer, [res] and the log go on. *)
Definition exten_body (prefix : string) (count : nat) (incs : list (option string))
    (e : ast_exten) (b : outbuf) (res : Z) (log : list diag)
    : exec (bool * outbuf * Z * list diag) :=
  let name := exten_name e in
  if is_special name then Done (false, b, res, log)
  else if negb (exten_priority e =? 1) then Done (false, b, res, log)
  else
    let name' := strip_sentinel name in
    let firstchar := if negb (Str.is_empty prefix) then Str.first prefix else Str.first name' in
    ig ← ignorepat_scan incs firstchar 0 count;
    match buf_append b "|" with
    | Exhausted b1 => Done (true, b1, -1, log)
    | Appended b1 =>
        match buf_append b1 prefix with
        | Exhausted b2 => Done (true, b2, -1, log)
        | Appended b2 =>
            let '(b3, broke, log') :=
              name_loop name prefix name' ig (BracketVars 0 0 0) b2 log in
            Done (false, b3, if broke then -1 else res, log')
        end
    end.

(** [while ((e = ast_walk_context_extensions(c, e))) { ... }] *)
Fixpoint exten_loop (prefix : string) (count : nat) (incs : list (option string))
    (es : list ast_exten) (b : outbuf) (res : Z) (log : list diag)
    : exec (outbuf * Z * list diag) :=
  match es with
  | [] => Done (b, res, log)
  | e :: es' =>
      '(broke, b', res', log') ← exten_body prefix count incs e b res log;
      if broke : bool then Done (b', res', log')
      else exten_loop prefix count incs es' b' res' log'
  end.

(** [for (x = 0; x < geninfo->includecount; x++)
       if (!strcasecmp(includes[x], includename)) { dupe++; break; }] *)
Fixpoint dupe_scan (incs : list (option string)) (includename : string)
    (x n : nat) : exec bool :=
  match n with
  | O => Done false
  | S n' =>
      name ← include_at incs x;
      if Str.caseeq name includename then Done true
      else dupe_scan incs includename (S x) n'
  end.

(** The type of [generate_digit_map] once [buf] and [len] are packed with the
    array they point into: prefix, context, the shared state, the cursor and
    the room left; the result is the return value and the shared state.
    The first argument is not one of the C function: it is the way by which
    the call was reached, the indices of the include entries followed from
    the root. *)
Definition generator : Type :=
  list nat -> option string -> string -> nat -> list (option string) -> outbuf
  -> list diag -> exec (Z * shared).

(** The body of the include loop for the include number [idx], named [raw];
    [true] in the result is the [break] after a failed recursive call. *)
Definition include_body (rec : generator) (path : list nat) (idx : nat)
    (prefix context raw : string)
    (count : nat) (incs : list (option string)) (b : outbuf) (res : Z) (log : list diag)
    : exec (bool * outbuf * Z * nat * list (option string) * list diag) :=
  if (AST_PBX_MAX_STACK <=? count)%nat
  then Done (false, b, res, count, incs, log ++ [MaxDepthExceeded])
  else if negb (ast_strdup (path ++ [idx]))
  then Done (false, b, res, count, incs, log ++ [StrdupFailed])
  else
    let '(includename, tmp2) := parse_include raw in
    if Str.is_empty includename
    then Done (false, b, res, count, incs, log ++ [EmptyInclude])
    else
      dupe ← dupe_scan incs includename 0 count;
      if dupe : bool
      then Done (false, b, res, count, incs, log ++ [CircularInclude raw context])
      else
        '(res', s) ← rec (path ++ [idx]) (Some (newprefix prefix tmp2)) includename
                       count incs b log;
        let b' := if 0 <? res'
                  then Outbuf (out s) (buf b + res') (len b - res')
                  else Outbuf (out s) (buf b) (len b) in
        Done (res' <? 0, b', res', includecount s, includes s, warnings s).

(** [for (idx = 0; res >= 0 && idx < ast_context_includes_count(c); idx++) { ... }] *)
Fixpoint include_loop (rec : generator) (path : list nat) (idx : nat)
    (prefix context : string) (raws : list string)
    (count : nat) (incs : list (option string)) (b : outbuf) (res : Z) (log : list diag)
    : exec (outbuf * Z * nat * list (option string) * list diag) :=
  match raws with
  | [] => Done (b, res, count, incs, log)
  | raw :: raws' =>
      if negb (0 <=? res) then Done (b, res, count, incs, log)
      else
        '(broke, b', res', count', incs', log') ←
          include_body rec path idx prefix context raw count incs b res log;
        if broke : bool then Done (b', res', count', incs', log')
        else include_loop rec path (S idx) prefix context raws' count' incs' b' res' log'
  end.

(** [generate_digit_map]: -1 on failure, the number of bytes written on
    success. *)
Fixpoint generate_digit_map (fuel : nat) : generator :=
  fun path prefix context count incs b log =>
  match fuel with
  | O => OutOfFuel
  | S fuel' =>
      let start := buf b in
      let prefix := match prefix with Some p => p | None => EmptyString end in
      match ast_context_find context with
      | None => Done (-1, Shared count incs (mem b) (log ++ [NoSuchContext context]))
      | Some c =>
          incs1 ← include_set incs count (Some context);
          let count1 := S count in
          '(b2, res2, log2) ←
            exten_loop prefix count1 incs1 (context_extensions c) b 0 log;
          let log3 := if negb (res2 =? 0) && (len b2 <=? 0)
                      then log2 ++ [NoSpaceLeft] else log2 in
          '(b4, res4, count4, incs4, log4) ←
            include_loop (generate_digit_map fuel') path 0 prefix context
              (context_includes c) count1 incs1 b2 res2 log3;
          let count5 := pred count4 in
          incs5 ← include_set incs4 count5 None;
          Done (if res4 <? 0 then res4 else buf b4 - start,
                Shared count5 incs5 (mem b4) log4)
      end
  end.

(** What the CLI command leaves behind: the return value, the text printed
    on the console, and the warnings logged. *)
Record cli_result : Type :=
  CliResult { cli_res : Z; cli_text : string; cli_warnings : list diag }.

(** The call [generate_digit_map(NULL, context_name, &geninfo, includes, buf,
    sizeof(buf))] of [generate_digit_map_all] for an array [buf] of [size]
    bytes, with [geninfo.includecount = 0]. The array [includes[]] and the
    buffer start out with indeterminate contents, which the generator never
    reads. *)
Definition root_call (size : Z) (context_name : string) : exec (Z * shared) :=
  generate_digit_map (S AST_PBX_MAX_STACK) [] None context_name 0%nat
    (replicate AST_PBX_MAX_STACK None) (Outbuf EmptyString 0 size) [].

(** [generate_digit_map_all]: nothing is printed unless [res > 0], and then
    the buffer is printed from its second byte, with a newline. *)
Definition generate_digit_map_all (context_name : string) : exec cli_result :=
  '(res, s) ← root_call BUF_SIZE context_name;
  if res <=? 0 then Done (CliResult res EmptyString (warnings s))
  else Done (CliResult 0 (Str.drop 1 (out s) +:+ newline) (warnings s)).

End Generator.

(** ** The text of an alternative, described without the buffer *)

(** The fragment appended for one character of an extension name. *)
Definition translate_char (c : ascii) : string :=
  if Ascii.eqb c "N" then "[2-9]"
  else if Ascii.eqb c "Z" then "[1-9]"
  else if Ascii.eqb c "X" then "x"
  else if Ascii.eqb c "!" then "S0"
  else String c EmptyString.

Fixpoint translate (name : string) : string :=
  match name with
  | EmptyString => EmptyString
  | String c name' => translate_char c +:+ translate name'
  end.

(** The translation of [name] with the second-dial-tone marker where the
    character loop puts it when it starts with [ignorepat = ig]. *)
Definition with_marker (prefix : string) (ig : bool) (name : string) : string :=
  match name with
  | EmptyString => EmptyString
  | String c name' =>
      if ig then
        if Str.is_empty prefix
        then translate_char c +:+ "," +:+ translate name'
        else "," +:+ translate name
      else translate name
  end.

(** The warnings the character loop logs for [name], from the bracket
    bookkeeping [v]. *)
Fixpoint pattern_warnings (ename name : string) (v : bracket_vars) : list diag :=
  match name with
  | EmptyString => []
  | String c name' =>
      if Ascii.eqb c "N" || Ascii.eqb c "Z" || Ascii.eqb c "X" || Ascii.eqb c "!"
      then pattern_warnings ename name' v
      else let '(v', d) := track_brackets ename c v in
           d ++ pattern_warnings ename name' v'
  end.

(** The pattern translator on its own: the character loop of
    [generate_digit_map] run with no prefix and no ignore pattern on a
    buffer with room for every fragment. *)
Definition translate_pattern (name : string) : string :=
  let '(b, _, _) :=
    name_loop name EmptyString name false (BracketVars 0 0 0)
      (Outbuf EmptyString 0 (5 * strlen name + 1)) [] in
  mem b.

(** [b] with [d] more bytes of room. *)
Definition widen (d : Z) (b : outbuf) : outbuf := Outbuf (mem b) (buf b) (len b + d).

(** The buffer invariant for an array of [cap] bytes. *)
Definition buf_inv (cap : Z) (b : outbuf) : Prop :=
  0 <= buf b /\ 1 <= len b /\ buf b + len b = cap /\
  buf b <= strlen (mem b) /\ strlen (mem b) < cap.

(** The live part of the include stack: [count] entries that hold names. *)
Definition stack_ok (count : nat) (incs : list (option string)) : Prop :=
  (count <= length incs)%nat /\
  forall i, (i < count)%nat -> exists name, incs !! i = Some (Some name).

Definition stack_names (count : nat) (incs : list (option string)) : list string :=
  omap id (take count incs).

(** [b] after a successful append of [s]. *)
Definition push (b : outbuf) (s : string) : outbuf :=
  Outbuf (committed b +:+ s) (buf b + strlen s) (len b - strlen s).

(** Nothing lies behind the cursor but the terminating NUL. *)
Definition clean (b : outbuf) : Prop := mem b = committed b.

(** What every pass over the buffer preserves, whether it appends or fails. *)
Definition buf_step (cap : Z) (b b' : outbuf) : Prop :=
  buf_inv cap b' /\ buf b <= buf b'.

(** The text one pass of the character loop appends. *)
Definition step_text (prefix : string) (ig : bool) (c : ascii) : string :=
  (if negb (Str.is_empty prefix) && ig then "," else EmptyString)
  +:+ translate_char c
  +:+ (if Str.is_empty prefix && ig then "," else EmptyString).

Definition step_vars (ename : string) (c : ascii) (v : bracket_vars)
    : bracket_vars * list diag :=
  if Ascii.eqb c "N" || Ascii.eqb c "Z" || Ascii.eqb c "X" || Ascii.eqb c "!"
  then (v, [])
  else track_brackets ename c v.

(** An extension the extension loop does not skip. *)
Definition eligible (e : ast_exten) : bool :=
  negb (is_special (exten_name e)) && (exten_priority e =? 1).

(** The first dialed digit of an extension under [prefix]. *)
Definition first_digit (prefix : string) (e : ast_exten) : string :=
  if negb (Str.is_empty prefix) then Str.first prefix
  else Str.first (strip_sentinel (exten_name e)).

Section Alternatives.

Variable ast_ignore_pattern : string -> string -> bool.

(** Does an ignore pattern of one of the contexts [names] match [digit]. *)
Definition ignore_active (names : list string) (digit : string) : bool :=
  existsb (fun name => ast_ignore_pattern name digit) names.

(** One alternative of the digit map, without its leading separator: the
    prefix and the translated name of [e], with the marker. *)
Definition alternative (names : list string) (prefix : string) (e : ast_exten) : string :=
  prefix +:+
  with_marker prefix (ignore_active names (first_digit prefix e))
    (strip_sentinel (exten_name e)).

(** What the extension loop appends for the extensions [es]. *)
Definition extensions_text (names : list string) (prefix : string) (es : list ast_exten)
    : string :=
  Str.concat (map (fun e => "|" +:+ alternative names prefix e) (List.filter eligible es)).

Definition extensions_warnings (es : list ast_exten) : list diag :=
  concat (map (fun e => pattern_warnings (exten_name e) (strip_sentinel (exten_name e))
                          (BracketVars 0 0 0))
              (List.filter eligible es)).

End Alternatives.

(** The alternatives joined by the separator. *)
Fixpoint join (sep : string) (l : list string) : string :=
  match l with
  | [] => EmptyString
  | [s] => s
  | s :: l' => s +:+ sep +:+ join sep l'
  end.

(** The bracket bookkeeping after the characters of [name]. *)
Fixpoint track_name (ename name : string) (v : bracket_vars) : bracket_vars :=
  match name with
  | EmptyString => v
  | String c name' => track_name ename name' (fst (step_vars ename c v))
  end.

(** ** Bracket classes of digits and digit ranges *)

Inductive class_item : Type :=
| Single (d : ascii)
| Range (lo hi : ascii).

Definition is_digit (c : ascii) : bool :=
  (48 <=? nat_of_ascii c)%nat && (nat_of_ascii c <=? 57)%nat.

Definition item_text (i : class_item) : string :=
  match i with
  | Single d => String d EmptyString
  | Range lo hi => String lo (String "-" (String hi EmptyString))
  end.

(** A character that the literal branch of the translator copies and counts
    as an item when it stands between brackets; the digits are such. *)
Definition literal_char (c : ascii) : bool := negb (Str.mem_char c "NZX![].-").

Definition item_literal (i : class_item) : bool :=
  match i with
  | Single d => literal_char d
  | Range lo hi => literal_char lo && literal_char hi
  end.

Definition is_range (i : class_item) : bool :=
  match i with
  | Single _ => false
  | Range _ _ => true
  end.

(** What stands between the brackets. *)
Definition class_text (items : list class_item) : string :=
  Str.concat (map item_text items).

(** ** The digit map of a context as the specification words it

    Every entry of priority 1 whose sentinel-stripped name is not a reserved
    name, translated, the alternatives joined by the separator. *)
Definition spec_eligible (e : ast_exten) : bool :=
  (exten_priority e =? 1) && negb (is_special (strip_sentinel (exten_name e))).

Definition spec_digit_map (es : list ast_exten) : string :=
  join "|" (map (fun e => translate (strip_sentinel (exten_name e)))
              (List.filter spec_eligible es)).

(** ** Contracts of the recursion *)

Section Contracts.

Variable AST_PBX_MAX_STACK : nat.
Variable ast_context_find : string -> option ast_context.
Variable cap : Z.

(** What a call of the generator at stack depth [count] guarantees. *)
Definition gen_ok (count : nat) (rec : generator) : Prop :=
  forall path prefix context incs b log,
    stack_ok count incs -> length incs = AST_PBX_MAX_STACK ->
    (count < AST_PBX_MAX_STACK)%nat -> buf_inv cap b ->
    exists r s,
      rec path prefix context count incs b log = Done (r, s) /\
      includecount s = count /\ length (includes s) = AST_PBX_MAX_STACK /\
      take count (includes s) = take count incs /\
      (r = -1 \/ 0 <= r) /\
      buf_inv cap (Outbuf (out s) (buf b) (len b)) /\
      (0 <= r -> buf_inv cap (Outbuf (out s) (buf b + r) (len b - r)) /\
                 (clean b -> clean (Outbuf (out s) (buf b + r) (len b - r)))) /\
      (ast_context_find context = None ->
       r = -1 /\ s = Shared count incs (mem b) (log ++ [NoSuchContext context])) /\
      (ast_context_find context <> None -> includes s !! count = Some None).

(** What one pass of the include loop guarantees. *)
Definition include_post (count : nat) (incs : list (option string)) (b : outbuf) (res : Z)
    (x : exec (bool * outbuf * Z * nat * list (option string) * list diag)) : Prop :=
  exists broke b' res' incs' log',
    x = Done (broke, b', res', count, incs', log') /\
    length incs' = AST_PBX_MAX_STACK /\ take count incs' = take count incs /\
    buf_step cap b b' /\
    (broke = true -> res' = -1) /\ (broke = false -> res' = res \/ 0 <= res') /\
    (0 <= res' -> clean b -> clean b').

(** A call that succeeded succeeds in the same way with more room. *)
Definition gen_widen (count : nat) (rec : generator) : Prop :=
  forall path prefix context incs b log r s d,
    stack_ok count incs -> length incs = AST_PBX_MAX_STACK ->
    (count < AST_PBX_MAX_STACK)%nat -> buf_inv cap b ->
    0 <= d ->
    rec path prefix context count incs b log = Done (r, s) -> 0 <= r ->
    rec path prefix context count incs (widen d b) log = Done (r, s).

End Contracts.

(** ** Sample dialplans *)

(** A dialplan given as the list of its contexts. *)
Definition dialplan (l : list (string * ast_context)) (name : string) : option ast_context :=
  match List.find (fun p => String.eqb (fst p) name) l with
  | Some p => Some (snd p)
  | None => None
  end.

Definition no_ignorepat (_ _ : string) : bool := false.

(** Memory is never short. *)
Definition strdup_succeeds (_ : list nat) : bool := true.

(** Memory is short for the copy made at [position], and there only. *)
Definition strdup_fails_at (position : list nat) (p : list nat) : bool :=
  negb (bool_decide (p = position)).

(** Every context ignores the digit [d]. *)
Definition ignorepat_digit (d : string) (_ digit : string) : bool := String.eqb digit d.

(** [A] includes a context [C] that does not exist, and then [B]. *)
Definition dangling_plan : list (string * ast_context) :=
  [("A", Context [Exten "_1XXX" 1] ["C"; "B||9"]);
   ("B", Context [Exten "_NXX" 1] [])].

(** The contexts [c], [xc], [xxc], ...: each includes the next, the last one
    includes the first. *)
Fixpoint chain_name (i : nat) : string :=
  match i with
  | O => "c"
  | S i' => String "x" (chain_name i')
  end.

Definition chain_plan (n : nat) : list (string * ast_context) :=
  map (fun i => (chain_name i,
                 Context (if (i =? 0)%nat then [Exten "100" 1] else [])
                   [chain_name (if (S i =? n)%nat then 0%nat else S i)]))
      (seq 0 n).

(** A pattern for the letter [s] next to an ordinary pattern. *)
Definition letter_plan : list (string * ast_context) :=
  [("A", Context [Exten "_s" 1; Exten "_1XXX" 1] [])].

(** [B], included with the prefix [9], has the pattern with nothing after
    its sentinel. *)
Definition bare_sentinel_plan : list (string * ast_context) :=
  [("A", Context [] ["B||9"]);
   ("B", Context [Exten "_" 1] [])].

Definition scenario_plan : list (string * ast_context) :=
  [("A", Context [Exten "_1XXX" 1] ["B||9"]);
   ("B", Context [Exten "_NXX" 1] [])].

Definition mixed_class_plan : list (string * ast_context) :=
  [("A", Context [Exten "_1XXX" 1; Exten "s" 1; Exten "_2[03-9]" 1; Exten "h" 2] [])].


(** [A] includes [B] and [B] includes [C], each with a prefix of twenty
    bytes. *)
Definition long_prefix_plan : list (string * ast_context) :=
  [("A", Context [] ["B||12345678901234567890"]);
   ("B", Context [Exten "_0" 1] ["C||abcdefghijklmnopqrst"]);
   ("C", Context [Exten "_NXX" 1] [])].

(** 300 patterns of twelve bytes each in the digit map. *)
Definition crowded_plan : list (string * ast_context) :=
  [("A", Context (replicate 300 (Exten "_NXXXXXX" 1)) [])].

(** ** The digit map of a context tree, described without buffer, stack
    array and log *)

Section Expansion.

Variable ast_context_find : string -> option ast_context.
Variable ast_ignore_pattern : string -> string -> bool.
Variable ast_strdup : list nat -> bool.

(** The text of the includes [raws] of a context, the first of them being
    include number [idx] of the context reached along [path], and [names]
    being the contexts on the include stack down to that context: an include
    whose name cannot be copied, or with an empty name, or with a name that
    is on the stack gives nothing, any other gives the text [rec] has for
    its context under the prefix handed down, and there is no text at all
    when [rec] has none for one of them. *)
Fixpoint expand_includes
    (rec : list nat -> string -> string -> list string -> option string)
    (path : list nat) (idx : nat)
    (prefix : string) (names : list string) (raws : list string) : option string :=
  match raws with
  | [] => Some EmptyString
  | raw :: raws' =>
      let '(includename, tmp2) := parse_include raw in
      if negb (ast_strdup (path ++ [idx])) || Str.is_empty includename ||
         existsb (fun n => Str.caseeq n includename) names
      then expand_includes rec path (S idx) prefix names raws'
      else
        match rec (path ++ [idx]) (newprefix prefix tmp2) includename names with
        | None => None
        | Some t =>
            match expand_includes rec path (S idx) prefix names raws' with
            | Some t' => Some (t +:+ t')
            | None => None
            end
        end
  end.

(** The text of [context] reached along [path] and entered under [prefix]
    with [names] on the stack and [room] more levels of includes allowed
    below it: the alternatives of its own extensions, then the text of its
    includes; nothing when the context, or a context included below it, does
    not resolve. *)
Fixpoint expand (room : nat) (path : list nat) (prefix context : string)
    (names : list string) : option string :=
  match ast_context_find context with
  | None => None
  | Some c =>
      let names1 := names ++ [context] in
      let own := extensions_text ast_ignore_pattern names1 prefix (context_extensions c) in
      match room with
      | O => Some own
      | S room' =>
          match expand_includes (expand room') path 0 prefix names1 (context_includes c) with
          | Some t => Some (own +:+ t)
          | None => None
          end
      end
  end.

End Expansion.

(** How a run that returned [r] and left [m] in the array agrees with the
    text [o] of the context tree, for the buffer [b] it started from. *)
Definition agrees (o : option string) (b : outbuf) (r : Z) (m : string) : Prop :=
  match o with
  | Some t => if strlen t <? len b then r = strlen t /\ m = mem b +:+ t else r = -1
  | None => r = -1
  end.

(** The same for a loop that went from [b] and [res >= 0] to [b'] and
    [res']. *)
Definition loop_agrees (o : option string) (b b' : outbuf) (res' : Z) : Prop :=
  match o with
  | Some t => if strlen t <? len b then 0 <= res' /\ b' = push b t else res' = -1
  | None => res' = -1
  end.

(** A generator called at stack depth [count] agrees with the text function
    [rec']. *)
Definition gen_agrees (AST_PBX_MAX_STACK : nat) (cap : Z) (count : nat) (rec : generator)
    (rec' : list nat -> string -> string -> list string -> option string) : Prop :=
  forall path prefix context incs b log r s,
    stack_ok count incs -> length incs = AST_PBX_MAX_STACK ->
    (count < AST_PBX_MAX_STACK)%nat -> buf_inv cap b -> clean b ->
    rec path prefix context count incs b log = Done (r, s) ->
    agrees (rec' path (match prefix with Some p => p | None => EmptyString end) context
              (stack_names count incs)) b r (out s).

(** ** The warnings of a run *)

(** The warnings in [l] are others than the one for a full buffer. *)
Definition no_space_warning_free (l : list diag) : Prop :=
  Forall (fun d => d <> NoSpaceLeft) l.

(** A generator called at stack depth [count] only adds to the log, and never
    the warning for a full buffer. *)
Definition gen_logs (AST_PBX_MAX_STACK : nat) (cap : Z) (count : nat) (rec : generator)
    : Prop :=
  forall path prefix context incs b log r s,
    stack_ok count incs -> length incs = AST_PBX_MAX_STACK ->
    (count < AST_PBX_MAX_STACK)%nat -> buf_inv cap b ->
    rec path prefix context count incs b log = Done (r, s) ->
    exists l, warnings s = log ++ l /\ no_space_warning_free l.

(** A log that grew from [log] by warnings of the other kinds. *)
Definition grown (log log' : list diag) : Prop :=
  exists l, log' = log ++ l /\ no_space_warning_free l.

(** ** The CLI command *)

Inductive cli_command : Type := CLI_INIT | CLI_GENERATE | CLI_HANDLER.

Inductive cli_status : Type := CLI_NULL | CLI_SHOWUSAGE | CLI_SUCCESS | CLI_FAILURE.

(** The fields of [struct ast_cli_entry] the handler sets. *)
Record ast_cli_entry : Type := CliEntry { command : string; usage : string }.

(** What a call of the handler leaves behind: its return value, the entry,
    the text printed on the console and the warnings logged. *)
Record handler_result : Type :=
  HandlerResult {
    handler_status : cli_status;
    handler_entry : ast_cli_entry;
    handler_text : string;
    handler_warnings : list diag }.

Section Handler.

Variable AST_PBX_MAX_STACK : nat.
Variable ast_context_find : string -> option ast_context.
Variable ast_ignore_pattern : string -> string -> bool.
Variable ast_strdup : list nat -> bool.
(** The run of [generate_digit_map_all] for a NULL context name, which is
    what the handler asks for when it is given more than four words: what
    becomes of it is up to the lookup of the PBX core. *)
Variable null_context_run : exec cli_result.

(** [handle_dialplan_generate_digitmap]; [argv] holds the [argc] words of the
    command line. *)
Definition handle_dialplan_generate_digitmap (e : ast_cli_entry) (cmd : cli_command)
    (argv : list string) : exec handler_result :=
  match cmd with
  | CLI_INIT =>
      Done (HandlerResult CLI_NULL
              (CliEntry "dialplan generate digitmap"
                 ("Usage: dialplan generate digitmap [context]" +:+ newline +:+
                  "       Generate device digit maps for a dialplan context" +:+ newline))
              EmptyString [])
  | CLI_GENERATE => Done (HandlerResult CLI_NULL e EmptyString [])
  | CLI_HANDLER =>
      if (length argv <? 4)%nat
      then Done (HandlerResult CLI_SHOWUSAGE e EmptyString [])
      else
        r ← (if (length argv =? 4)%nat
             then match argv !! 3%nat with
                  | Some context =>
                      generate_digit_map_all AST_PBX_MAX_STACK ast_context_find
                        ast_ignore_pattern ast_strdup context
                  | None => BadAccess
                  end
             else null_context_run);
        Done (HandlerResult (if cli_res r =? 0 then CLI_SUCCESS else CLI_FAILURE) e
                (cli_text r) (cli_warnings r))
  end.

End Handler.

(** ** The count of items between brackets *)




(** ** Names in pieces *)

(** A piece of an extension name: text without brackets, or a bracket class
    of single characters and ranges. *)
Inductive segment : Type :=
| Plain (s : string)
| Class (items : list class_item).

Definition segment_text (g : segment) : string :=
  match g with
  | Plain s => s
  | Class items => "[" +:+ class_text items +:+ "]"
  end.

(** Plain text holds no bracket; a class is made of literal characters and
    either has no range or is a single item. *)
Definition segment_ok (g : segment) : bool :=
  match g with
  | Plain s => negb (Str.mem_char "[" s) && negb (Str.mem_char "]" s)
  | Class items =>
      forallb item_literal items &&
      (forallb (fun i => negb (is_range i)) items || (length items <=? 1)%nat)
  end.

(** One of the four characters the translator rewrites. *)
Definition rewritten_char (c : ascii) : bool :=
  Ascii.eqb c "N" || Ascii.eqb c "Z" || Ascii.eqb c "X" || Ascii.eqb c "!".

Fixpoint has_rewritten (name : string) : bool :=
  match name with
  | EmptyString => false
  | String c name' => rewritten_char c || has_rewritten name'
  end.

(** * Ephemeral unique IDs (funcs/func_euniqueid.c)

    The module keeps one list, [uniqueids], of the IDs it has handed out.
    The list is threaded through the three entry points below. Whether a
    channel of a given name exists is a question to the channel core, the
    clock is [time(NULL)] and the allocator is [ast_calloc]: the three enter
    as arguments. *)

From Stdlib Require Import DecimalString Sorted.

Module Euniqueid.

(** [struct uniqueid]; [id] is a C [int], [allocated] a [time_t]. *)
Record uniqueid : Type := Uniqueid { id : Z; allocated : Z; channel : string }.

Definition INT_MAX : Z := 2147483647.

(** [a + b] on [int]: no value when the sum leaves the type, where C leaves
    the behaviour undefined. *)
Definition int_add (a b : Z) : option Z :=
  if (- INT_MAX - 1 <=? a + b) && (a + b <=? INT_MAX) then Some (a + b) else None.

(** The conversion [(int) x] of a [time_t]: reduction modulo 2^32. *)
Definition to_int (x : Z) : Z := (x + 2 ^ 31) mod 2 ^ 32 - 2 ^ 31.

(** [%d] *)
Definition printf_d (v : Z) : string := NilEmpty.string_of_int (Z.to_int v).

Fixpoint spaces (n : nat) : string :=
  match n with
  | O => EmptyString
  | S n' => String " " (spaces n')
  end.

(** A conversion with a minimum field width: padded with spaces on the left. *)
Definition field (width : nat) (s : string) : string :=
  spaces (width - String.length s) +:+ s.

(** [snprintf(buf, maxlen, "%d", v)]: what [buf] holds afterwards. *)
Definition snprintf_d (buf : string) (maxlen : Z) (v : Z) : string :=
  if 0 <? maxlen then Str.take (Z.to_nat (maxlen - 1)) (printf_d v) else buf.

(** What the module logs: the [ast_log] error and the [ast_verb] line. *)
Inductive message : Type :=
| RequiresChannel (function : string)
| HasUniqueId (channel : string) (id : Z).

Record read_result : Type :=
  ReadResult {
    read_ret : Z;
    read_buf : string;
    read_uniqueids : list uniqueid;
    read_log : list message }.

Section Channels.

(** [ast_channel_get_by_name(name) != NULL] *)
Variable ast_channel_get_by_name : string -> bool.

(** The purging traversal of [euniqueid_read]: the entries that stay and
    [highest_id] after the loop. *)
Fixpoint purge (uniqueids : list uniqueid) (highest_id : Z) : list uniqueid * Z :=
  match uniqueids with
  | [] => ([], highest_id)
  | u :: rest =>
      if ast_channel_get_by_name (channel u)
      then let '(kept, highest_id') := purge rest (id u) in (u :: kept, highest_id')
      else purge rest highest_id
  end.

(** [euniqueid_read]; [chan] is the name of the calling channel, [None] for
    a NULL channel. No result where [highest_id + 1] overflows. *)
Definition euniqueid_read (chan : option string) (function : string) (buf : string)
    (maxlen : Z) (time_now : Z) (calloc_ok : bool) (uniqueids : list uniqueid)
    : option read_result :=
  match chan with
  | None =>
      Some (ReadResult (-1) (snprintf_d buf maxlen (-1)) uniqueids
              [RequiresChannel function])
  | Some name =>
      let '(kept, highest_id) := purge uniqueids (-1) in
      match (if negb (highest_id =? -1) then int_add highest_id 1 else Some 0) with
      | None => None
      | Some id =>
          if calloc_ok
          then Some (ReadResult 0 (snprintf_d buf maxlen id)
                       (kept ++ [Uniqueid id time_now name]) [HasUniqueId name id])
          else Some (ReadResult (-1) (snprintf_d buf maxlen (-1)) kept [])
      end
  end.

(** The purging traversal of [handle_show_channels]. *)
Fixpoint purge_stale (uniqueids : list uniqueid) : list uniqueid :=
  match uniqueids with
  | [] => []
  | u :: rest =>
      if ast_channel_get_by_name (channel u)
      then u :: purge_stale rest
      else purge_stale rest
  end.

(** The line [ast_cli] prints for ["%4s %6s %s\n"]. *)
Definition header : string :=
  field 4 "ID" +:+ " " +:+ field 6 "Age" +:+ " " +:+ "Channel" +:+ newline.

(** The line [ast_cli] prints for ["%4d %6d %s\n"]. *)
Definition row (now : Z) (u : uniqueid) : string :=
  let diff := to_int (now - allocated u) in
  field 4 (printf_d (id u)) +:+ " " +:+ field 6 (printf_d diff) +:+ " " +:+
  channel u +:+ newline.

Record show_result : Type :=
  ShowResult {
    show_status : cli_status;
    show_entry : ast_cli_entry;
    show_text : string;
    show_uniqueids : list uniqueid }.

(** [handle_show_channels] *)
Definition handle_show_channels (e : ast_cli_entry) (cmd : cli_command) (argc : Z)
    (time_now : Z) (uniqueids : list uniqueid) : show_result :=
  let now := time_now in
  match cmd with
  | CLI_INIT =>
      ShowResult CLI_NULL
        (CliEntry "euniqueid show channels"
           ("Usage: euniqueid show channels" +:+ newline +:+
            "       Show all currently allocated ephemeral unique IDs." +:+ newline))
        EmptyString uniqueids
  | CLI_GENERATE => ShowResult CLI_NULL e EmptyString uniqueids
  | CLI_HANDLER =>
      if negb (argc =? 3)
      then ShowResult CLI_SHOWUSAGE e EmptyString uniqueids
      else
        let kept := purge_stale uniqueids in
        ShowResult CLI_SUCCESS e (header +:+ Str.concat (map (row now) kept)) kept
  end.

End Channels.

(** [unload_module]: heads are removed until the list is empty. *)
Fixpoint unload_module (uniqueids : list uniqueid) : Z * list uniqueid :=
  match uniqueids with
  | [] => (0, [])
  | _ :: rest => unload_module rest
  end.

(** One use of the module, from one list to the next. Channels come and go
    between two uses, so each use has its own view of which channels
    exist. *)
Inductive step (l l' : list uniqueid) : Prop :=
| StepRead (exists_now : string -> bool) (chan : option string) (function buf : string)
    (maxlen time_now : Z) (calloc_ok : bool) (r : read_result) :
    euniqueid_read exists_now chan function buf maxlen time_now calloc_ok l = Some r ->
    l' = read_uniqueids r -> step l l'
| StepShow (exists_now : string -> bool) (e : ast_cli_entry) (cmd : cli_command)
    (argc time_now : Z) :
    l' = show_uniqueids (handle_show_channels exists_now e cmd argc time_now l) ->
    step l l'
| StepUnload : l' = (unload_module l).2 -> step l l'.

(** The lists the module can reach from the empty list it is loaded with. *)
Inductive reachable : list uniqueid -> Prop :=
| ReachLoad : reachable []
| ReachStep l l' : reachable l -> step l l' -> reachable l'.

(** The entries of live channels. *)
Definition live (exists_now : string -> bool) (l : list uniqueid) : list uniqueid :=
  List.filter (fun u => exists_now (channel u)) l.

(** IDs grow strictly along the list and each is a non-negative [int]. *)
Definition ids_ok (l : list uniqueid) : Prop :=
  StronglySorted Z.lt (map id l) /\ Forall (fun u => 0 <= id u <= INT_MAX) l.

(** ** Sample states *)

(** The channels that exist, by name. *)
Definition channels_up (names : list string) (name : string) : bool :=
  existsb (String.eqb name) names.

(** Three channels have read in turn while all of them existed. *)
Definition three_calls : list uniqueid :=
  [Uniqueid 0 100 "SIP/a"; Uniqueid 1 101 "SIP/b"; Uniqueid 2 102 "SIP/c"].

End Euniqueid.

(** ** Strings *)

Lemma str_app_nil_l (b : string) : EmptyString +:+ b = b.
Proof. reflexivity. Qed.

Lemma str_app_cons (c : ascii) (a b : string) : String c a +:+ b = String c (a +:+ b).
Proof. reflexivity. Qed.

Lemma str_length_app (a b : string) :
  String.length (a +:+ b) = (String.length a + String.length b)%nat.
Proof.
  induction a as [|c a IH]; [reflexivity|].
  rewrite str_app_cons. simpl. now rewrite IH.
Qed.

Lemma strlen_app (a b : string) : strlen (a +:+ b) = strlen a + strlen b.
Proof. unfold strlen. rewrite str_length_app. lia. Qed.

Lemma strlen_nonneg (s : string) : 0 <= strlen s.
Proof. unfold strlen. lia. Qed.

Lemma str_app_nil_r (a : string) : a +:+ EmptyString = a.
Proof.
  induction a as [|c a IH]; [reflexivity|].
  now rewrite str_app_cons, IH.
Qed.

Lemma str_app_assoc (a b c : string) : (a +:+ b) +:+ c = a +:+ (b +:+ c).
Proof.
  induction a as [|x a IH]; [reflexivity|].
  now rewrite !str_app_cons, IH.
Qed.

Lemma str_take_all (n : nat) (s : string) : (String.length s <= n)%nat -> Str.take n s = s.
Proof.
  revert n. induction s as [|c s IH]; intros [|n] H; simpl in *; try reflexivity; try lia.
  rewrite IH; [reflexivity | lia].
Qed.

Lemma str_take_length (n : nat) (s : string) :
  String.length (Str.take n s) = Nat.min n (String.length s).
Proof.
  revert n. induction s as [|c s IH]; intros [|n]; simpl; try reflexivity.
  now rewrite IH.
Qed.

Lemma str_take_app_le (n : nat) (a b : string) :
  (n <= String.length a)%nat -> Str.take n (a +:+ b) = Str.take n a.
Proof.
  revert n. induction a as [|c a IH]; intros [|n] H; rewrite ?str_app_cons;
    simpl in *; try reflexivity; try lia.
  rewrite IH; [reflexivity | lia].
Qed.

Lemma str_take_take (n : nat) (s : string) : Str.take n (Str.take n s) = Str.take n s.
Proof.
  revert n. induction s as [|c s IH]; intros [|n]; simpl; try reflexivity.
  now rewrite IH.
Qed.


(** ** The accumulator *)

Lemma committed_length (b : outbuf) :
  0 <= buf b -> buf b <= strlen (mem b) -> strlen (committed b) = buf b.
Proof.
  intros H0 H1. unfold committed, strlen in *. rewrite str_take_length. lia.
Qed.

Lemma buf_append_fits (b : outbuf) (s : string) :
  strlen s < len b ->
  buf_append b s =
    Appended (Outbuf (committed b +:+ s) (buf b + strlen s) (len b - strlen s)).
Proof.
  intros H. pose proof (strlen_nonneg s) as Hs.
  unfold buf_append, snprintf.
  destruct (Z.ltb_spec 0 (len b)); [|lia].
  destruct (Z.geb_spec (strlen s) (len b)); [lia|].
  rewrite (str_take_all _ s) by (unfold strlen in *; lia).
  reflexivity.
Qed.

Lemma buf_append_full (b : outbuf) (s : string) :
  len b <= strlen s ->
  exists m, buf_append b s = Exhausted (Outbuf m (buf b) (len b)) /\
    (1 <= len b -> m = committed b +:+ Str.take (Z.to_nat (len b - 1)) s).
Proof.
  intros H. unfold buf_append, snprintf.
  destruct (Z.geb_spec (strlen s) (len b)); [|lia].
  eexists; split; [reflexivity|].
  intros H1. destruct (Z.ltb_spec 0 (len b)); [reflexivity | lia].
Qed.

Lemma buf_append_inv (cap : Z) (b : outbuf) (s : string) :
  buf_inv cap b ->
  match buf_append b s with
  | Appended b' =>
      buf_inv cap b' /\ strlen s < len b /\
      b' = Outbuf (committed b +:+ s) (buf b + strlen s) (len b - strlen s)
  | Exhausted b' =>
      buf_inv cap b' /\ len b <= strlen s /\
      buf b' = buf b /\ len b' = len b /\ committed b' = committed b
  end.
Proof.
  intros (H0 & H1 & Hc & Hm & Hl). pose proof (strlen_nonneg s) as Hs.
  pose proof (committed_length b H0 Hm) as Hcl.
  destruct (Z.lt_ge_cases (strlen s) (len b)) as [Hlt|Hge].
  - rewrite buf_append_fits by assumption.
    split; [|split; [assumption | reflexivity]].
    unfold buf_inv; simpl. rewrite strlen_app, Hcl. lia.
  - destruct (buf_append_full b s Hge) as (m & -> & Hmm).
    specialize (Hmm H1). subst m.
    assert (Hlen : strlen (committed b +:+ Str.take (Z.to_nat (len b - 1)) s)
                   = buf b + (len b - 1)).
    { rewrite strlen_app, Hcl. unfold strlen in *. rewrite str_take_length. lia. }
    split; [|split; [assumption|split; [reflexivity|split; [reflexivity|]]]].
    + unfold buf_inv; simpl. rewrite Hlen. lia.
    + unfold committed at 1; simpl.
      rewrite str_take_app_le.
      * apply str_take_take.
      * unfold strlen in Hcl. lia.
Qed.

Lemma buf_append_widen (d : Z) (b b' : outbuf) (s : string) :
  0 <= d -> buf_append b s = Appended b' ->
  buf_append (widen d b) s = Appended (widen d b').
Proof.
  intros Hd H. pose proof (strlen_nonneg s) as Hs.
  destruct (Z.lt_ge_cases (strlen s) (len b)) as [Hlt|Hge].
  - rewrite buf_append_fits in H by assumption. injection H as <-.
    rewrite buf_append_fits by (simpl; lia).
    unfold widen, committed; simpl. f_equal. f_equal. lia.
  - destruct (buf_append_full b s Hge) as (m & Hm & _). congruence.
Qed.


Lemma buf_append_push (b : outbuf) (s : string) :
  strlen s < len b -> buf_append b s = Appended (push b s).
Proof. apply buf_append_fits. Qed.

Lemma committed_push (cap : Z) (b : outbuf) (s : string) :
  buf_inv cap b -> committed (push b s) = committed b +:+ s.
Proof.
  intros (H0 & H1 & Hc & Hm & Hl).
  pose proof (committed_length b H0 Hm) as Hcl. pose proof (strlen_nonneg s).
  unfold committed at 1, push; simpl. apply str_take_all.
  rewrite str_length_app. unfold strlen in *. lia.
Qed.

Lemma push_clean (cap : Z) (b : outbuf) (s : string) : buf_inv cap b -> clean (push b s).
Proof. intros H. unfold clean. rewrite (committed_push cap) by assumption. reflexivity. Qed.

Lemma push_inv (cap : Z) (b : outbuf) (s : string) :
  buf_inv cap b -> strlen s < len b -> buf_inv cap (push b s).
Proof.
  intros (H0 & H1 & Hc & Hm & Hl) Hs.
  pose proof (committed_length b H0 Hm) as Hcl. pose proof (strlen_nonneg s).
  unfold buf_inv, push; simpl. rewrite strlen_app, Hcl. lia.
Qed.

Lemma push_push (cap : Z) (b : outbuf) (s1 s2 : string) :
  buf_inv cap b -> push (push b s1) s2 = push b (s1 +:+ s2).
Proof.
  intros H. unfold push at 1. rewrite (committed_push cap) by assumption.
  unfold push; simpl. rewrite str_app_assoc, strlen_app. f_equal; lia.
Qed.

Lemma push_nil (b : outbuf) : clean b -> push b EmptyString = b.
Proof.
  unfold clean, push. intros <-. rewrite str_app_nil_r. destruct b; simpl.
  f_equal; unfold strlen; simpl; lia.
Qed.

Lemma then_append_push (b : outbuf) (s : string) (log : list diag) (k : outbuf -> flow) :
  strlen s < len b -> then_append b s log k = k (push b s).
Proof. intros H. unfold then_append. now rewrite buf_append_push. Qed.

Lemma with_marker_cons (prefix : string) (ig : bool) (c : ascii) (name : string) :
  with_marker prefix ig (String c name) = step_text prefix ig c +:+ translate name.
Proof.
  unfold with_marker, step_text.
  destruct ig, (Str.is_empty prefix); simpl;
    rewrite ?str_app_nil_l, ?str_app_nil_r, ?str_app_assoc; reflexivity.
Qed.

Lemma with_marker_false (prefix name : string) : with_marker prefix false name = translate name.
Proof. now destruct name. Qed.

Lemma name_step_fits (cap : Z) (ename prefix : string) (c : ascii) (ig : bool)
    (v : bracket_vars) (b : outbuf) (log : list diag) :
  buf_inv cap b -> strlen (step_text prefix ig c) < len b ->
  name_step ename prefix c ig v b log =
    Next false (fst (step_vars ename c v)) (push b (step_text prefix ig c))
      (log ++ snd (step_vars ename c v)).
Proof.
  intros Hinv Hfit. unfold name_step, step_text, step_vars, translate_char in *.
  destruct (Str.is_empty prefix), ig; simpl in *;
    rewrite ?str_app_nil_l, ?str_app_nil_r in *; rewrite ?strlen_app in Hfit.
  all: repeat match goal with
       | |- context [Ascii.eqb ?a ?x] => destruct (Ascii.eqb a x); simpl
       end.
  all: try destruct (track_brackets ename c v) as [v' d]; simpl.
  all: rewrite ?app_nil_r.
  all: repeat (rewrite then_append_push;
         [| simpl; unfold strlen in *; simpl in *; lia]).
  all: rewrite ?(push_push cap) by assumption; try reflexivity.
  all: try (rewrite then_append_push;
         [| rewrite ?strlen_app in *; unfold push; simpl;
            unfold strlen in *; simpl in *; lia]).
  all: rewrite ?(push_push cap) by assumption; try reflexivity.
Qed.

Lemma pattern_warnings_cons (ename : string) (c : ascii) (name : string) (v : bracket_vars) :
  pattern_warnings ename (String c name) v =
    snd (step_vars ename c v) ++ pattern_warnings ename name (fst (step_vars ename c v)).
Proof.
  unfold step_vars; simpl.
  destruct (Ascii.eqb c "N" || Ascii.eqb c "Z" || Ascii.eqb c "X" || Ascii.eqb c "!");
    [reflexivity|].
  now destruct (track_brackets ename c v).
Qed.

Lemma translate_char_length (c : ascii) : 1 <= strlen (translate_char c) <= 5.
Proof.
  unfold translate_char.
  repeat match goal with
         | |- context [Ascii.eqb ?a ?x] => destruct (Ascii.eqb a x)
         end; unfold strlen; simpl; lia.
Qed.

Lemma name_loop_fits (cap : Z) (ename prefix name : string) (ig : bool)
    (v : bracket_vars) (b : outbuf) (log : list diag) :
  buf_inv cap b -> clean b -> strlen (with_marker prefix ig name) < len b ->
  name_loop ename prefix name ig v b log =
    (push b (with_marker prefix ig name), false, log ++ pattern_warnings ename name v).
Proof.
  revert ig v b log. induction name as [|c name IH]; intros ig v b log Hinv Hclean Hfit.
  - simpl. rewrite push_nil by assumption. now rewrite app_nil_r.
  - rewrite with_marker_cons in *. rewrite strlen_app in Hfit.
    pose proof (strlen_nonneg (translate name)).
    cbn [name_loop]. rewrite (name_step_fits cap) by (assumption || lia).
    rewrite IH.
    + rewrite with_marker_false, (push_push cap) by assumption.
      rewrite pattern_warnings_cons, app_assoc. reflexivity.
    + apply push_inv; [assumption | lia].
    + now apply (push_clean cap).
    + rewrite with_marker_false. unfold push; simpl. lia.
Qed.

Lemma name_step_widen (d : Z) (ename prefix : string) (c : ascii) (ig ig' : bool)
    (v v' : bracket_vars) (b b' : outbuf) (log log' : list diag) :
  0 <= d ->
  name_step ename prefix c ig v b log = Next ig' v' b' log' ->
  name_step ename prefix c ig v (widen d b) log = Next ig' v' (widen d b') log'.
Proof.
  intros Hd H. unfold name_step, then_append in *.
  destruct (negb (Str.is_empty prefix) && ig), (Str.is_empty prefix);
    simpl in *.
  all: repeat match goal with
       | H : context [Ascii.eqb ?a ?x] |- _ => destruct (Ascii.eqb a x); simpl in H
       end.
  all: try destruct (track_brackets ename c v) as [v1 d1].
  all: repeat match goal with
       | H : match buf_append ?b ?s with _ => _ end = _ |- _ =>
           let E := fresh "E" in
           destruct (buf_append b s) eqn:E; [| discriminate H];
           rewrite (buf_append_widen d _ _ _ Hd E)
       | H : (if ?c then _ else _) = _ |- _ => destruct c; simpl in H
       end.
  all: try (injection H as <- <- <- <-; reflexivity).
Qed.

Lemma name_loop_widen (d : Z) (ename prefix name : string) (ig : bool)
    (v : bracket_vars) (b b' : outbuf) (log log' : list diag) :
  0 <= d ->
  name_loop ename prefix name ig v b log = (b', false, log') ->
  name_loop ename prefix name ig v (widen d b) log = (widen d b', false, log').
Proof.
  intros Hd. revert ig v b log. induction name as [|c name IH]; intros ig v b log H.
  - simpl in *. now injection H as <- <-.
  - cbn [name_loop] in *.
    destruct (name_step ename prefix c ig v b log) as [ig1 v1 b1 log1|b1 log1] eqn:E;
      [| discriminate H].
    rewrite (name_step_widen d _ _ _ _ _ _ _ _ _ _ _ Hd E). now apply IH.
Qed.

Lemma buf_step_refl (cap : Z) (b : outbuf) : buf_inv cap b -> buf_step cap b b.
Proof. intros H. split; [assumption | lia]. Qed.

Lemma buf_step_trans (cap : Z) (b1 b2 b3 : outbuf) :
  buf_step cap b1 b2 -> buf_step cap b2 b3 -> buf_step cap b1 b3.
Proof. intros [_ H1] [H2 H3]. split; [assumption | lia]. Qed.

Lemma buf_append_step (cap : Z) (b : outbuf) (s : string) :
  buf_inv cap b ->
  match buf_append b s with
  | Appended b' => buf_step cap b b' /\ clean b'
  | Exhausted b' => buf_step cap b b'
  end.
Proof.
  intros H. pose proof (buf_append_inv cap b s H) as Hs.
  pose proof (strlen_nonneg s).
  destruct (buf_append b s) as [b'|b'].
  - destruct Hs as (Hi & Hlt & ->). split; [split|].
    + assumption.
    + simpl. lia.
    + apply (push_clean cap b s H).
  - destruct Hs as (Hi & _ & Hb & _). split; [assumption | lia].
Qed.

Lemma name_step_inv (cap : Z) (ename prefix : string) (c : ascii) (ig : bool)
    (v : bracket_vars) (b : outbuf) (log : list diag) :
  buf_inv cap b ->
  match name_step ename prefix c ig v b log with
  | Next _ _ b' _ => buf_step cap b b' /\ clean b'
  | Stop b' _ => buf_step cap b b'
  end.
Proof.
  intros Hinv. unfold name_step, then_append.
  destruct (negb (Str.is_empty prefix) && ig), (Str.is_empty prefix), ig; simpl;
    repeat match goal with
      | |- context [Ascii.eqb ?a ?x] => destruct (Ascii.eqb a x); simpl
      end;
    try destruct (track_brackets ename c v) as [v1 d1];
    repeat match goal with
      | |- context [buf_append ?b ?s] =>
          let Hs := fresh "Hs" in
          assert (Hs := buf_append_step cap b s);
          destruct (buf_append b s)
      end;
    repeat match goal with
      | H : buf_inv cap ?b -> _, H' : buf_inv cap ?b |- _ => specialize (H H')
      | H : buf_step cap _ _ /\ clean _ |- _ => destruct H
      | H : buf_inv cap ?b -> _, H' : buf_step cap _ ?b |- _ => specialize (H (proj1 H'))
      end;
    try (split; [|assumption]);
    eauto using buf_step_trans.
Qed.

Lemma name_loop_inv (cap : Z) (ename prefix name : string) (ig : bool)
    (v : bracket_vars) (b : outbuf) (log : list diag) :
  buf_inv cap b ->
  match name_loop ename prefix name ig v b log with
  | (b', broke, _) => buf_step cap b b' /\ (broke = false -> clean b -> clean b')
  end.
Proof.
  revert ig v b log. induction name as [|c name IH]; intros ig v b log Hinv.
  - simpl. split; [now apply buf_step_refl | auto].
  - cbn [name_loop]. pose proof (name_step_inv cap ename prefix c ig v b log Hinv) as Hs.
    destruct (name_step ename prefix c ig v b log) as [ig1 v1 b1 log1|b1 log1].
    + destruct Hs as [Hs Hc]. specialize (IH ig1 v1 b1 log1 (proj1 Hs)).
      destruct (name_loop ename prefix name ig1 v1 b1 log1) as [[b2 broke] log2].
      destruct IH as [IH1 IH2]. split; [eauto using buf_step_trans | auto].
    + split; [assumption | discriminate].
Qed.


(** ** The include stack *)

Lemma stack_ok_push (count : nat) (incs : list (option string)) (name : string) :
  stack_ok count incs -> (count < length incs)%nat ->
  stack_ok (S count) (<[count := Some name]> incs).
Proof.
  intros [Hl Hs] Hc. split.
  - rewrite length_insert. lia.
  - intros i Hi. destruct (decide (i = count)) as [->|Hne].
    + exists name. now apply list_lookup_insert_eq.
    + rewrite list_lookup_insert_ne by congruence. apply Hs. lia.
Qed.

Lemma stack_ok_take (count : nat) (incs incs' : list (option string)) :
  stack_ok count incs -> length incs' = length incs ->
  take count incs' = take count incs -> stack_ok count incs'.
Proof.
  intros [Hl Hs] Hlen Ht. split; [lia|].
  intros i Hi. destruct (Hs i Hi) as [name Hn]. exists name.
  rewrite <- (lookup_take_lt incs' count i), Ht, lookup_take_lt by lia. exact Hn.
Qed.

Lemma stack_names_take (count : nat) (incs incs' : list (option string)) :
  take count incs' = take count incs -> stack_names count incs' = stack_names count incs.
Proof. unfold stack_names. now intros ->. Qed.

Lemma stack_names_push (count : nat) (incs : list (option string)) (name : string) :
  stack_ok count incs -> (count < length incs)%nat ->
  stack_names (S count) (<[count := Some name]> incs) = stack_names count incs ++ [name].
Proof.
  intros [Hl Hs] Hc. unfold stack_names.
  rewrite (take_S_r _ _ (Some name)) by now apply list_lookup_insert_eq.
  rewrite take_insert_ge by lia.
  rewrite omap_app. reflexivity.
Qed.

Lemma include_at_ok (count : nat) (incs : list (option string)) (i : nat) :
  stack_ok count incs -> (i < count)%nat ->
  exists name, incs !! i = Some (Some name) /\ include_at incs i = Done name.
Proof.
  intros [_ Hs] Hi. destruct (Hs i Hi) as [name Hn]. exists name.
  split; [assumption|]. unfold include_at. now rewrite Hn.
Qed.

Lemma omap_take_drop_S (incs : list (option string)) (i n : nat) (name : string) :
  incs !! i = Some (Some name) ->
  omap id (take (S n) (drop i incs)) = name :: omap id (take n (drop (S i) incs)).
Proof.
  intros H. rewrite (drop_S _ _ _ H). reflexivity.
Qed.

Lemma ignorepat_scan_ok (ignore : string -> string -> bool)
    (count : nat) (incs : list (option string)) (firstchar : string) (n i : nat) :
  stack_ok count incs -> (i + n <= count)%nat ->
  ignorepat_scan ignore incs firstchar i n =
    Done (ignore_active ignore (omap id (take n (drop i incs))) firstchar).
Proof.
  intros Hok. revert i. induction n as [|n IH]; intros i Hi.
  - reflexivity.
  - destruct (include_at_ok count incs i Hok) as (name & Hn & Ha); [lia|].
    cbn [ignorepat_scan]. rewrite Ha. cbn.
    rewrite (omap_take_drop_S _ _ _ _ Hn). cbn.
    destruct (ignore name firstchar); [reflexivity|].
    rewrite IH by lia. reflexivity.
Qed.

Lemma dupe_scan_ok (count : nat) (incs : list (option string)) (includename : string)
    (n i : nat) :
  stack_ok count incs -> (i + n <= count)%nat ->
  dupe_scan incs includename i n =
    Done (existsb (fun name => Str.caseeq name includename)
            (omap id (take n (drop i incs)))).
Proof.
  intros Hok. revert i. induction n as [|n IH]; intros i Hi.
  - reflexivity.
  - destruct (include_at_ok count incs i Hok) as (name & Hn & Ha); [lia|].
    cbn [dupe_scan]. rewrite Ha. cbn.
    rewrite (omap_take_drop_S _ _ _ _ Hn). cbn.
    destruct (Str.caseeq name includename); [reflexivity|].
    rewrite IH by lia. reflexivity.
Qed.

Lemma ignorepat_scan_stack (ignore : string -> string -> bool)
    (count : nat) (incs : list (option string)) (firstchar : string) :
  stack_ok count incs ->
  ignorepat_scan ignore incs firstchar 0 count =
    Done (ignore_active ignore (stack_names count incs) firstchar).
Proof. intros H. now rewrite (ignorepat_scan_ok ignore count) by (assumption || lia). Qed.

Lemma dupe_scan_stack (count : nat) (incs : list (option string)) (includename : string) :
  stack_ok count incs ->
  dupe_scan incs includename 0 count =
    Done (existsb (fun name => Str.caseeq name includename) (stack_names count incs)).
Proof. intros H. now rewrite (dupe_scan_ok count) by (assumption || lia). Qed.


Section Extensions.

Variable ignore : string -> string -> bool.

Lemma exten_body_skip (prefix : string) (count : nat) (incs : list (option string))
    (e : ast_exten) (b : outbuf) (res : Z) (log : list diag) :
  eligible e = false ->
  exten_body ignore prefix count incs e b res log = Done (false, b, res, log).
Proof.
  unfold eligible, exten_body. intros H.
  destruct (is_special (exten_name e)); [reflexivity|].
  simpl in H. now rewrite H.
Qed.

Lemma exten_body_unfold (prefix : string) (count : nat) (incs : list (option string))
    (e : ast_exten) (b : outbuf) (res : Z) (log : list diag) :
  eligible e = true -> stack_ok count incs ->
  exten_body ignore prefix count incs e b res log =
    match buf_append b "|" with
    | Exhausted b1 => Done (true, b1, -1, log)
    | Appended b1 =>
        match buf_append b1 prefix with
        | Exhausted b2 => Done (true, b2, -1, log)
        | Appended b2 =>
            let '(b3, broke, log') :=
              name_loop (exten_name e) prefix (strip_sentinel (exten_name e))
                (ignore_active ignore (stack_names count incs) (first_digit prefix e))
                (BracketVars 0 0 0) b2 log in
            Done (false, b3, if broke then -1 else res, log')
        end
    end.
Proof.
  unfold eligible, exten_body. intros H Hok.
  apply andb_true_iff in H as [H1 H2].
  apply negb_true_iff in H1. rewrite H1, H2. cbn [negb].
  rewrite ignorepat_scan_stack by assumption. reflexivity.
Qed.

Lemma exten_body_fits (cap : Z) (prefix : string) (count : nat)
    (incs : list (option string)) (e : ast_exten) (b : outbuf) (res : Z) (log : list diag) :
  eligible e = true -> stack_ok count incs -> buf_inv cap b ->
  1 + strlen (alternative ignore (stack_names count incs) prefix e) < len b ->
  exten_body ignore prefix count incs e b res log =
    Done (false, push b ("|" +:+ alternative ignore (stack_names count incs) prefix e), res,
          log ++ pattern_warnings (exten_name e) (strip_sentinel (exten_name e))
                   (BracketVars 0 0 0)).
Proof.
  intros He Hok Hinv Hfit. rewrite exten_body_unfold by assumption.
  unfold alternative in *. rewrite strlen_app in Hfit.
  set (m := with_marker _ _ _) in *.
  pose proof (strlen_nonneg prefix). pose proof (strlen_nonneg m).
  assert (H1 : strlen "|" = 1) by reflexivity.
  rewrite buf_append_push by lia.
  assert (Hi1 : buf_inv cap (push b "|")) by (apply push_inv; [assumption | lia]).
  rewrite buf_append_push by (unfold push; simpl; lia).
  assert (Hi2 : buf_inv cap (push (push b "|") prefix))
    by (apply push_inv; [assumption | unfold push; simpl; lia]).
  rewrite (name_loop_fits cap).
  - rewrite !(push_push cap) by assumption. reflexivity.
  - assumption.
  - now apply (push_clean cap).
  - fold m. unfold push; simpl. lia.
Qed.

Lemma extensions_text_cons (names : list string) (prefix : string) (e : ast_exten)
    (es : list ast_exten) :
  extensions_text ignore names prefix (e :: es) =
    (if eligible e then "|" +:+ alternative ignore names prefix e else EmptyString)
    +:+ extensions_text ignore names prefix es.
Proof. unfold extensions_text. simpl. now destruct (eligible e). Qed.

Lemma extensions_warnings_cons (e : ast_exten) (es : list ast_exten) :
  extensions_warnings (e :: es) =
    (if eligible e
     then pattern_warnings (exten_name e) (strip_sentinel (exten_name e)) (BracketVars 0 0 0)
     else []) ++ extensions_warnings es.
Proof. unfold extensions_warnings. simpl. now destruct (eligible e). Qed.

Lemma exten_loop_fits (cap : Z) (prefix : string) (count : nat)
    (incs : list (option string)) (es : list ast_exten) (b : outbuf) (res : Z)
    (log : list diag) :
  stack_ok count incs -> buf_inv cap b -> clean b ->
  strlen (extensions_text ignore (stack_names count incs) prefix es) < len b ->
  exten_loop ignore prefix count incs es b res log =
    Done (push b (extensions_text ignore (stack_names count incs) prefix es), res,
          log ++ extensions_warnings es).
Proof.
  intros Hok. revert b log. induction es as [|e es IH]; intros b log Hinv Hclean Hfit.
  - simpl. rewrite push_nil by assumption. now rewrite app_nil_r.
  - rewrite extensions_text_cons, extensions_warnings_cons in *.
    rewrite strlen_app in Hfit.
    pose proof (strlen_nonneg (extensions_text ignore (stack_names count incs) prefix es)).
    cbn [exten_loop]. destruct (eligible e) eqn:He; rewrite ?He in Hfit.
    + rewrite strlen_app in Hfit. change (strlen "|") with 1 in Hfit.
      rewrite (exten_body_fits cap) by (assumption || lia). cbn.
      rewrite IH.
      * rewrite (push_push cap), app_assoc by assumption. reflexivity.
      * apply push_inv; [assumption|]. rewrite strlen_app. change (strlen "|") with 1. lia.
      * now apply (push_clean cap).
      * unfold push at 1; simpl. rewrite strlen_app. change (strlen "|") with 1. lia.
    + rewrite exten_body_skip by assumption. cbn.
      rewrite str_app_nil_l in *. change (strlen EmptyString) with 0 in Hfit.
      rewrite IH by (assumption || lia). reflexivity.
Qed.

(** The invariant of the extension loop. *)
Lemma exten_body_inv (cap : Z) (prefix : string) (count : nat)
    (incs : list (option string)) (e : ast_exten) (b : outbuf) (res : Z) (log : list diag) :
  stack_ok count incs -> buf_inv cap b ->
  exists broke b' res' log',
    exten_body ignore prefix count incs e b res log = Done (broke, b', res', log') /\
    buf_step cap b b' /\ (res' = res \/ res' = -1) /\
    (broke = true -> res' = -1) /\ (0 <= res' -> clean b -> clean b').
Proof.
  intros Hok Hinv. destruct (eligible e) eqn:He.
  - rewrite exten_body_unfold by assumption.
    pose proof (buf_append_step cap b "|" Hinv) as H1.
    destruct (buf_append b "|") as [b1|b1].
    + destruct H1 as [H1 _].
      pose proof (buf_append_step cap b1 prefix (proj1 H1)) as H2.
      destruct (buf_append b1 prefix) as [b2|b2].
      * destruct H2 as [H2 Hc2].
        pose proof (name_loop_inv cap (exten_name e) prefix (strip_sentinel (exten_name e))
                      (ignore_active ignore (stack_names count incs) (first_digit prefix e))
                      (BracketVars 0 0 0) b2 log (proj1 H2)) as H3.
        destruct (name_loop _ _ _ _ _ b2 log) as [[b3 broke] log3].
        destruct H3 as [H3 Hc3].
        exists false, b3, (if broke then -1 else res), log3.
        split; [reflexivity|]. split; [eauto using buf_step_trans|].
        destruct broke; (split; [auto|]); (split; [discriminate|]); intros; [lia | auto].
      * exists true, b2, (-1), log. split; [reflexivity|].
        split; [eauto using buf_step_trans|]. split; [auto|]. split; [auto|]. lia.
    + exists true, b1, (-1), log. split; [reflexivity|].
      split; [assumption|]. split; [auto|]. split; [auto|]. lia.
  - rewrite exten_body_skip by assumption. exists false, b, res, log.
    split; [reflexivity|]. split; [now apply buf_step_refl|].
    split; [auto|]. split; [discriminate | auto].
Qed.

Lemma exten_loop_inv (cap : Z) (prefix : string) (count : nat)
    (incs : list (option string)) (es : list ast_exten) (b : outbuf) (res : Z)
    (log : list diag) :
  stack_ok count incs -> buf_inv cap b ->
  exists b' res' log',
    exten_loop ignore prefix count incs es b res log = Done (b', res', log') /\
    buf_step cap b b' /\ (res' = res \/ res' = -1) /\ (0 <= res' -> clean b -> clean b').
Proof.
  intros Hok. revert b res log. induction es as [|e es IH]; intros b res log Hinv.
  - exists b, res, log. split; [reflexivity|]. split; [now apply buf_step_refl | auto].
  - destruct (exten_body_inv cap prefix count incs e b res log Hok Hinv)
      as (broke & b1 & res1 & log1 & E & Hs & Hr & Hb & Hc).
    cbn [exten_loop]. rewrite E. cbn. destruct broke.
    + exists b1, res1, log1. split; [reflexivity|]. auto.
    + destruct (IH b1 res1 log1 (proj1 Hs)) as (b2 & res2 & log2 & E2 & Hs2 & Hr2 & Hc2).
      exists b2, res2, log2. split; [assumption|].
      split; [eauto using buf_step_trans|]. split; [intuition lia|].
      intros H0 Hcl. apply Hc2; [assumption|]. apply Hc; [intuition lia | assumption].
Qed.

(** More room changes nothing in a pass that did not run out of it. *)
Lemma exten_body_widen (d : Z) (prefix : string) (count : nat)
    (incs : list (option string)) (e : ast_exten) (b b' : outbuf) (res res' : Z)
    (log log' : list diag) (broke : bool) :
  0 <= d -> stack_ok count incs ->
  exten_body ignore prefix count incs e b res log = Done (broke, b', res', log') ->
  0 <= res' ->
  exten_body ignore prefix count incs e (widen d b) res log =
    Done (broke, widen d b', res', log').
Proof.
  intros Hd Hok H Hres. destruct (eligible e) eqn:He.
  - rewrite exten_body_unfold in * by assumption.
    destruct (buf_append b "|") as [b1|b1] eqn:E1;
      [| injection H as <- <- <- <-; lia].
    rewrite (buf_append_widen d _ _ _ Hd E1).
    destruct (buf_append b1 prefix) as [b2|b2] eqn:E2;
      [| injection H as <- <- <- <-; lia].
    rewrite (buf_append_widen d _ _ _ Hd E2).
    destruct (name_loop _ _ _ _ _ b2 log) as [[b3 br] log3] eqn:E3.
    destruct br; [injection H as <- <- <- <-; lia|].
    rewrite (name_loop_widen d _ _ _ _ _ _ _ _ _ Hd E3).
    injection H as <- <- <- <-. reflexivity.
  - rewrite exten_body_skip in * by assumption.
    injection H as <- <- <- <-. reflexivity.
Qed.

Lemma exten_loop_widen (cap d : Z) (prefix : string) (count : nat)
    (incs : list (option string)) (es : list ast_exten) (b b' : outbuf) (res res' : Z)
    (log log' : list diag) :
  0 <= d -> stack_ok count incs -> buf_inv cap b ->
  exten_loop ignore prefix count incs es b res log = Done (b', res', log') ->
  0 <= res' ->
  exten_loop ignore prefix count incs es (widen d b) res log =
    Done (widen d b', res', log').
Proof.
  intros Hd Hok. revert b res log. induction es as [|e es IH]; intros b res log Hinv H Hres.
  - simpl in *. injection H as <- <- <-. reflexivity.
  - cbn [exten_loop] in *.
    destruct (exten_body_inv cap prefix count incs e b res log Hok Hinv)
      as (broke & b1 & res1 & log1 & E & Hs & Hr & Hb & Hc).
    rewrite E in H. cbn in H. destruct broke.
    + injection H as <- <- <-. specialize (Hb eq_refl). lia.
    + destruct (exten_loop_inv cap prefix count incs es b1 res1 log1 Hok (proj1 Hs))
        as (b2 & res2 & log2 & E2 & _ & Hr2 & _).
      rewrite E2 in H. injection H as <- <- <-.
      assert (0 <= res1) by intuition lia.
      rewrite (exten_body_widen d _ _ _ _ _ _ _ _ _ _ _ Hd Hok E) by assumption.
      cbn. apply IH; [apply Hs | assumption | assumption].
Qed.

End Extensions.


Lemma take_S_eq {A : Type} (n : nat) (l l' : list A) :
  take (S n) l = take (S n) l' -> take n l = take n l'.
Proof.
  intros H. rewrite <- (Nat.min_l n (S n)), <- !take_take, H by lia. reflexivity.
Qed.

Lemma buf_inv_rewind (cap : Z) (b b' : outbuf) :
  buf_inv cap b -> buf_step cap b b' -> buf_inv cap (Outbuf (mem b') (buf b) (len b)).
Proof. unfold buf_step, buf_inv. simpl. lia. Qed.

Lemma outbuf_advance (cap : Z) (b b' : outbuf) :
  buf_inv cap b -> buf_step cap b b' ->
  Outbuf (mem b') (buf b + (buf b' - buf b)) (len b - (buf b' - buf b)) = b'.
Proof.
  unfold buf_step, buf_inv. intros H H'. destruct b'; simpl in *. f_equal; lia.
Qed.

Lemma include_set_ok (incs : list (option string)) (i : nat) (v : option string) :
  (i < length incs)%nat -> include_set incs i v = Done (<[i := v]> incs).
Proof.
  intros H. unfold include_set. now destruct (Nat.ltb_spec i (length incs)); [|lia].
Qed.

Lemma bind_done {A B : Type} (a : A) (k : A -> exec B) : Done a ≫= k = k a.
Proof. reflexivity. Qed.

Section Recursion.

Variable MAX : nat.
Variable find : string -> option ast_context.
Variable ignore : string -> string -> bool.
Variable strdup : list nat -> bool.
Variable cap : Z.


Section Includes.

Variable rec : generator.
Variable count : nat.
Hypothesis Hrec : gen_ok MAX find cap count rec.

Lemma include_post_skip (incs : list (option string)) (b : outbuf) (res : Z)
    (log : list diag) :
  length incs = MAX -> buf_inv cap b ->
  include_post MAX cap count incs b res (Done (false, b, res, count, incs, log)).
Proof.
  intros Hlen Hinv. exists false, b, res, incs, log.
  split; [reflexivity|]. split; [assumption|]. split; [reflexivity|].
  split; [now apply buf_step_refl|]. split; [discriminate|]. auto.
Qed.

Lemma include_body_inv (path : list nat) (idx : nat) (prefix context raw : string) (incs : list (option string))
    (b : outbuf) (res : Z) (log : list diag) :
  stack_ok count incs -> length incs = MAX -> buf_inv cap b ->
  include_post MAX cap count incs b res
    (include_body MAX strdup rec path idx prefix context raw count incs b res log).
Proof.
  intros Hok Hlen Hinv. unfold include_body.
  destruct (Nat.leb_spec MAX count) as [Hge|Hlt]; [now apply include_post_skip|].
  destruct (strdup (path ++ [idx])); cbn [negb]; [|now apply include_post_skip].
  destruct (parse_include raw) as [includename tmp2].
  destruct (Str.is_empty includename); [now apply include_post_skip|].
  rewrite dupe_scan_stack by assumption. cbn -[newprefix].
  destruct (existsb _ _); [now apply include_post_skip|].
  destruct (Hrec (path ++ [idx]) (Some (newprefix prefix tmp2)) includename incs b log Hok Hlen Hlt Hinv)
    as (r & s & E & Hc & Hl & Ht & Hr & Hi & Hs & _).
  rewrite E. cbn -[newprefix]. rewrite Hc.
  eexists _, _, _, _, _. split; [reflexivity|].
  split; [assumption|]. split; [assumption|].
  destruct Hr as [->|Hr].
  - simpl. split; [split; [assumption | simpl; lia]|].
    split; [auto|]. split; [discriminate|]. lia.
  - destruct (Hs Hr) as [Hs1 Hs2].
    destruct (Z.ltb_spec r 0) as [?|_]; [lia|].
    destruct (Z.ltb_spec 0 r) as [Hpos|Hzero].
    + split; [split; [assumption | simpl; lia]|].
      split; [discriminate|]. split; [auto|]. auto.
    + assert (r = 0) as -> by lia.
      rewrite Z.add_0_r, Z.sub_0_r in *.
      split; [split; [assumption | simpl; lia]|].
      split; [discriminate|]. split; [auto|]. auto.
Qed.

Lemma include_loop_inv (path : list nat) (idx : nat) (prefix context : string) (raws : list string)
    (incs : list (option string)) (b : outbuf) (res : Z) (log : list diag) :
  stack_ok count incs -> length incs = MAX -> buf_inv cap b ->
  exists b' res' incs' log',
    include_loop MAX strdup rec path idx prefix context raws count incs b res log =
      Done (b', res', count, incs', log') /\
    length incs' = MAX /\ take count incs' = take count incs /\
    buf_step cap b b' /\
    (res' = res \/ res' = -1 \/ 0 <= res') /\ (res < 0 -> res' = res) /\
    (0 <= res' -> clean b -> clean b').
Proof.
  revert idx incs b res log.
  induction raws as [|raw raws IH]; intros idx incs b res log Hok Hlen Hinv.
  - exists b, res, incs, log. split; [reflexivity|].
    split; [assumption|]. split; [reflexivity|]. split; [now apply buf_step_refl|]. auto.
  - cbn [include_loop]. destruct (Z.leb_spec 0 res) as [Hres|Hres]; cbn [negb].
    + destruct (include_body_inv path idx prefix context raw incs b res log Hok Hlen Hinv)
        as (broke & b1 & res1 & incs1 & log1 & E & Hl1 & Ht1 & Hs1 & Hb1 & Hn1 & Hc1).
      rewrite E. cbn. destruct broke.
      * exists b1, res1, incs1, log1. split; [reflexivity|].
        split; [assumption|]. split; [assumption|]. split; [assumption|].
        specialize (Hb1 eq_refl). split; [auto|]. split; [lia|]. auto.
      * destruct (IH (S idx) incs1 b1 res1 log1) as (b2 & res2 & incs2 & log2 & E2 & Hl2 & Ht2 & Hs2 & Hr2 & Hk2 & Hc2).
        { apply (stack_ok_take count incs); [assumption | congruence | assumption]. }
        { assumption. }
        { apply Hs1. }
        exists b2, res2, incs2, log2. split; [assumption|].
        split; [assumption|]. split; [congruence|].
        split; [eauto using buf_step_trans|].
        specialize (Hn1 eq_refl).
        split; [|split; [lia|]].
        -- destruct Hr2 as [->|[->|?]]; [|auto|auto]. destruct Hn1 as [->|?]; auto.
        -- intros H0 Hcl. apply Hc2; [assumption|]. apply Hc1; [|assumption].
           destruct (Z.lt_ge_cases res1 0) as [Hneg|?]; [|assumption].
           specialize (Hk2 Hneg). lia.
    + exists b, res, incs, log. split; [reflexivity|].
      split; [assumption|]. split; [reflexivity|]. split; [now apply buf_step_refl|]. auto.
Qed.

End Includes.

Lemma generate_digit_map_ok (fuel count : nat) :
  (MAX <= fuel + count)%nat ->
  gen_ok MAX find cap count (generate_digit_map MAX find ignore strdup fuel).
Proof.
  revert count. induction fuel as [|fuel IH]; intros count Hfuel;
    intros path prefix context incs b log Hok Hlen Hcount Hinv; [lia|].
  cbn [generate_digit_map].
  destruct (find context) as [c|] eqn:Hfind.
  - rewrite include_set_ok, bind_done by lia.
    set (prefix' := match prefix with Some p => p | None => EmptyString end).
    assert (Hok1 : stack_ok (S count) (<[count := Some context]> incs))
      by (apply stack_ok_push; [assumption | lia]).
    destruct (exten_loop_inv ignore cap prefix' (S count) _ (context_extensions c) b 0 log
                Hok1 Hinv) as (b2 & res2 & log2 & E2 & Hs2 & Hr2 & Hc2).
    rewrite E2, bind_done.
    set (log3 := if negb (res2 =? 0) && (len b2 <=? 0) then _ else _).
    destruct (include_loop_inv (generate_digit_map MAX find ignore strdup fuel) (S count)
                (IH (S count) ltac:(lia)) path 0%nat prefix' context (context_includes c)
                (<[count := Some context]> incs) b2 res2 log3 Hok1
                ltac:(now rewrite length_insert) (proj1 Hs2))
      as (b4 & res4 & incs4 & log4 & E4 & Hl4 & Ht4 & Hs4 & Hr4 & Hk4 & Hc4).
    rewrite E4, bind_done. cbn [Nat.pred].
    rewrite include_set_ok, bind_done by lia.
    assert (Hs : buf_step cap b b4) by eauto using buf_step_trans.
    eexists _, _. split; [reflexivity|]. cbn.
    split; [reflexivity|]. split; [now rewrite length_insert|].
    split.
    { rewrite take_insert_ge by lia. apply take_S_eq in Ht4. rewrite Ht4.
      now rewrite take_insert_ge by lia. }
    assert (Hres4 : res4 = -1 \/ 0 <= res4) by (destruct (Z.lt_ge_cases res2 0); lia).
    split.
    { destruct (Z.ltb_spec res4 0); [left; lia | right; destruct Hs; lia]. }
    split; [now apply (buf_inv_rewind cap b b4)|].
    split; [|split; [congruence | intros _; cbn; apply list_lookup_insert_eq; lia]].
    destruct (Z.ltb_spec res4 0) as [?|Hpos]; [lia|]. intros _.
    rewrite (outbuf_advance cap) by assumption.
    split; [apply Hs|]. intros Hcl. apply Hc4; [assumption|]. apply Hc2; [|assumption].
    destruct (Z.lt_ge_cases res2 0) as [Hneg|?]; [|assumption].
    specialize (Hk4 Hneg). lia.
  - eexists _, _. split; [reflexivity|]. cbn.
    split; [reflexivity|]. split; [assumption|]. split; [reflexivity|].
    split; [auto|]. split; [now destruct b|]. split; [lia|].
    split; [auto | congruence].
Qed.

End Recursion.


Section Widening.

Variable MAX : nat.
Variable find : string -> option ast_context.
Variable ignore : string -> string -> bool.
Variable strdup : list nat -> bool.
Variable cap : Z.


Section IncludesWiden.

Variable rec : generator.
Variable count : nat.
Hypothesis Hrec : gen_ok MAX find cap count rec.
Hypothesis Hwiden : gen_widen MAX cap count rec.

Lemma include_body_widen (d : Z) (path : list nat) (idx : nat) (prefix context raw : string)
    (incs incs' : list (option string)) (b b' : outbuf) (res res' : Z)
    (log log' : list diag) (broke : bool) (count' : nat) :
  0 <= d -> stack_ok count incs -> length incs = MAX -> buf_inv cap b ->
  include_body MAX strdup rec path idx prefix context raw count incs b res log =
    Done (broke, b', res', count', incs', log') ->
  0 <= res' ->
  include_body MAX strdup rec path idx prefix context raw count incs (widen d b) res log =
    Done (broke, widen d b', res', count', incs', log').
Proof.
  intros Hd Hok Hlen Hinv H Hres. unfold include_body in *.
  destruct (Nat.leb_spec MAX count) as [Hge|Hlt];
    [injection H as <- <- <- <- <- <-; reflexivity|].
  destruct (strdup (path ++ [idx])); cbn [negb] in *;
    [|injection H as <- <- <- <- <- <-; reflexivity].
  destruct (parse_include raw) as [includename tmp2].
  destruct (Str.is_empty includename);
    [injection H as <- <- <- <- <- <-; reflexivity|].
  rewrite dupe_scan_stack in * by assumption. rewrite bind_done in *.
  destruct (existsb _ _);
    [injection H as <- <- <- <- <- <-; reflexivity|].
  destruct (Hrec (path ++ [idx]) (Some (newprefix prefix tmp2)) includename incs b log Hok Hlen Hlt Hinv)
    as (r & s & E & _).
  rewrite E, bind_done in H. injection H as <- <- <- <- <- <-.
  rewrite (Hwiden _ _ _ _ _ _ _ _ d Hok Hlen Hlt Hinv Hd E Hres), bind_done.
  destruct (0 <? r); unfold widen; simpl; repeat f_equal; lia.
Qed.

Lemma include_loop_widen (d : Z) (path : list nat) (idx : nat) (prefix context : string) (raws : list string)
    (incs incs' : list (option string)) (b b' : outbuf) (res res' : Z)
    (log log' : list diag) (count' : nat) :
  0 <= d -> stack_ok count incs -> length incs = MAX -> buf_inv cap b ->
  include_loop MAX strdup rec path idx prefix context raws count incs b res log =
    Done (b', res', count', incs', log') ->
  0 <= res' ->
  include_loop MAX strdup rec path idx prefix context raws count incs (widen d b) res log =
    Done (widen d b', res', count', incs', log').
Proof.
  intros Hd. revert idx incs b res log.
  induction raws as [|raw raws IH]; intros idx incs b res log Hok Hlen Hinv H Hres.
  - simpl in *. injection H as <- <- <- <- <-. reflexivity.
  - cbn [include_loop] in *. destruct (Z.leb_spec 0 res) as [Hr|Hr]; cbn [negb] in *.
    + destruct (include_body_inv MAX find strdup cap rec count Hrec path idx prefix context raw incs b res
                  log Hok Hlen Hinv)
        as (broke & b1 & res1 & incs1 & log1 & E & Hl1 & Ht1 & Hs1 & Hb1 & Hn1 & Hc1).
      rewrite E, bind_done in H.
      assert (Hok1 : stack_ok count incs1)
        by (apply (stack_ok_take count incs); [assumption | congruence | assumption]).
      destruct broke.
      * injection H as <- <- <- <- <-. specialize (Hb1 eq_refl). lia.
      * destruct (include_loop_inv MAX find strdup cap rec count Hrec path (S idx) prefix context raws incs1 b1
                    res1 log1 Hok1 Hl1 (proj1 Hs1))
          as (b2 & res2 & incs2 & log2 & E2 & _ & _ & _ & _ & Hk2 & _).
        assert (Hres1 : 0 <= res1).
        { destruct (Z.lt_ge_cases res1 0) as [Hneg|?]; [|assumption].
          specialize (Hk2 Hneg). rewrite E2 in H. injection H as <- <- <- <- <-. lia. }
        rewrite (include_body_widen d _ _ _ _ _ _ _ _ _ _ _ _ _ _ _ Hd Hok Hlen Hinv E Hres1),
          bind_done.
        apply IH; [assumption | assumption | apply Hs1 | assumption | assumption].
    + injection H as <- <- <- <- <-. lia.
Qed.

End IncludesWiden.

Lemma generate_digit_map_widen (fuel count : nat) :
  (MAX <= fuel + count)%nat ->
  gen_widen MAX cap count (generate_digit_map MAX find ignore strdup fuel).
Proof.
  revert count. induction fuel as [|fuel IH]; intros count Hfuel;
    intros path prefix context incs b log r s d Hok Hlen Hcount Hinv Hd H Hr; [lia|].
  cbn [generate_digit_map] in *.
  destruct (find context) as [c|] eqn:Hfind; [|injection H as <- <-; lia].
  rewrite include_set_ok, bind_done in * by (simpl; lia).
  set (prefix' := match prefix with Some p => p | None => EmptyString end) in *.
  assert (Hok1 : stack_ok (S count) (<[count := Some context]> incs))
    by (apply stack_ok_push; [assumption | lia]).
  assert (Hlen1 : length (<[count := Some context]> incs) = MAX)
    by now rewrite length_insert.
  destruct (exten_loop_inv ignore cap prefix' (S count) _ (context_extensions c) b 0 log
              Hok1 Hinv) as (b2 & res2 & log2 & E2 & Hs2 & Hr2 & Hc2).
  rewrite E2, bind_done in H.
  pose proof (generate_digit_map_ok MAX find ignore strdup cap fuel (S count) ltac:(lia)) as Hgen.
  destruct (include_loop_inv MAX find strdup cap _ (S count) Hgen path 0%nat prefix' context
              (context_includes c) _ b2 res2
              (if negb (res2 =? 0) && (len b2 <=? 0) then log2 ++ [NoSpaceLeft] else log2)
              Hok1 Hlen1 (proj1 Hs2))
    as (b4 & res4 & incs4 & log4 & E4 & Hl4 & Ht4 & Hs4 & Hr4 & Hk4 & Hc4).
  rewrite E4, bind_done in H. cbn [Nat.pred] in H.
  rewrite include_set_ok, bind_done in H by lia.
  injection H as <- <-.
  assert (Hres4 : 0 <= res4) by (destruct (Z.ltb_spec res4 0); lia).
  assert (Hres2 : res2 = 0).
  { destruct Hr2 as [?|Hneg]; [assumption|].
    assert (res4 = res2) by (apply Hk4; lia). lia. }
  subst res2.
  rewrite (exten_loop_widen ignore cap d _ _ _ _ _ _ _ _ _ _ Hd Hok1 Hinv E2), bind_done
    by lia.
  cbn [Z.eqb negb andb] in *.
  rewrite (include_loop_widen _ (S count) Hgen (IH (S count) ltac:(lia)) d _ _ _ _ _ _ _ _ _
             _ _ _ _ _ Hd Hok1 Hlen1 (proj1 Hs2) E4 Hres4), bind_done.
  cbn [Nat.pred]. rewrite include_set_ok, bind_done by lia.
  reflexivity.
Qed.

End Widening.

(** ** The translator *)

Lemma translate_app (a b : string) : translate (a +:+ b) = translate a +:+ translate b.
Proof.
  induction a as [|c a IH]; [reflexivity|].
  rewrite str_app_cons. cbn [translate]. now rewrite IH, str_app_assoc.
Qed.

Lemma translate_length (name : string) : strlen (translate name) <= 5 * strlen name.
Proof.
  induction name as [|c name IH]; [unfold strlen; simpl; lia|].
  cbn [translate]. rewrite strlen_app.
  pose proof (translate_char_length c).
  assert (strlen (String c name) = 1 + strlen name) by (unfold strlen; simpl; lia).
  lia.
Qed.

Lemma translate_pattern_translate (name : string) : translate_pattern name = translate name.
Proof.
  unfold translate_pattern.
  pose proof (translate_length name) as Hl. pose proof (strlen_nonneg name) as Hn.
  rewrite (name_loop_fits (5 * strlen name + 1)).
  - rewrite with_marker_false. reflexivity.
  - unfold buf_inv; simpl. change (strlen EmptyString) with 0. lia.
  - reflexivity.
  - rewrite with_marker_false. simpl. lia.
Qed.

Lemma mem_char_app (c : ascii) (a b : string) :
  Str.mem_char c (a +:+ b) = Str.mem_char c a || Str.mem_char c b.
Proof.
  induction a as [|x a IH]; [reflexivity|].
  rewrite str_app_cons. simpl. now rewrite IH, orb_assoc.
Qed.

Lemma translate_char_no_N (c : ascii) : Str.mem_char "N" (translate_char c) = false.
Proof.
  unfold translate_char.
  destruct (Ascii.eqb c "N") eqn:EN; [reflexivity|].
  destruct (Ascii.eqb c "Z"); [reflexivity|].
  destruct (Ascii.eqb c "X"); [reflexivity|].
  destruct (Ascii.eqb c "!"); [reflexivity|].
  simpl. now rewrite EN.
Qed.

Lemma translate_char_no_Z (c : ascii) : Str.mem_char "Z" (translate_char c) = false.
Proof.
  unfold translate_char.
  destruct (Ascii.eqb c "N"); [reflexivity|].
  destruct (Ascii.eqb c "Z") eqn:EZ; [reflexivity|].
  destruct (Ascii.eqb c "X"); [reflexivity|].
  destruct (Ascii.eqb c "!"); [reflexivity|].
  simpl. now rewrite EZ.
Qed.

Lemma translate_no_N (name : string) : Str.mem_char "N" (translate name) = false.
Proof.
  induction name as [|c name IH]; [reflexivity|].
  cbn [translate]. now rewrite mem_char_app, translate_char_no_N, IH.
Qed.

Lemma translate_no_Z (name : string) : Str.mem_char "Z" (translate name) = false.
Proof.
  induction name as [|c name IH]; [reflexivity|].
  cbn [translate]. now rewrite mem_char_app, translate_char_no_Z, IH.
Qed.

Lemma translate_translate_char (c : ascii) : translate (translate_char c) = translate_char c.
Proof.
  unfold translate_char.
  destruct (Ascii.eqb c "N") eqn:EN; [reflexivity|].
  destruct (Ascii.eqb c "Z") eqn:EZ; [reflexivity|].
  destruct (Ascii.eqb c "X") eqn:EX; [reflexivity|].
  destruct (Ascii.eqb c "!") eqn:EB; [reflexivity|].
  cbn [translate]. unfold translate_char. now rewrite EN, EZ, EX, EB.
Qed.

Lemma translate_idempotent (name : string) : translate (translate name) = translate name.
Proof.
  induction name as [|c name IH]; [reflexivity|].
  cbn [translate]. now rewrite translate_app, translate_translate_char, IH.
Qed.

(** C8. The translator turns [N] into [[2-9]] and [Z] into [[1-9]]; its
    output for any pattern holds no [N] and no [Z], and the expansions are
    fixed under translation, so that translating the output of the translator
    again changes nothing. *)
Theorem translate_n_z_idempotent (name : string) :
  translate_pattern "N" = "[2-9]" /\
  translate_pattern "Z" = "[1-9]" /\
  Str.mem_char "N" (translate_pattern name) = false /\
  Str.mem_char "Z" (translate_pattern name) = false /\
  translate_pattern "[2-9]" = "[2-9]" /\
  translate_pattern "[1-9]" = "[1-9]" /\
  translate_pattern (translate_pattern name) = translate_pattern name.
Proof.
  rewrite !translate_pattern_translate.
  split; [reflexivity|]. split; [reflexivity|].
  split; [apply translate_no_N|]. split; [apply translate_no_Z|].
  split; [reflexivity|]. split; [reflexivity|].
  apply translate_idempotent.
Qed.

(** ** The root call *)

Section Root.

Variable MAX : nat.
Variable find : string -> option ast_context.
Variable ignore : string -> string -> bool.
Variable strdup : list nat -> bool.

Lemma stack_ok_empty (incs : list (option string)) : stack_ok 0 incs.
Proof. split; [lia | intros i Hi; lia]. Qed.

Lemma buf_inv_initial (size : Z) : 1 <= size -> buf_inv size (Outbuf EmptyString 0 size).
Proof. unfold buf_inv; simpl. change (strlen EmptyString) with 0. lia. Qed.

Lemma clean_length (b : outbuf) : 0 <= buf b -> clean b -> strlen (mem b) <= buf b.
Proof.
  unfold clean, committed. intros H0 H. rewrite H. unfold strlen.
  rewrite str_take_length. lia.
Qed.

Lemma root_call_ok (size : Z) (root : string) :
  (0 < MAX)%nat -> 1 <= size ->
  exists r s,
    root_call MAX find ignore strdup size root = Done (r, s) /\
    includecount s = 0%nat /\
    strlen (out s) < size /\
    (r = -1 \/ 0 <= r < size /\ strlen (out s) = r) /\
    (find root = None ->
     r = -1 /\ s = Shared 0 (replicate MAX None) EmptyString [NoSuchContext root]).
Proof.
  intros HM Hsize. unfold root_call.
  destruct (generate_digit_map_ok MAX find ignore strdup size (S MAX) 0 ltac:(lia)
              [] None root (replicate MAX None) (Outbuf EmptyString 0 size) []
              (stack_ok_empty _) (length_replicate _ _) HM (buf_inv_initial size Hsize))
    as (r & s & E & Hc & _ & _ & Hr & Hi & Hs & Hn & _).
  exists r, s. split; [assumption|]. split; [assumption|].
  split; [apply Hi|]. split; [|assumption].
  destruct Hr as [->|Hr]; [now left | right].
  destruct (Hs Hr) as [Hb Hcl]. specialize (Hcl eq_refl).
  apply clean_length in Hcl; [|simpl; lia].
  unfold buf_inv in Hb. simpl in *. lia.
Qed.

Lemma root_call_widen (size size' : Z) (root : string) (r : Z) (s : shared) :
  (0 < MAX)%nat -> 1 <= size <= size' ->
  root_call MAX find ignore strdup size root = Done (r, s) -> 0 <= r ->
  root_call MAX find ignore strdup size' root = Done (r, s).
Proof.
  intros HM Hsize H Hr. unfold root_call in *.
  pose proof (generate_digit_map_widen MAX find ignore strdup size (S MAX) 0 ltac:(lia)
                [] None root (replicate MAX None) (Outbuf EmptyString 0 size) [] r s
                (size' - size) (stack_ok_empty _) (length_replicate _ _) HM
                (buf_inv_initial size ltac:(lia)) ltac:(lia) H Hr) as Hw.
  unfold widen in Hw. simpl in Hw.
  replace (size + (size' - size)) with size' in Hw by lia. exact Hw.
Qed.

Lemma generate_digit_map_all_failed (root : string) (s : shared) :
  root_call MAX find ignore strdup BUF_SIZE root = Done (-1, s) ->
  generate_digit_map_all MAX find ignore strdup root = Done (CliResult (-1) EmptyString (warnings s)).
Proof. intros H. unfold generate_digit_map_all. now rewrite H. Qed.

End Root.

(** C3. The accumulator appends a fragment only when its length is below the
    room that is left, and otherwise fails without moving the cursor; the
    array of [BUF_SIZE] bytes never holds more than [BUF_SIZE] bytes, the
    terminating NUL included; and an input that would take [BUF_SIZE] bytes
    or more in a larger array makes [generate_digit_map_all] fail with -1 and
    print nothing. *)
Theorem output_never_exceeds_capacity (MAX : nat) (find : string -> option ast_context)
    (ignore : string -> string -> bool) (strdup : list nat -> bool) (root : string) :
  (0 < MAX)%nat ->
  (forall cap b s, buf_inv cap b ->
     match buf_append b s with
     | Appended b' =>
         strlen s < len b /\ b' = push b s /\ buf_inv cap b'
     | Exhausted b' =>
         len b <= strlen s /\ buf b' = buf b /\ len b' = len b /\
         committed b' = committed b /\ buf_inv cap b'
     end) /\
  (exists r s,
     root_call MAX find ignore strdup BUF_SIZE root = Done (r, s) /\
     strlen (out s) + 1 <= BUF_SIZE /\
     (r = -1 \/ 0 <= r < BUF_SIZE /\ strlen (out s) = r)) /\
  (forall size r s,
     BUF_SIZE <= size ->
     root_call MAX find ignore strdup size root = Done (r, s) -> BUF_SIZE <= r ->
     exists w,
       generate_digit_map_all MAX find ignore strdup root = Done (CliResult (-1) EmptyString w)).
Proof.
  intros HM. split; [|split].
  - intros cap b s Hinv. pose proof (buf_append_inv cap b s Hinv) as H.
    destruct (buf_append b s) as [b'|b'].
    + destruct H as (Hi & Hlt & Heq). split; [assumption | split; [exact Heq | assumption]].
    + destruct H as (Hi & Hge & Hb & Hl & Hc). auto.
  - destruct (root_call_ok MAX find ignore strdup BUF_SIZE root HM ltac:(unfold BUF_SIZE; lia))
      as (r & s & E & _ & Hl & Hr & _).
    exists r, s. split; [assumption|]. split; [lia | assumption].
  - intros size r' s' Hsize E' Hr'.
    destruct (root_call_ok MAX find ignore strdup BUF_SIZE root HM ltac:(unfold BUF_SIZE; lia))
      as (r & s & E & _ & _ & Hr & _).
    destruct Hr as [->|[Hr _]].
    + exists (warnings s). now apply generate_digit_map_all_failed.
    + pose proof (root_call_widen MAX find ignore strdup BUF_SIZE size root r s HM
                    ltac:(unfold BUF_SIZE in *; lia) E ltac:(lia)) as Hw.
      rewrite Hw in E'. injection E' as <- <-. lia.
Qed.

Lemma include_body_max_depth (MAX : nat) (strdup : list nat -> bool) (rec : generator)
    (path : list nat) (idx : nat) (prefix context raw : string)
    (count : nat) (incs : list (option string)) (b : outbuf) (res : Z) (log : list diag) :
  (MAX <= count)%nat ->
  include_body MAX strdup rec path idx prefix context raw count incs b res log =
    Done (false, b, res, count, incs, log ++ [MaxDepthExceeded]).
Proof.
  intros H. unfold include_body. now destruct (Nat.leb_spec MAX count); [|lia].
Qed.

Lemma include_set_out_of_bounds (incs : list (option string)) (i : nat) (v : option string) :
  (length incs <= i)%nat -> include_set incs i v = BadAccess.
Proof.
  intros H. unfold include_set. now destruct (Nat.ltb_spec i (length incs)); [lia|].
Qed.

(** C10. In a call made with the include stack in order and the counter
    below the maximum depth, no access to [includes[]] leaves the array or
    reads an entry without a name (such an access is [BadAccess], and a push
    with the counter at the maximum would be one); the call returns with the
    counter and the entries below it as they were, and with the slot of its
    own push cleared; a call whose context does not resolve changes neither
    the counter nor the array. The include loop recurses only below the
    maximum depth, and the duplicate check compares names with their case
    folded. *)
Theorem include_stack_invariant (MAX : nat) (find : string -> option ast_context)
    (ignore : string -> string -> bool) (strdup : list nat -> bool) (cap : Z)
    (fuel : nat)
    (path : list nat) (prefix : option string) (context : string) (count : nat)
    (incs : list (option string)) (b : outbuf) (log : list diag) :
  stack_ok count incs -> length incs = MAX -> (count < MAX)%nat ->
  (MAX <= fuel + count)%nat -> buf_inv cap b ->
  (exists r s,
     generate_digit_map MAX find ignore strdup fuel path prefix context count incs b log =
       Done (r, s) /\
     includecount s = count /\ (includecount s <= MAX)%nat /\
     length (includes s) = MAX /\
     take count (includes s) = take count incs /\
     (find context <> None -> includes s !! count = Some None) /\
     (find context = None -> r = -1 /\ includes s = incs)) /\
  (forall incs' i v, (length incs' <= i)%nat -> include_set incs' i v = BadAccess) /\
  (forall rec path' idx prefix' raw count' incs' b' res' log',
     (MAX <= count')%nat ->
     include_body MAX strdup rec path' idx prefix' context raw count' incs' b' res' log' =
       Done (false, b', res', count', incs', log' ++ [MaxDepthExceeded])) /\
  (forall name,
     dupe_scan incs name 0 count =
       Done (existsb (fun n => String.eqb (Str.lower n) (Str.lower name))
               (stack_names count incs))).
Proof.
  intros Hok Hlen Hcount Hfuel Hinv. split; [|split; [|split]].
  - destruct (generate_digit_map_ok MAX find ignore strdup cap fuel count Hfuel
                path prefix context incs b log Hok Hlen Hcount Hinv)
      as (r & s & E & Hc & Hl & Ht & _ & _ & _ & Hn & Hp).
    exists r, s. split; [assumption|]. split; [assumption|]. split; [lia|].
    split; [assumption|]. split; [assumption|]. split; [assumption|].
    intros Hnone. destruct (Hn Hnone) as [-> ->]. auto.
  - apply include_set_out_of_bounds.
  - intros. now apply include_body_max_depth.
  - intros name. now apply dupe_scan_stack.
Qed.

(** C2, as the code has it. [generate_digit_map_all] returns for every
    dialplan, without running out of recursion budget. An include whose
    target is on the include stack (names compared with their case folded)
    is skipped without a recursive call, whatever the recursive call would
    do, and leaves the buffer, the result and the stack as they are; the
    warning logged is the circular-include one, unless the stack is already
    at its maximum depth, which is tested first and logs the depth warning
    instead (or no memory is found for the copy of the include name, or the
    target name is empty, both of which come before the stack is
    searched). *)
Theorem circular_include_skipped (MAX : nat) (find : string -> option ast_context)
    (ignore : string -> string -> bool) (strdup : list nat -> bool) (root : string) :
  (0 < MAX)%nat ->
  (exists r, generate_digit_map_all MAX find ignore strdup root = Done r) /\
  (forall rec path idx prefix context raw count incs b res log,
     stack_ok count incs ->
     existsb (fun n => Str.caseeq n (fst (parse_include raw))) (stack_names count incs)
       = true ->
     include_body MAX strdup rec path idx prefix context raw count incs b res log =
       Done (false, b, res, count, incs,
             log ++ [if (MAX <=? count)%nat then MaxDepthExceeded
                     else if negb (strdup (path ++ [idx])) then StrdupFailed
                     else if Str.is_empty (fst (parse_include raw)) then EmptyInclude
                     else CircularInclude raw context])).
Proof.
  intros HM. split.
  - destruct (root_call_ok MAX find ignore strdup BUF_SIZE root HM ltac:(unfold BUF_SIZE; lia))
      as (r & s & E & _).
    unfold generate_digit_map_all. rewrite E, bind_done.
    destruct (r <=? 0); eauto.
  - intros rec path idx prefix context raw count incs b res log Hok Hdupe.
    unfold include_body. destruct (MAX <=? count)%nat; [reflexivity|].
    destruct (strdup (path ++ [idx])); cbn [negb]; [|reflexivity].
    destruct (parse_include raw) as [includename tmp2]. simpl in *.
    destruct (Str.is_empty includename); [reflexivity|].
    rewrite dupe_scan_stack by assumption. rewrite bind_done, Hdupe. reflexivity.
Qed.

(** ** Includes that do not resolve *)

Section Dangling.

Variable MAX : nat.
Variable find : string -> option ast_context.
Variable ignore : string -> string -> bool.
Variable strdup : list nat -> bool.
Variable cap : Z.




End Dangling.


(** ** A context without includes *)

Lemma join_cons (a : string) (l : list string) :
  join "|" (a :: l) = a +:+ Str.concat (map (fun s => "|" +:+ s) l).
Proof.
  revert a. induction l as [|a' l IH]; intros a.
  - simpl. now rewrite str_app_nil_r.
  - change (join "|" (a :: a' :: l)) with (a +:+ "|" +:+ join "|" (a' :: l)).
    rewrite IH. cbn [map Str.concat]. now rewrite !str_app_assoc.
Qed.

Lemma drop_separator (a : string) (l : list string) :
  Str.drop 1 (Str.concat (map (fun s => "|" +:+ s) (a :: l))) = join "|" (a :: l).
Proof. now rewrite join_cons. Qed.

Section SingleContext.

Variable MAX : nat.
Variable find : string -> option ast_context.
Variable ignore : string -> string -> bool.
Variable strdup : list nat -> bool.

Lemma extensions_text_map (names : list string) (prefix : string) (es : list ast_exten) :
  extensions_text ignore names prefix es =
    Str.concat (map (fun s => "|" +:+ s)
                  (map (alternative ignore names prefix) (List.filter eligible es))).
Proof. unfold extensions_text. now rewrite map_map. Qed.

Lemma single_context_run (size : Z) (root : string) (c : ast_context) :
  (0 < MAX)%nat -> 1 <= size ->
  find root = Some c -> context_includes c = [] ->
  strlen (extensions_text ignore [root] EmptyString (context_extensions c)) < size ->
  root_call MAX find ignore strdup size root =
    Done (strlen (extensions_text ignore [root] EmptyString (context_extensions c)),
          Shared 0 (<[0%nat := None]> (<[0%nat := Some root]> (replicate MAX None)))
            (extensions_text ignore [root] EmptyString (context_extensions c))
            (extensions_warnings (context_extensions c))).
Proof.
  intros HM Hsize Hc Hinc Hfit. unfold root_call. cbn [generate_digit_map].
  rewrite Hc, Hinc. rewrite include_set_ok, bind_done by (rewrite length_replicate; lia).
  assert (Hok1 : stack_ok 1 (<[0%nat := Some root]> (replicate MAX None)))
    by (apply stack_ok_push; [apply stack_ok_empty | rewrite length_replicate; lia]).
  assert (Hn : stack_names 1 (<[0%nat := Some root]> (replicate MAX None)) = [root]).
  { rewrite stack_names_push; [reflexivity | apply stack_ok_empty |].
    rewrite length_replicate; lia. }
  rewrite (exten_loop_fits ignore size), bind_done.
  - rewrite Hn. cbn [include_loop negb Z.eqb andb]. rewrite bind_done. cbn [Nat.pred].
    rewrite include_set_ok, bind_done
      by (rewrite length_insert, length_replicate; lia).
    cbn. rewrite Z.sub_0_r. reflexivity.
  - assumption.
  - now apply buf_inv_initial.
  - reflexivity.
  - rewrite Hn. exact Hfit.
Qed.

End SingleContext.

(** C4, as the code has it. For a context without includes whose alternatives
    fit the buffer, the digit map printed is the alternatives of the entries
    of priority 1 whose name as stored (the sentinel not stripped) is not
    one of [a], [i], [s], [t], in the order of the store, joined by ['|'] with
    no leading separator. An alternative is the translation of the
    sentinel-stripped name, with the marker [','] after its first translated
    character when an ignore pattern of the context matches its first
    character. Nothing is printed when no entry is left. *)
Theorem single_context_digit_map (MAX : nat) (find : string -> option ast_context)
    (ignore : string -> string -> bool) (strdup : list nat -> bool) (root : string)
    (c : ast_context) :
  (0 < MAX)%nat ->
  find root = Some c -> context_includes c = [] ->
  let entry e :=
    with_marker EmptyString
      (ignore root (Str.first (strip_sentinel (exten_name e))))
      (strip_sentinel (exten_name e)) in
  let kept :=
    List.filter (fun e => negb (is_special (exten_name e)) && (exten_priority e =? 1))
      (context_extensions c) in
  strlen (Str.concat (map (fun e => "|" +:+ entry e) kept)) < BUF_SIZE ->
  generate_digit_map_all MAX find ignore strdup root =
    Done (CliResult 0
            (match kept with
             | [] => EmptyString
             | _ => join "|" (map entry kept) +:+ newline
             end)
            (extensions_warnings (context_extensions c))).
Proof.
  intros HM Hc Hinc entry kept Hfit.
  assert (Htext : extensions_text ignore [root] EmptyString (context_extensions c) =
                  Str.concat (map (fun s => "|" +:+ s) (map entry kept))).
  { rewrite extensions_text_map. f_equal. f_equal.
    apply map_ext. intros e. unfold alternative, entry, ignore_active, first_digit.
    cbn. now rewrite orb_false_r. }
  unfold generate_digit_map_all.
  rewrite (single_context_run MAX find ignore strdup BUF_SIZE root c), bind_done;
    try assumption; [| unfold BUF_SIZE; lia | rewrite Htext, map_map; exact Hfit].
  rewrite Htext. destruct kept as [|e kept'] eqn:Hk.
  - reflexivity.
  - cbn [out warnings]. rewrite !(map_cons entry), drop_separator.
    destruct (Z.leb_spec (strlen (Str.concat (map (fun s => "|" +:+ s) (entry e :: map entry kept')))) 0)
      as [Hz|_]; [|reflexivity].
    exfalso. cbn [map Str.concat] in Hz. rewrite !strlen_app in Hz.
    change (strlen "|") with 1 in Hz.
    pose proof (strlen_nonneg (entry e)).
    pose proof (strlen_nonneg (Str.concat (map (fun s => "|" +:+ s) (map entry kept')))).
    lia.
Qed.

(** ** The marker for the second dial tone *)

Lemma with_marker_length (prefix : string) (ig : bool) (name : string) :
  strlen (with_marker prefix ig name) <= strlen (translate name) + 1.
Proof.
  destruct name as [|c name]; [simpl; lia|].
  unfold with_marker. cbn [translate].
  destruct ig, (Str.is_empty prefix); rewrite ?strlen_app;
    change (strlen ",") with 1; lia.
Qed.

Lemma with_marker_app (prefix : string) (ig : bool) (x y : string) :
  x <> EmptyString ->
  with_marker prefix ig (x +:+ y) = with_marker prefix ig x +:+ translate y.
Proof.
  destruct x as [|c x]; [congruence|]. intros _.
  rewrite str_app_cons, !with_marker_cons, translate_app, !str_app_assoc. reflexivity.
Qed.

(** C6, as the code has it. The first dialed digit of an entry is the first
    character of the prefix when there is a prefix, and of the
    sentinel-stripped name otherwise. When an ignore pattern of a context on
    the include stack matches it and the alternative fits the buffer, one
    [','] goes into the alternative: between the prefix and the translated
    name when there is a prefix, after the first translated character of the
    name otherwise. The marker is written inside the loop over the characters
    of the name: an entry whose stripped name is empty gets none. *)
Theorem second_dial_tone_marker (ignore : string -> string -> bool) (cap : Z)
    (prefix : string) (count : nat) (incs : list (option string)) (e : ast_exten)
    (b : outbuf) (res : Z) (log : list diag) :
  eligible e = true -> stack_ok count incs -> buf_inv cap b ->
  let name := strip_sentinel (exten_name e) in
  let digit := if Str.is_empty prefix then Str.first name else Str.first prefix in
  let matched := existsb (fun context => ignore context digit) (stack_names count incs) in
  1 + strlen prefix + strlen (translate name) + 1 < len b ->
  exists log',
    exten_body ignore prefix count incs e b res log =
      Done (false,
            push b ("|" +:+ prefix +:+
                    match name with
                    | EmptyString => EmptyString
                    | String c rest =>
                        if matched then
                          if Str.is_empty prefix
                          then translate_char c +:+ "," +:+ translate rest
                          else "," +:+ translate name
                        else translate name
                    end),
            res, log').
Proof.
  intros He Hok Hinv name digit matched Hfit.
  pose proof (with_marker_length prefix matched name) as Hl.
  assert (Hd : first_digit prefix e = digit)
    by (unfold first_digit, digit; now destruct (Str.is_empty prefix)).
  eexists. rewrite (exten_body_fits ignore cap) by
    (try assumption; unfold alternative, ignore_active; rewrite Hd, strlen_app;
     fold name matched; lia).
  unfold alternative, ignore_active. rewrite Hd. reflexivity.
Qed.

(** ** Bracket classes *)

Lemma literal_not (c x : ascii) :
  literal_char c = true -> Str.mem_char x "NZX![].-" = true -> Ascii.eqb c x = false.
Proof.
  intros Hc Hx. destruct (Ascii.eqb_spec c x) as [->|]; [|reflexivity].
  unfold literal_char in Hc. rewrite Hx in Hc. discriminate.
Qed.

Lemma digit_literal (c : ascii) : is_digit c = true -> literal_char c = true.
Proof.
  intros H. unfold literal_char. cbn [Str.mem_char].
  repeat match goal with
         | |- context [Ascii.eqb ?a c] =>
             destruct (Ascii.eqb_spec a c);
             [subst c; vm_compute in H; discriminate H|]
         end.
  reflexivity.
Qed.

Lemma step_vars_literal (ename : string) (d : ascii) (n r : Z) :
  literal_char d = true ->
  step_vars ename d (BracketVars 1 n r) = (BracketVars 1 (n + 1) r, []).
Proof.
  intros Hd. unfold step_vars, track_brackets.
  rewrite !(literal_not d) by (assumption || reflexivity). reflexivity.
Qed.

Lemma step_vars_dash (ename : string) (n r : Z) :
  step_vars ename "-" (BracketVars 1 n r) = (BracketVars 1 (n - 1) (r + 1), []).
Proof. reflexivity. Qed.

Lemma track_name_app (ename a b : string) (v : bracket_vars) :
  track_name ename (a +:+ b) v = track_name ename b (track_name ename a v).
Proof.
  revert v. induction a as [|c a IH]; intros v; [reflexivity|].
  rewrite str_app_cons. cbn [track_name]. apply IH.
Qed.

Lemma pattern_warnings_app (ename a b : string) (v : bracket_vars) :
  pattern_warnings ename (a +:+ b) v =
    pattern_warnings ename a v ++ pattern_warnings ename b (track_name ename a v).
Proof.
  revert v. induction a as [|c a IH]; intros v; [reflexivity|].
  rewrite str_app_cons, !pattern_warnings_cons. cbn [track_name].
  now rewrite IH, app_assoc.
Qed.

Lemma translate_literal (d : ascii) :
  literal_char d = true -> translate_char d = String d EmptyString.
Proof.
  intros Hd. unfold translate_char.
  rewrite !(literal_not d) by (assumption || reflexivity). reflexivity.
Qed.

Lemma item_track (ename : string) (i : class_item) (n r : Z) :
  item_literal i = true ->
  track_name ename (item_text i) (BracketVars 1 n r) =
    BracketVars 1 (n + 1) (r + if is_range i then 1 else 0) /\
  pattern_warnings ename (item_text i) (BracketVars 1 n r) = [] /\
  translate (item_text i) = item_text i.
Proof.
  destruct i as [d|lo hi]; simpl item_literal; intros Hd.
  - cbn [item_text track_name is_range translate].
    rewrite pattern_warnings_cons, step_vars_literal by assumption. cbn [fst snd].
    rewrite translate_literal by assumption.
    split; [f_equal; lia | split; reflexivity].
  - apply andb_true_iff in Hd as [Hlo Hhi].
    cbn [item_text track_name is_range translate].
    rewrite !pattern_warnings_cons.
    rewrite step_vars_literal by assumption. cbn [fst snd].
    rewrite step_vars_dash. cbn [fst snd].
    rewrite step_vars_literal by assumption. cbn [fst snd].
    rewrite (translate_literal lo), (translate_literal hi) by assumption.
    split; [f_equal; lia | split; reflexivity].
Qed.

Lemma class_track (ename : string) (items : list class_item) (n r : Z) :
  forallb item_literal items = true ->
  track_name ename (class_text items) (BracketVars 1 n r) =
    BracketVars 1 (n + Z.of_nat (length items))
      (r + Z.of_nat (length (List.filter is_range items))) /\
  pattern_warnings ename (class_text items) (BracketVars 1 n r) = [] /\
  translate (class_text items) = class_text items.
Proof.
  revert n r. induction items as [|i items IH]; intros n r Hd.
  - simpl. split; [f_equal; lia | split; reflexivity].
  - cbn [forallb] in Hd. apply andb_true_iff in Hd as [Hi Hd].
    unfold class_text. cbn [map Str.concat]. fold (class_text items).
    destruct (item_track ename i n r Hi) as (Ht & Hw & Htr).
    rewrite track_name_app, pattern_warnings_app, translate_app, Ht, Hw, Htr.
    destruct (IH (n + 1) (r + if is_range i then 1 else 0) Hd) as (Ht' & Hw' & Htr').
    rewrite Ht', Hw', Htr'. split; [|split; reflexivity].
    cbn [List.filter length]. destruct (is_range i); cbn [length]; f_equal; lia.
Qed.

Lemma step_vars_in_pattern (ename : string) (c : ascii) (v : bracket_vars) :
  0 <= in_pattern v <= 1 -> 0 <= in_pattern (fst (step_vars ename c v)) <= 1.
Proof.
  intros H. unfold step_vars, track_brackets.
  destruct (_ || _); [assumption|].
  destruct (Ascii.eqb c "["); [destruct (Z.ltb_spec 1 (in_pattern v + 1)); simpl; lia|].
  destruct (Ascii.eqb c "]");
    [destruct (Z.ltb_spec (in_pattern v - 1) 0); simpl; lia|].
  destruct (negb _); [|assumption].
  destruct (Ascii.eqb c "."); [assumption|].
  destruct (Ascii.eqb c "-"); simpl; lia.
Qed.

Lemma track_name_in_pattern (ename name : string) (v : bracket_vars) :
  0 <= in_pattern v <= 1 -> 0 <= in_pattern (track_name ename name v) <= 1.
Proof.
  revert v. induction name as [|c name IH]; intros v H; [assumption|].
  cbn [track_name]. now apply IH, step_vars_in_pattern.
Qed.

Lemma step_vars_open (ename : string) (v : bracket_vars) :
  0 <= in_pattern v <= 1 -> fst (step_vars ename "[" v) = BracketVars 1 0 0.
Proof.
  intros H. unfold step_vars, track_brackets. cbn [Ascii.eqb Bool.eqb orb].
  destruct (Z.ltb_spec 1 (in_pattern v + 1)); [reflexivity|].
  simpl. f_equal. lia.
Qed.

Lemma step_vars_close (ename : string) (n r : Z) :
  1 < n -> 0 < r ->
  In (CannotTranslate ename) (snd (step_vars ename "]" (BracketVars 1 n r))).
Proof.
  intros Hn Hr. unfold step_vars, track_brackets. cbn [Ascii.eqb Bool.eqb orb].
  cbn [in_pattern contains_range current_pattern_items].
  change (1 - 1 <? 0) with false. cbn iota.
  destruct (Z.eqb_spec r 0); [lia|]. destruct (Z.ltb_spec 1 n); [|lia].
  simpl. auto.
Qed.

Lemma mixed_class_counts (items : list class_item) :
  existsb is_range items = true ->
  existsb (fun i => negb (is_range i)) items = true ->
  (2 <= length items)%nat /\ (1 <= length (List.filter is_range items))%nat.
Proof.
  induction items as [|i items IH]; [discriminate|].
  cbn [existsb List.filter length]. destruct (is_range i); cbn [negb orb length].
  - intros _ Hs. split; [|lia]. destruct items; [discriminate | simpl; lia].
  - intros Hr _. split.
    + destruct items; [discriminate | simpl; lia].
    + destruct items as [|j items]; [discriminate|].
      clear IH. revert Hr. generalize (j :: items). intros l.
      induction l as [|k l IHl]; [discriminate|].
      cbn [existsb List.filter]. destruct (is_range k); cbn [orb length]; [lia | auto].
Qed.

Lemma mixed_class_warning (ename pre post : string) (items : list class_item) :
  forallb item_literal items = true ->
  existsb is_range items = true ->
  existsb (fun i => negb (is_range i)) items = true ->
  In (CannotTranslate ename)
    (pattern_warnings ename (pre +:+ "[" +:+ class_text items +:+ "]" +:+ post)
       (BracketVars 0 0 0)).
Proof.
  intros Hd Hr Hs.
  destruct (mixed_class_counts items Hr Hs) as [Hlen Hranges].
  rewrite !pattern_warnings_app. rewrite !in_app_iff. right. right. right. left.
  cbn [track_name].
  rewrite step_vars_open
    by (apply track_name_in_pattern; simpl; lia).
  destruct (class_track ename items 0 0 Hd) as (Ht & _ & _). rewrite Ht.
  rewrite pattern_warnings_cons. apply in_or_app. left.
  apply step_vars_close; lia.
Qed.



(** C5. Context [A] has the extension [_1XXX] at priority 1 and an include
    of [B] with the prefix [9]; [B] has the extension [_NXX] at priority 1;
    no ignore pattern of [A] or [B] matches the first dialed digits [1] and
    [9]. The digit map printed for [A] is [1xxx|9[2-9]xx]: the extensions of
    a context come before those of its includes. That is so when the name of
    the include can be copied; when [ast_strdup] finds no memory for it, the
    include is passed over with an error in the log and the digit map is
    [1xxx]. *)
Theorem scenario_a_includes_b (MAX : nat) (find : string -> option ast_context)
    (ignore : string -> string -> bool) (strdup : list nat -> bool) (include_b : string) :
  (2 <= MAX)%nat ->
  parse_include include_b = ("B", Some "9") ->
  find "A" = Some (Context [Exten "_1XXX" 1] [include_b]) ->
  find "B" = Some (Context [Exten "_NXX" 1] []) ->
  ignore "A" "1" = false -> ignore "A" "9" = false -> ignore "B" "9" = false ->
  generate_digit_map_all MAX find ignore strdup "A" =
    Done (if strdup [0%nat]
          then CliResult 0 ("1xxx|9[2-9]xx" +:+ newline) []
          else CliResult 0 ("1xxx" +:+ newline) [StrdupFailed]).
Proof.
  intros HM Hparse HA HB H1 H2 H3.
  destruct MAX as [|[|m]]; [lia | lia |].
  unfold generate_digit_map_all, root_call.
  cbn [generate_digit_map]. rewrite HA. cbn [replicate].
  cbn -[BUF_SIZE newprefix]. rewrite H1. cbn -[BUF_SIZE newprefix].
  destruct (strdup [0%nat]); cbn -[BUF_SIZE newprefix]; [|reflexivity].
  rewrite Hparse. cbn -[BUF_SIZE newprefix generate_digit_map].
  change (newprefix EmptyString (Some "9")) with "9".
  cbn [generate_digit_map]. rewrite HB.
  cbn -[BUF_SIZE]. rewrite H2, H3. cbn -[BUF_SIZE].
  reflexivity.
Qed.

(** ** The generator against the text of the context tree *)

Lemma buf_inv_widen (cap d : Z) (b : outbuf) :
  0 <= d -> buf_inv cap b -> buf_inv (cap + d) (widen d b).
Proof. unfold buf_inv, widen. simpl. lia. Qed.

Lemma clean_mem (b : outbuf) : clean b -> committed b = mem b.
Proof. unfold clean. congruence. Qed.

Lemma push_len (b : outbuf) (t : string) : len (push b t) = len b - strlen t.
Proof. reflexivity. Qed.

Section Agreement.

Variable MAX : nat.
Variable find : string -> option ast_context.
Variable ignore : string -> string -> bool.
Variable strdup : list nat -> bool.
Variable cap : Z.

Lemma exten_loop_agrees (prefix : string) (count : nat) (incs : list (option string))
    (es : list ast_exten) (b b' : outbuf) (res' : Z) (log log' : list diag) :
  stack_ok count incs -> buf_inv cap b -> clean b ->
  exten_loop ignore prefix count incs es b 0 log = Done (b', res', log') ->
  loop_agrees (Some (extensions_text ignore (stack_names count incs) prefix es)) b b' res'.
Proof.
  intros Hok Hinv Hclean H. unfold loop_agrees.
  set (text := extensions_text ignore (stack_names count incs) prefix es).
  pose proof (strlen_nonneg text) as Ht.
  pose proof Hinv as (_ & Hlen1 & _).
  destruct (Z.ltb_spec (strlen text) (len b)) as [Hfit|Hfull].
  - rewrite (exten_loop_fits ignore cap) in H by assumption.
    injection H as <- <- <-. split; [lia | reflexivity].
  - destruct (exten_loop_inv ignore cap prefix count incs es b 0 log Hok Hinv)
      as (b2 & res2 & log2 & E & Hs & Hr & _).
    rewrite E in H. injection H as <- <- <-.
    destruct Hr as [->|Hr]; [|assumption]. exfalso.
    pose proof (exten_loop_widen ignore cap (strlen text) prefix count incs es b b2 0 0
                  log log2 Ht Hok Hinv E ltac:(lia)) as Hw.
    rewrite (exten_loop_fits ignore (cap + strlen text)) in Hw;
      [| assumption | now apply buf_inv_widen | exact Hclean | simpl; fold text; lia].
    fold text in Hw.
    assert (Hb : len (push (widen (strlen text) b) text) = len (widen (strlen text) b2)).
    { apply (f_equal (fun o => match o with Done (x, _, _) => len x | _ => 0 end)) in Hw.
      exact Hw. }
    simpl in Hb. destruct Hs as [(_ & Hl & _) _]. lia.
Qed.

Lemma include_loop_full_stack (rec : generator) (path : list nat) (idx : nat)
    (prefix context : string)
    (raws : list string) (count : nat) (incs : list (option string)) (b : outbuf)
    (res : Z) (log : list diag) :
  (MAX <= count)%nat ->
  exists log',
    include_loop MAX strdup rec path idx prefix context raws count incs b res log =
      Done (b, res, count, incs, log').
Proof.
  intros Hfull. revert idx log. induction raws as [|raw raws IH]; intros idx log.
  - eexists. reflexivity.
  - cbn [include_loop]. destruct (negb (0 <=? res)); [eexists; reflexivity|].
    rewrite include_body_max_depth, bind_done by assumption. apply IH.
Qed.

Section Includes.

Variable rec : generator.
Variable rec' : list nat -> string -> string -> list string -> option string.
Variable count : nat.
Hypothesis Hcount : (count < MAX)%nat.
Hypothesis Hrec : gen_ok MAX find cap count rec.
Hypothesis Hag : gen_agrees MAX cap count rec rec'.

Lemma include_loop_agrees (path : list nat) (idx : nat) (prefix context : string)
    (raws : list string)
    (incs incs' : list (option string)) (b b' : outbuf) (res res' : Z)
    (log log' : list diag) (count' : nat) :
  stack_ok count incs -> length incs = MAX -> buf_inv cap b -> clean b -> 0 <= res ->
  include_loop MAX strdup rec path idx prefix context raws count incs b res log =
    Done (b', res', count', incs', log') ->
  loop_agrees (expand_includes strdup rec' path idx prefix (stack_names count incs) raws)
    b b' res'.
Proof.
  revert idx incs b res log.
  induction raws as [|raw raws IH]; intros idx incs b res log Hok Hlen Hinv Hclean Hres H.
  - simpl in H. injection H as <- <- <- <- <-. unfold loop_agrees. cbn [expand_includes].
    change (strlen EmptyString) with 0. destruct Hinv as (_ & Hl & _).
    destruct (Z.ltb_spec 0 (len b)); [|lia]. now rewrite push_nil.
  - cbn [include_loop] in H. destruct (Z.leb_spec 0 res) as [_|?]; [|lia].
    cbn [negb] in H. unfold include_body in H.
    destruct (Nat.leb_spec MAX count) as [?|_]; [lia|].
    cbn [expand_includes]. destruct (parse_include raw) as [includename tmp2].
    destruct (strdup (path ++ [idx])); cbn [negb] in *.
    2:{ rewrite bind_done in H. cbn [orb]. eapply IH; eassumption. }
    destruct (Str.is_empty includename).
    { rewrite bind_done in H. cbn [orb]. eapply IH; eassumption. }
    rewrite dupe_scan_stack, bind_done in H by assumption. cbn [orb].
    destruct (existsb _ (stack_names count incs)).
    { rewrite bind_done in H. eapply IH; eassumption. }
    destruct (Hrec (path ++ [idx]) (Some (newprefix prefix tmp2)) includename incs b log
                Hok Hlen Hcount Hinv)
      as (r & s & E & Hc & Hl & Ht & Hr & Hi & Hs & _).
    pose proof (Hag (path ++ [idx]) (Some (newprefix prefix tmp2)) includename incs b log
                  r s Hok Hlen
                  Hcount Hinv Hclean E) as Ha.
    cbn iota in Ha. rewrite E, bind_done in H.
    set (sub := rec' (path ++ [idx]) (newprefix prefix tmp2) includename
                  (stack_names count incs)) in *.
    unfold agrees in Ha. unfold loop_agrees.
    destruct Hr as [->|Hr].
    + (* the recursive call failed *)
      change (-1 <? 0) with true in H. cbn iota in H. injection H as <- <- <- <- <-.
      destruct sub as [t|]; [|reflexivity].
      destruct (Z.ltb_spec (strlen t) (len b)) as [?|Hfull];
        [pose proof (strlen_nonneg t); lia|].
      destruct (expand_includes strdup rec' path (S idx) prefix (stack_names count incs)
                  raws) as [t'|];
        [|reflexivity].
      rewrite strlen_app. pose proof (strlen_nonneg t').
      now destruct (Z.ltb_spec (strlen t + strlen t') (len b)); [lia|].
    + (* the recursive call succeeded *)
      destruct sub as [t|]; [|lia].
      destruct (Z.ltb_spec (strlen t) (len b)) as [Hfit|?]; [|lia].
      destruct Ha as [-> Hout].
      destruct (Z.ltb_spec (strlen t) 0) as [?|_]; [lia|]. cbn iota in H.
      assert (Hb : (if 0 <? strlen t
                    then Outbuf (out s) (buf b + strlen t) (len b - strlen t)
                    else Outbuf (out s) (buf b) (len b)) = push b t).
      { unfold push. rewrite Hout, (clean_mem b Hclean).
        destruct (Z.ltb_spec 0 (strlen t)); [reflexivity|]. f_equal; lia. }
      rewrite Hb, Hc in H.
      assert (Hinv1 : buf_inv cap (push b t)) by now apply push_inv.
      assert (Hok1 : stack_ok count (includes s))
        by (apply (stack_ok_take count incs); [assumption | congruence | assumption]).
      pose proof (IH (S idx) (includes s) (push b t) (strlen t) (warnings s) Hok1 Hl Hinv1
                    (push_clean cap b t Hinv) Hr H) as Hrest.
      rewrite (stack_names_take count incs (includes s)) in Hrest by assumption.
      unfold loop_agrees in Hrest.
      destruct (expand_includes strdup rec' path (S idx) prefix (stack_names count incs)
                  raws) as [t'|];
        [|assumption].
      rewrite push_len in Hrest. rewrite strlen_app.
      destruct (Z.ltb_spec (strlen t') (len b - strlen t));
        destruct (Z.ltb_spec (strlen t + strlen t') (len b)); try lia.
      destruct Hrest as [? ->]. split; [assumption|]. now apply (push_push cap).
Qed.

End Includes.

Lemma expand_eq (room : nat) (path : list nat) (prefix context : string)
    (names : list string) :
  expand find ignore strdup room path prefix context names =
    match find context with
    | None => None
    | Some c =>
        let own := extensions_text ignore (names ++ [context]) prefix (context_extensions c) in
        match room with
        | O => Some own
        | S room' =>
            match expand_includes strdup (expand find ignore strdup room') path 0 prefix
                    (names ++ [context]) (context_includes c) with
            | Some t => Some (own +:+ t)
            | None => None
            end
        end
    end.
Proof. destruct room; reflexivity. Qed.

Lemma generate_digit_map_agrees (fuel count : nat) :
  (MAX <= fuel + count)%nat ->
  gen_agrees MAX cap count (generate_digit_map MAX find ignore strdup fuel)
    (expand find ignore strdup (MAX - S count)).
Proof.
  revert count. induction fuel as [|fuel IH]; intros count Hfuel;
    intros path prefix context incs b log r s Hok Hlen Hcount Hinv Hclean H; [lia|].
  cbn [generate_digit_map] in H. rewrite expand_eq. unfold agrees.
  set (prefix' := match prefix with Some p => p | None => EmptyString end) in *.
  destruct (find context) as [c|] eqn:Hfind; [|now injection H as <- _].
  rewrite include_set_ok, bind_done in H by lia.
  assert (Hok1 : stack_ok (S count) (<[count := Some context]> incs))
    by (apply stack_ok_push; [assumption | lia]).
  assert (Hlen1 : length (<[count := Some context]> incs) = MAX)
    by now rewrite length_insert.
  assert (Hnames : stack_names (S count) (<[count := Some context]> incs) =
                   stack_names count incs ++ [context])
    by (apply stack_names_push; [assumption | lia]).
  destruct (exten_loop_inv ignore cap prefix' (S count) _ (context_extensions c) b 0 log
              Hok1 Hinv) as (b2 & res2 & log2 & E2 & Hs2 & Hr2 & Hc2).
  pose proof (exten_loop_agrees prefix' (S count) _ (context_extensions c) b b2 res2 log log2
                Hok1 Hinv Hclean E2) as Hown.
  rewrite Hnames in Hown. unfold loop_agrees in Hown.
  set (own := extensions_text ignore (stack_names count incs ++ [context]) prefix'
                (context_extensions c)) in *.
  cbn zeta. pose proof (strlen_nonneg own) as Hown0.
  rewrite E2, bind_done in H.
  pose proof (generate_digit_map_ok MAX find ignore strdup cap fuel (S count) ltac:(lia))
    as Hgen.
  destruct (include_loop_inv MAX find strdup cap _ (S count) Hgen path 0%nat prefix' context
              (context_includes c) _ b2 res2
              (if negb (res2 =? 0) && (len b2 <=? 0) then log2 ++ [NoSpaceLeft] else log2)
              Hok1 Hlen1 (proj1 Hs2))
    as (b4 & res4 & incs4 & log4 & E4 & Hl4 & Ht4 & Hs4 & Hr4 & Hk4 & Hc4).
  rewrite E4, bind_done in H. cbn [Nat.pred] in H.
  rewrite include_set_ok, bind_done in H by lia.
  injection H as <- <-. cbn [out].
  destruct (Z.ltb_spec (strlen own) (len b)) as [Hfit|Hfull].
  - (* the extensions of the context fit *)
    destruct Hown as [Hres2 ->].
    assert (res2 = 0) as -> by lia.
    destruct (Nat.leb_spec MAX (S count)) as [Hdeep|Hshallow].
    + replace (MAX - S count)%nat with 0%nat by lia.
      destruct (include_loop_full_stack (generate_digit_map MAX find ignore strdup fuel)
                  path 0%nat prefix' context (context_includes c) (S count) (<[count := Some context]> incs)
                  (push b own) 0 log2 Hdeep) as [log' E'].
      cbn [Z.eqb negb andb] in E4. rewrite E' in E4. injection E4 as <- <- _ _.
      destruct (Z.ltb_spec (strlen own) (len b)); [|lia].
      change (0 <? 0) with false. cbn iota. cbn [push buf mem].
      rewrite (clean_mem b Hclean). split; [lia | reflexivity].
    + destruct (MAX - S count)%nat as [|room'] eqn:Hroom; [lia|].
      pose proof (include_loop_agrees (generate_digit_map MAX find ignore strdup fuel)
                    (expand find ignore strdup room') (S count) Hshallow Hgen) as Hloop.
      replace room' with (MAX - S (S count))%nat in * by lia.
      specialize (Hloop (IH (S count) ltac:(lia)) path 0%nat prefix' context
                    (context_includes c)
                    _ incs4 (push b own) b4 0 res4 _ log4 (S count) Hok1 Hlen1
                    (proj1 Hs2) (push_clean cap b own Hinv) ltac:(lia) E4).
      rewrite Hnames in Hloop. unfold loop_agrees in Hloop.
      destruct (expand_includes _ _ _ _ prefix' (stack_names count incs ++ [context])
                  (context_includes c)) as [t|].
      * rewrite push_len in Hloop. rewrite strlen_app. pose proof (strlen_nonneg t).
        destruct (Z.ltb_spec (strlen t) (len b - strlen own));
          destruct (Z.ltb_spec (strlen own + strlen t) (len b)); try lia.
        -- destruct Hloop as [Hres4 ->].
           destruct (Z.ltb_spec res4 0); [lia|].
           rewrite (push_push cap) by assumption. cbn [push buf mem].
           rewrite (clean_mem b Hclean), strlen_app. split; [lia | reflexivity].
        -- subst res4. reflexivity.
      * subst res4. reflexivity.
  - (* they do not *)
    subst res2. assert (res4 = -1) as -> by (apply Hk4; lia).
    change (-1 <? 0) with true. cbn iota.
    destruct (MAX - S count)%nat as [|room'].
    + now destruct (Z.ltb_spec (strlen own) (len b)); [lia|].
    + destruct (expand_includes _ _ _ _ prefix' (stack_names count incs ++ [context])
                  (context_includes c)) as [t|]; [|reflexivity].
      rewrite strlen_app. pose proof (strlen_nonneg t).
      now destruct (Z.ltb_spec (strlen own + strlen t) (len b)); [lia|].
Qed.

End Agreement.

(** ** The warnings of a run *)

Lemma track_brackets_quiet (ename : string) (c : ascii) (v : bracket_vars) :
  no_space_warning_free (snd (track_brackets ename c v)).
Proof.
  unfold track_brackets, no_space_warning_free.
  repeat match goal with
         | |- context [if ?x then _ else _] => destruct x; simpl
         end;
    repeat constructor; discriminate.
Qed.

Lemma quiet_nil : no_space_warning_free [].
Proof. constructor. Qed.

Lemma quiet_app (l l' : list diag) :
  no_space_warning_free l -> no_space_warning_free l' -> no_space_warning_free (l ++ l').
Proof. unfold no_space_warning_free. intros. now apply Forall_app. Qed.

Lemma grown_refl (log : list diag) : grown log log.
Proof. exists []. split; [now rewrite app_nil_r | apply quiet_nil]. Qed.

Lemma grown_trans (l1 l2 l3 : list diag) : grown l1 l2 -> grown l2 l3 -> grown l1 l3.
Proof.
  intros (a & -> & Ha) (b & -> & Hb). exists (a ++ b).
  split; [now rewrite app_assoc | now apply quiet_app].
Qed.

Lemma grown_one (log : list diag) (d : diag) : d <> NoSpaceLeft -> grown log (log ++ [d]).
Proof. intros H. exists [d]. split; [reflexivity | now repeat constructor]. Qed.

Lemma name_step_log (ename prefix : string) (c : ascii) (ig : bool) (v : bracket_vars)
    (b : outbuf) (log : list diag) :
  match name_step ename prefix c ig v b log with
  | Next _ _ _ log' => grown log log'
  | Stop _ log' => grown log log'
  end.
Proof.
  assert (Hd : grown log (log ++ snd (track_brackets ename c v)))
    by (eexists; split; [reflexivity | apply track_brackets_quiet]).
  unfold name_step, then_append.
  destruct (negb (Str.is_empty prefix) && ig), (Str.is_empty prefix), ig; simpl;
    repeat match goal with
      | |- context [Ascii.eqb ?a ?x] => destruct (Ascii.eqb a x); simpl
      end;
    try destruct (track_brackets ename c v) as [v1 d1];
    repeat match goal with
      | |- context [buf_append ?b ?s] => destruct (buf_append b s)
      end;
    solve [apply grown_refl | exact Hd].
Qed.

Lemma name_loop_log (ename prefix name : string) (ig : bool) (v : bracket_vars)
    (b : outbuf) (log : list diag) :
  grown log (snd (name_loop ename prefix name ig v b log)).
Proof.
  revert ig v b log. induction name as [|c name IH]; intros ig v b log.
  - apply grown_refl.
  - cbn [name_loop]. pose proof (name_step_log ename prefix c ig v b log) as Hs.
    destruct (name_step ename prefix c ig v b log) as [ig1 v1 b1 log1|b1 log1].
    + eapply grown_trans; [exact Hs | apply IH].
    + exact Hs.
Qed.

Section Logs.

Variable MAX : nat.
Variable find : string -> option ast_context.
Variable ignore : string -> string -> bool.
Variable strdup : list nat -> bool.
Variable cap : Z.

Lemma exten_body_log (prefix : string) (count : nat) (incs : list (option string))
    (e : ast_exten) (b b' : outbuf) (res res' : Z) (log log' : list diag) (broke : bool) :
  exten_body ignore prefix count incs e b res log = Done (broke, b', res', log') ->
  grown log log'.
Proof.
  unfold exten_body. intros H.
  destruct (is_special (exten_name e)); [injection H as <- <- <- <-; apply grown_refl|].
  destruct (negb (exten_priority e =? 1));
    [injection H as <- <- <- <-; apply grown_refl|].
  destruct (ignorepat_scan _ _ _ _ _) as [ig| |]; try discriminate H.
  rewrite bind_done in H.
  destruct (buf_append b "|") as [b1|b1];
    [|injection H as <- <- <- <-; apply grown_refl].
  destruct (buf_append b1 prefix) as [b2|b2];
    [|injection H as <- <- <- <-; apply grown_refl].
  pose proof (name_loop_log (exten_name e) prefix (strip_sentinel (exten_name e)) ig
                (BracketVars 0 0 0) b2 log) as Hl.
  destruct (name_loop _ _ _ _ _ b2 log) as [[b3 br] log3].
  injection H as <- <- <- <-. exact Hl.
Qed.

Lemma exten_loop_log (prefix : string) (count : nat) (incs : list (option string))
    (es : list ast_exten) (b b' : outbuf) (res res' : Z) (log log' : list diag) :
  exten_loop ignore prefix count incs es b res log = Done (b', res', log') ->
  grown log log'.
Proof.
  revert b res log. induction es as [|e es IH]; intros b res log H.
  - simpl in H. injection H as <- <- <-. apply grown_refl.
  - cbn [exten_loop] in H.
    destruct (exten_body ignore prefix count incs e b res log)
      as [[[[broke b1] res1] log1]| |] eqn:E; try discriminate H.
    rewrite bind_done in H. apply exten_body_log in E.
    destruct broke.
    + injection H as <- <- <-. exact E.
    + eapply grown_trans; [exact E | eapply IH; exact H].
Qed.

Section Includes.

Variable rec : generator.
Variable count : nat.
Hypothesis Hrec : gen_ok MAX find cap count rec.
Hypothesis Hlogs : gen_logs MAX cap count rec.

Lemma include_body_log (path : list nat) (idx : nat) (prefix context raw : string)
    (incs incs' : list (option string))
    (b b' : outbuf) (res res' : Z) (log log' : list diag) (broke : bool) (count' : nat) :
  stack_ok count incs -> length incs = MAX -> buf_inv cap b ->
  include_body MAX strdup rec path idx prefix context raw count incs b res log =
    Done (broke, b', res', count', incs', log') ->
  grown log log'.
Proof.
  intros Hok Hlen Hinv H. unfold include_body in H.
  destruct (Nat.leb_spec MAX count) as [?|Hlt];
    [injection H as <- <- <- <- <- <-; now apply grown_one|].
  destruct (strdup (path ++ [idx])); cbn [negb] in H;
    [|injection H as <- <- <- <- <- <-; now apply grown_one].
  destruct (parse_include raw) as [includename tmp2].
  destruct (Str.is_empty includename);
    [injection H as <- <- <- <- <- <-; now apply grown_one|].
  rewrite dupe_scan_stack, bind_done in H by assumption.
  destruct (existsb _ _);
    [injection H as <- <- <- <- <- <-; now apply grown_one|].
  destruct (rec (path ++ [idx]) (Some (newprefix prefix tmp2)) includename count incs b log)
    as [[r s]| |] eqn:E; try discriminate H.
  rewrite bind_done in H. injection H as <- <- <- <- <- <-.
  exact (Hlogs _ _ _ _ _ _ _ _ Hok Hlen Hlt Hinv E).
Qed.

Lemma include_loop_log (path : list nat) (idx : nat) (prefix context : string)
    (raws : list string)
    (incs incs' : list (option string)) (b b' : outbuf) (res res' : Z)
    (log log' : list diag) (count' : nat) :
  stack_ok count incs -> length incs = MAX -> buf_inv cap b ->
  include_loop MAX strdup rec path idx prefix context raws count incs b res log =
    Done (b', res', count', incs', log') ->
  grown log log'.
Proof.
  revert idx incs b res log.
  induction raws as [|raw raws IH]; intros idx incs b res log Hok Hlen Hinv H.
  - simpl in H. injection H as <- <- <- <- <-. apply grown_refl.
  - cbn [include_loop] in H.
    destruct (negb (0 <=? res)); [injection H as <- <- <- <- <-; apply grown_refl|].
    destruct (include_body_inv MAX find strdup cap rec count Hrec path idx prefix context
                raw incs b res log Hok Hlen Hinv)
      as (broke & b1 & res1 & incs1 & log1 & E & Hl1 & Ht1 & Hs1 & _).
    rewrite E, bind_done in H.
    pose proof (include_body_log _ _ _ _ _ _ _ _ _ _ _ _ _ _ _ Hok Hlen Hinv E) as Hg.
    destruct broke.
    + injection H as <- <- <- <- <-. exact Hg.
    + eapply grown_trans; [exact Hg|].
      eapply (IH (S idx) incs1 b1 res1 log1);
        [apply (stack_ok_take count incs); [assumption | congruence | assumption]
        | assumption | apply Hs1 | exact H].
Qed.

End Includes.

Lemma generate_digit_map_logs (fuel count : nat) :
  (MAX <= fuel + count)%nat ->
  gen_logs MAX cap count (generate_digit_map MAX find ignore strdup fuel).
Proof.
  revert count. induction fuel as [|fuel IH]; intros count Hfuel;
    intros path prefix context incs b log r s Hok Hlen Hcount Hinv H; [lia|].
  cbn [generate_digit_map] in H.
  destruct (find context) as [c|];
    [|injection H as <- <-; now apply grown_one].
  rewrite include_set_ok, bind_done in H by lia.
  set (prefix' := match prefix with Some p => p | None => EmptyString end) in *.
  assert (Hok1 : stack_ok (S count) (<[count := Some context]> incs))
    by (apply stack_ok_push; [assumption | lia]).
  assert (Hlen1 : length (<[count := Some context]> incs) = MAX)
    by now rewrite length_insert.
  destruct (exten_loop_inv ignore cap prefix' (S count) _ (context_extensions c) b 0 log
              Hok1 Hinv) as (b2 & res2 & log2 & E2 & Hs2 & _).
  rewrite E2, bind_done in H. apply exten_loop_log in E2.
  assert (Hroom : (len b2 <=? 0) = false)
    by (destruct Hs2 as [(_ & ? & _) _]; destruct (Z.leb_spec (len b2) 0); [lia | reflexivity]).
  rewrite Hroom, andb_false_r in H.
  pose proof (generate_digit_map_ok MAX find ignore strdup cap fuel (S count) ltac:(lia)) as Hgen.
  destruct (include_loop_inv MAX find strdup cap _ (S count) Hgen path 0%nat prefix' context
              (context_includes c) _ b2 res2 log2 Hok1 Hlen1 (proj1 Hs2))
    as (b4 & res4 & incs4 & log4 & E4 & Hl4 & _).
  rewrite E4, bind_done in H. cbn [Nat.pred] in H.
  rewrite include_set_ok, bind_done in H by lia.
  injection H as <- <-. cbn [warnings].
  eapply grown_trans; [exact E2|].
  exact (include_loop_log _ (S count) Hgen (IH (S count) ltac:(lia)) _ _ _ _ _ _ _ _ _ _ _ _
           _ _ Hok1 Hlen1 (proj1 Hs2) E4).
Qed.

End Logs.

(** X2. Whatever the dialplan, the warning that no space is left in the
    buffer is never logged, not even by a run that fails because the buffer
    is exhausted: an append fails as soon as the fragment would take the
    last byte, so the room left never drops to zero, which is what the
    warning is tied to. *)
Theorem no_space_warning_never_logged (MAX : nat) (find : string -> option ast_context)
    (ignore : string -> string -> bool) (strdup : list nat -> bool) (root : string) :
  (0 < MAX)%nat ->
  exists r,
    generate_digit_map_all MAX find ignore strdup root = Done r /\
    (In NoSpaceLeft (cli_warnings r) -> False).
Proof.
  intros HM.
  destruct (root_call_ok MAX find ignore strdup BUF_SIZE root HM ltac:(unfold BUF_SIZE; lia))
    as (r & s & E & _).
  pose proof E as E'. unfold root_call in E'.
  destruct (generate_digit_map_logs MAX find ignore strdup BUF_SIZE (S MAX) 0 ltac:(lia)
              [] None root (replicate MAX None) (Outbuf EmptyString 0 BUF_SIZE) [] r s
              (stack_ok_empty _) (length_replicate _ _) HM
              (buf_inv_initial BUF_SIZE ltac:(unfold BUF_SIZE; lia)) E')
    as (l & Hl & Hq).
  assert (Hw : In NoSpaceLeft (warnings s) -> False).
  { rewrite Hl. simpl. intros Hin. unfold no_space_warning_free in Hq.
    rewrite Forall_forall in Hq. exact (Hq _ (proj2 (list_elem_of_In _ _) Hin) eq_refl). }
  unfold generate_digit_map_all. rewrite E, bind_done.
  destruct (r <=? 0); eexists; split; try reflexivity; exact Hw.
Qed.

Lemma strlen_zero (t : string) : strlen t = 0 -> t = EmptyString.
Proof. destruct t; [reflexivity | unfold strlen; simpl; lia]. Qed.

Lemma generate_digit_map_all_expansion (MAX : nat) (find : string -> option ast_context)
    (ignore : string -> string -> bool) (strdup : list nat -> bool) (root : string) :
  (0 < MAX)%nat ->
  exists w,
    generate_digit_map_all MAX find ignore strdup root =
      Done (match expand find ignore strdup (MAX - 1) [] EmptyString root [] with
            | Some t =>
                if strlen t <? BUF_SIZE
                then CliResult 0
                       (if Str.is_empty t then EmptyString else Str.drop 1 t +:+ newline) w
                else CliResult (-1) EmptyString w
            | None => CliResult (-1) EmptyString w
            end).
Proof.
  intros HM.
  destruct (root_call_ok MAX find ignore strdup BUF_SIZE root HM ltac:(unfold BUF_SIZE; lia))
    as (r & s & E & _).
  pose proof E as E'. unfold root_call in E'.
  pose proof (generate_digit_map_agrees MAX find ignore strdup BUF_SIZE (S MAX) 0 ltac:(lia)
                [] None root (replicate MAX None) (Outbuf EmptyString 0 BUF_SIZE) [] r s
                (stack_ok_empty _) (length_replicate _ _) HM
                (buf_inv_initial BUF_SIZE ltac:(unfold BUF_SIZE; lia)) eq_refl E') as Ha.
  unfold agrees in Ha. cbn [len mem] in Ha. change (stack_names 0 _) with (@nil string) in Ha.
  exists (warnings s). unfold generate_digit_map_all. rewrite E, bind_done.
  destruct (expand find ignore strdup (MAX - 1) [] EmptyString root []) as [t|].
  - destruct (strlen t <? BUF_SIZE).
    + destruct Ha as [-> ->]. rewrite str_app_nil_l.
      destruct (Z.leb_spec (strlen t) 0) as [Hz|Hpos].
      * pose proof (strlen_nonneg t). assert (Ht : strlen t = 0) by lia.
        rewrite (strlen_zero t Ht). reflexivity.
      * destruct t; [unfold strlen in Hpos; simpl in Hpos; lia | reflexivity].
    + subst r. reflexivity.
  - subst r. reflexivity.
Qed.

(** X1. What [generate_digit_map_all] prints is the text of the context tree
    without its first byte, the leading separator: the alternatives of the
    root's own extensions, then, for each include that is followed, in order,
    the same for the included context under the prefix handed down. An
    include is followed when the copy of its name can be allocated, the name
    is not empty and not on the include stack, and the stack is not full.
    That is so whenever every context that is reached resolves and the text
    is shorter than the buffer; nothing is printed for an empty text; in
    every other case the call fails with -1 and prints nothing. *)
Theorem digit_map_is_expansion (MAX : nat) (find : string -> option ast_context)
    (ignore : string -> string -> bool) (strdup : list nat -> bool) (root : string) :
  (0 < MAX)%nat ->
  exists w,
    generate_digit_map_all MAX find ignore strdup root =
      Done (match expand find ignore strdup (MAX - 1) [] EmptyString root [] with
            | Some t =>
                if strlen t <? BUF_SIZE
                then CliResult 0
                       (if Str.is_empty t then EmptyString else Str.drop 1 t +:+ newline) w
                else CliResult (-1) EmptyString w
            | None => CliResult (-1) EmptyString w
            end).
Proof. exact (generate_digit_map_all_expansion MAX find ignore strdup root). Qed.

(** X3. Given four words, the CLI command runs the generator for the fourth
    one and leaves the entry alone. It reports success exactly when every
    context reached (through the includes whose names can be allocated)
    resolves and the text of the tree is shorter than the buffer, also when
    that text is empty and nothing is printed; in every other case it
    reports failure and prints nothing. It never asks for the usage text
    then. *)
Theorem handler_reports_generation (MAX : nat) (find : string -> option ast_context)
    (ignore : string -> string -> bool) (strdup : list nat -> bool)
    (null_context_run : exec cli_result)
    (e : ast_cli_entry) (argv : list string) (context : string) :
  (0 < MAX)%nat -> length argv = 4%nat -> argv !! 3%nat = Some context ->
  exists r,
    handle_dialplan_generate_digitmap MAX find ignore strdup null_context_run e CLI_HANDLER argv
      = Done r /\
    handler_entry r = e /\
    match expand find ignore strdup (MAX - 1) [] EmptyString context [] with
    | Some t =>
        if strlen t <? BUF_SIZE
        then handler_status r = CLI_SUCCESS /\
             handler_text r =
               (if Str.is_empty t then EmptyString else Str.drop 1 t +:+ newline)
        else handler_status r = CLI_FAILURE /\ handler_text r = EmptyString
    | None => handler_status r = CLI_FAILURE /\ handler_text r = EmptyString
    end.
Proof.
  intros HM Hargc Harg.
  destruct (generate_digit_map_all_expansion MAX find ignore strdup context HM) as [w E].
  unfold handle_dialplan_generate_digitmap. rewrite Hargc, Harg. cbn [Nat.ltb Nat.leb Nat.eqb].
  rewrite E, bind_done.
  destruct (expand find ignore strdup (MAX - 1) [] EmptyString context []) as [t|].
  - destruct (strlen t <? BUF_SIZE); eexists; (split; [reflexivity|]); auto.
  - eexists. split; [reflexivity|]. auto.
Qed.

(** ** Include entries *)

Lemma split_at_none (c : ascii) (s : string) :
  Str.mem_char c s = false -> Str.split_at c s = None.
Proof.
  induction s as [|a s IH]; [reflexivity|]. simpl.
  destruct (Ascii.eqb a c); [discriminate|]. simpl. intros H. now rewrite IH.
Qed.

Lemma split_at_app (c : ascii) (a b : string) :
  Str.mem_char c a = false -> Str.split_at c (a +:+ String c b) = Some (a, b).
Proof.
  induction a as [|x a IH].
  - intros _. rewrite str_app_nil_l. simpl. now rewrite Ascii.eqb_refl.
  - rewrite str_app_cons. simpl. destruct (Ascii.eqb x c); [discriminate|].
    simpl. intros H. now rewrite IH.
Qed.

Lemma split_at_some (c : ascii) (s l r : string) :
  Str.split_at c s = Some (l, r) -> s = l +:+ String c r /\ Str.mem_char c l = false.
Proof.
  revert l. induction s as [|a s IH]; intros l; [discriminate|]. simpl.
  destruct (Ascii.eqb_spec a c) as [->|Hne].
  - intros H. injection H as <- <-. split; reflexivity.
  - destruct (Str.split_at c s) as [[l' r']|]; [|discriminate].
    intros H. injection H as <- <-. destruct (IH l' eq_refl) as [-> Hm].
    split; [reflexivity|]. simpl. rewrite Hm.
    destruct (Ascii.eqb_spec a c); [contradiction | reflexivity].
Qed.

Lemma mem_char_app_false (c : ascii) (a b : string) :
  Str.mem_char c (a +:+ b) = false -> Str.mem_char c a = false.
Proof. rewrite mem_char_app. now intros [H _]%orb_false_iff. Qed.


(** X4. How include entries are read. A bare context name is taken whole,
    with the empty dial prefix. After a first ['|'] the text up to the next
    ['|'] is passed over, and all that follows that second ['|'] is the dial
    prefix; with a single ['|'] there is no second field to take and the
    prefix is the NULL pointer. Options after a [','] are cut off the
    context name. *)
Theorem parse_include_fields (name skipped dial options : string) :
  Str.mem_char "|" name = false -> Str.mem_char "," name = false ->
  Str.mem_char "|" skipped = false -> Str.mem_char "|" options = false ->
  parse_include name = (name, Some EmptyString) /\
  parse_include (name +:+ "|" +:+ skipped +:+ "|" +:+ dial) = (name, Some dial) /\
  parse_include (name +:+ "|" +:+ skipped) = (name, None) /\
  parse_include (name +:+ "," +:+ options) = (name, Some EmptyString) /\
  parse_include (name +:+ "," +:+ options +:+ "|" +:+ skipped +:+ "|" +:+ dial) =
    (name, Some dial).
Proof.
  intros Hbar Hcomma Hskip Hopt. unfold parse_include.
  rewrite !str_app_cons, !str_app_nil_l.
  repeat split.
  - now rewrite (split_at_none "|"), (split_at_none ",").
  - rewrite (split_at_app "|" name) by assumption.
    rewrite (split_at_app "|" skipped) by assumption.
    now rewrite (split_at_none ",").
  - rewrite (split_at_app "|" name) by assumption.
    rewrite (split_at_none "|" skipped) by assumption.
    now rewrite (split_at_none ",").
  - rewrite (split_at_none "|")
      by (rewrite mem_char_app; simpl; now rewrite Hbar, Hopt).
    now rewrite (split_at_app "," name).
  - replace (name +:+ String "," (options +:+ String "|" (skipped +:+ String "|" dial)))
      with ((name +:+ String "," options) +:+ String "|" (skipped +:+ String "|" dial))
      by (now rewrite str_app_assoc).
    rewrite (split_at_app "|")
      by (rewrite mem_char_app; simpl; now rewrite Hbar, Hopt).
    rewrite (split_at_app "|" skipped) by assumption.
    now rewrite (split_at_app "," name).
Qed.

(** X5. Whatever the include entry, the context name read from it holds
    neither ['|'] nor [','] and is the beginning of the entry. *)
Theorem parse_include_name (raw : string) :
  Str.mem_char "|" (fst (parse_include raw)) = false /\
  Str.mem_char "," (fst (parse_include raw)) = false /\
  exists rest, raw = fst (parse_include raw) +:+ rest.
Proof.
  unfold parse_include.
  assert (Hcut : forall s : string,
            Str.mem_char "|" s = false ->
            let n := match Str.split_at "," s with Some (n, _) => n | None => s end in
            Str.mem_char "|" n = false /\ Str.mem_char "," n = false /\
            exists rest, s = n +:+ rest).
  { intros s Hs. cbn zeta. destruct (Str.split_at "," s) as [[n r]|] eqn:E.
    - destruct (split_at_some _ _ _ _ E) as [-> Hn].
      split; [now apply mem_char_app_false in Hs|]. split; [assumption|]. eauto.
    - split; [assumption|]. split.
      + clear Hs. induction s as [|a s IH]; [reflexivity|]. simpl in *.
        destruct (Ascii.eqb a ","); [discriminate|].
        destruct (Str.split_at "," s) as [[? ?]|]; [discriminate|]. now apply IH.
      + exists EmptyString. now rewrite str_app_nil_r. }
  destruct (Str.split_at "|" raw) as [[name tmp]|] eqn:E.
  - destruct (split_at_some _ _ _ _ E) as [-> Hn]. cbn [fst].
    destruct (Hcut name Hn) as (H1 & H2 & rest & Hr).
    split; [assumption|]. split; [assumption|].
    exists (rest +:+ String "|" tmp). rewrite <- str_app_assoc. now rewrite <- Hr.
  - cbn [fst]. apply Hcut. clear Hcut.
    induction raw as [|a s IH]; [reflexivity|]. simpl in *.
    destruct (Ascii.eqb a "|"); [discriminate|].
    destruct (Str.split_at "|" s) as [[? ?]|]; [discriminate|]. now apply IH.
Qed.

(** ** Prefixes down a chain of includes *)

Lemma str_take_app_take (n : nat) (a b : string) :
  Str.take n (Str.take n a +:+ b) = Str.take n (a +:+ b).
Proof.
  revert n. induction a as [|c a IH]; intros [|n]; try reflexivity.
  simpl Str.take at 2. rewrite !str_app_cons. simpl. now rewrite IH.
Qed.

(** X6. Cutting the prefix at every level is the same as cutting once: the
    prefix a context receives through a chain of includes is the first 31
    bytes of the prefixes of those includes joined from the root down. *)
Theorem prefix_down_a_chain (subs : list (option string)) :
  fold_left newprefix subs EmptyString = Str.take 31 (Str.concat (map printf_s subs)).
Proof.
  assert (H : forall p : string,
            fold_left newprefix subs (Str.take 31 p) =
            Str.take 31 (p +:+ Str.concat (map printf_s subs))).
  { induction subs as [|t subs IH]; intros p.
    - simpl. now rewrite str_app_nil_r.
    - cbn [fold_left map Str.concat]. unfold newprefix at 2.
      rewrite str_take_app_take, IH, str_app_assoc. reflexivity. }
  exact (H EmptyString).
Qed.

(** ** The entries of a context in the text and in the log of a run *)




Section Own.

Variable MAX : nat.
Variable find : string -> option ast_context.
Variable ignore : string -> string -> bool.
Variable strdup : list nat -> bool.
Variable cap : Z.


End Own.


(** ** The warning of a bracket class *)








(** ** The prefix handed to an included context *)


(** ** The claims on sample dialplans *)



(** Against C2 as stated: with 128 contexts in the chain the include of the
    first context, which is on the stack, is met when the stack is full: the
    depth warning is logged and no circular-include warning. *)
Lemma full_stack_hides_circular_include :
  generate_digit_map_all 128 (dialplan (chain_plan 128)) no_ignorepat strdup_succeeds "c" =
    Done (CliResult 0 ("100" +:+ newline) [MaxDepthExceeded]).
Proof. vm_compute. reflexivity. Qed.

Example short_chain_circular_include :
  generate_digit_map_all 128 (dialplan (chain_plan 3)) no_ignorepat strdup_succeeds "c" =
    Done (CliResult 0 ("100" +:+ newline) [CircularInclude "c" "xxc"]).
Proof. vm_compute. reflexivity. Qed.

Lemma circular_include_skipped_witness :
  (0 < 128)%nat /\
  exists r, generate_digit_map_all 128 (dialplan (chain_plan 3)) no_ignorepat strdup_succeeds "c" = Done r.
Proof.
  split; [lia|].
  exact (proj1 (circular_include_skipped 128 (dialplan (chain_plan 3)) no_ignorepat strdup_succeeds "c"
                  ltac:(lia))).
Defined.

(** C3 on the crowded context, which takes 3600 bytes in an array of
    10000. *)
Lemma output_never_exceeds_capacity_witness :
  (0 < 128)%nat /\
  exists w,
    generate_digit_map_all 128 (dialplan crowded_plan) no_ignorepat strdup_succeeds "A" =
      Done (CliResult (-1) EmptyString w).
Proof.
  split; [lia|].
  eapply (proj2 (proj2 (output_never_exceeds_capacity 128 (dialplan crowded_plan)
                          no_ignorepat strdup_succeeds "A" ltac:(lia))) 10000).
  - vm_compute. discriminate.
  - vm_compute. reflexivity.
  - vm_compute. discriminate.
Defined.

(** Against C4 as stated: the pattern [_s] is printed, although its name
    without the sentinel is the reserved name [s]. *)
Lemma reserved_name_behind_sentinel :
  generate_digit_map_all 128 (dialplan letter_plan) no_ignorepat strdup_succeeds "A" =
    Done (CliResult 0 ("s|1xxx" +:+ newline) []) /\
  spec_digit_map [Exten "_s" 1; Exten "_1XXX" 1] = "1xxx".
Proof. split; vm_compute; reflexivity. Qed.

Lemma single_context_digit_map_witness :
  generate_digit_map_all 128 (dialplan mixed_class_plan) no_ignorepat strdup_succeeds "A" =
    Done (CliResult 0 ("1xxx|2[03-9]" +:+ newline) [CannotTranslate "_2[03-9]"]).
Proof.
  exact (single_context_digit_map 128 (dialplan mixed_class_plan) no_ignorepat strdup_succeeds "A"
           (Context [Exten "_1XXX" 1; Exten "s" 1; Exten "_2[03-9]" 1; Exten "h" 2] [])
           ltac:(lia) eq_refl eq_refl eq_refl).
Defined.

Lemma scenario_a_includes_b_witness :
  generate_digit_map_all 128 (dialplan scenario_plan) no_ignorepat strdup_succeeds "A" =
    Done (CliResult 0 ("1xxx|9[2-9]xx" +:+ newline) []).
Proof.
  exact (scenario_a_includes_b 128 (dialplan scenario_plan) no_ignorepat strdup_succeeds "B||9"
           ltac:(lia) eq_refl eq_refl eq_refl eq_refl eq_refl eq_refl).
Defined.

(** Against C6 as stated: [9] is ignored and [B] is included with the
    prefix [9], but the entry [_] of [B] gets no marker: its alternative is
    the prefix alone. *)
Lemma bare_sentinel_gets_no_marker :
  ignorepat_digit "9" "A" "9" = true /\
  generate_digit_map_all 128 (dialplan bare_sentinel_plan) (ignorepat_digit "9") strdup_succeeds "A" =
    Done (CliResult 0 ("9" +:+ newline) []).
Proof. split; vm_compute; reflexivity. Qed.

Lemma second_dial_tone_marker_witness :
  exists log',
    exten_body (ignorepat_digit "9") "9" 1 (<[0%nat := Some "B"]> (replicate 128 None))
      (Exten "_NXX" 1) (Outbuf EmptyString 0 BUF_SIZE) 0 [] =
    Done (false, push (Outbuf EmptyString 0 BUF_SIZE) "|9,[2-9]xx", 0, log').
Proof.
  exact (second_dial_tone_marker (ignorepat_digit "9") BUF_SIZE "9" 1
           (<[0%nat := Some "B"]> (replicate 128 None)) (Exten "_NXX" 1)
           (Outbuf EmptyString 0 BUF_SIZE) 0 [] eq_refl
           (stack_ok_push 0 (replicate 128 None) "B" (stack_ok_empty _) ltac:(simpl; lia))
           (buf_inv_initial BUF_SIZE ltac:(unfold BUF_SIZE; lia)) eq_refl).
Defined.



(** The warning is logged for a class with a rewritten letter as well. *)
Example rewritten_letter_class_warned :
  generate_digit_map_all 128 (dialplan [("A", Context [Exten "_2[X03-9]" 1] [])])
    no_ignorepat strdup_succeeds "A" =
    Done (CliResult 0 ("2[x03-9]" +:+ newline) [CannotTranslate "_2[X03-9]"]).
Proof. vm_compute. reflexivity. Qed.

Example mixed_class_digit_map :
  generate_digit_map_all 128 (dialplan mixed_class_plan) no_ignorepat strdup_succeeds "A" =
    Done (CliResult 0 ("1xxx|2[03-9]" +:+ newline) [CannotTranslate "_2[03-9]"]).
Proof. vm_compute. reflexivity. Qed.


(** The prefixes [0123456789012345678901234567] and [99999] make 33 bytes;
    the alternatives of [B] start with the first 31 of them. *)
Example long_prefix_digit_map :
  generate_digit_map_all 128
    (dialplan [("R", Context [] ["A||0123456789012345678901234567"]);
               ("A", Context [] ["B||99999"]);
               ("B", Context [Exten "_NXX" 1] [])])
    no_ignorepat strdup_succeeds "R" =
    Done (CliResult 0 ("0123456789012345678901234567999[2-9]xx" +:+ newline) []).
Proof. vm_compute. reflexivity. Qed.

(** Own extensions first, then the includes in their order, each with its
    own extensions before its includes. *)
Example nested_include_order :
  generate_digit_map_all 128
    (dialplan [("R", Context [Exten "1" 1] ["A||2"; "D||5"]);
               ("A", Context [Exten "3" 1] ["B||4"]);
               ("B", Context [Exten "55" 1] []);
               ("D", Context [Exten "6" 1] [])])
    no_ignorepat strdup_succeeds "R" =
    Done (CliResult 0 ("1|23|2455|56" +:+ newline) []).
Proof. vm_compute. reflexivity. Qed.

Lemma include_stack_invariant_witness :
  exists r s,
    generate_digit_map 128 (dialplan scenario_plan) no_ignorepat strdup_succeeds 129 [] None "A" 0%nat
      (replicate 128 None) (Outbuf EmptyString 0 BUF_SIZE) [] = Done (r, s) /\
    includecount s = 0%nat /\ length (includes s) = 128%nat.
Proof.
  destruct (include_stack_invariant 128 (dialplan scenario_plan) no_ignorepat strdup_succeeds BUF_SIZE 129
              [] None "A" 0%nat (replicate 128 None) (Outbuf EmptyString 0 BUF_SIZE) []
              (stack_ok_empty _) eq_refl ltac:(lia) ltac:(lia)
              (buf_inv_initial BUF_SIZE ltac:(unfold BUF_SIZE; lia)))
    as [(r & s & E & Hc & _ & Hl & _) _].
  exists r, s. auto.
Defined.

Example case_folded_names : Str.caseeq "Local-Extensions" "LOCAL-extensions" = true.
Proof. reflexivity. Qed.

(** When [ast_strdup] finds no memory for the name of the first include of
    [A], the include of the missing context [C] is passed over and the
    include of [B] is followed. *)
Example failed_copy_passes_over_include :
  generate_digit_map_all 128 (dialplan dangling_plan) no_ignorepat
    (strdup_fails_at [0%nat]) "A" =
    Done (CliResult 0 ("1xxx|9[2-9]xx" +:+ newline) [StrdupFailed]).
Proof. vm_compute. reflexivity. Qed.

Example long_prefix_chain :
  generate_digit_map_all 128 (dialplan long_prefix_plan) no_ignorepat strdup_succeeds "A" =
    Done (CliResult 0
            ("123456789012345678900|12345678901234567890abcdefghijk[2-9]xx" +:+ newline) []).
Proof. vm_compute. reflexivity. Qed.

(** ** More on the translator *)

Lemma translate_char_plain (c : ascii) :
  rewritten_char c = false -> translate_char c = String c EmptyString.
Proof.
  unfold rewritten_char, translate_char.
  destruct (Ascii.eqb c "N"), (Ascii.eqb c "Z"), (Ascii.eqb c "X"), (Ascii.eqb c "!");
    try discriminate; reflexivity.
Qed.

Lemma translate_char_rewritten (c : ascii) :
  has_rewritten (translate_char c) = false.
Proof.
  unfold translate_char.
  destruct (Ascii.eqb c "N") eqn:EN; [reflexivity|].
  destruct (Ascii.eqb c "Z") eqn:EZ; [reflexivity|].
  destruct (Ascii.eqb c "X") eqn:EX; [reflexivity|].
  destruct (Ascii.eqb c "!") eqn:EB; [reflexivity|].
  simpl. unfold rewritten_char. now rewrite EN, EZ, EX, EB.
Qed.

Lemma has_rewritten_app (a b : string) :
  has_rewritten (a +:+ b) = has_rewritten a || has_rewritten b.
Proof.
  induction a as [|c a IH]; [reflexivity|].
  rewrite str_app_cons. simpl. now rewrite IH, orb_assoc.
Qed.

Lemma translate_has_rewritten (name : string) : has_rewritten (translate name) = false.
Proof.
  induction name as [|c name IH]; [reflexivity|].
  cbn [translate]. now rewrite has_rewritten_app, translate_char_rewritten, IH.
Qed.

Lemma translate_plain (name : string) : has_rewritten name = false -> translate name = name.
Proof.
  induction name as [|c name IH]; [reflexivity|]. simpl.
  intros [Hc Hn]%orb_false_iff. now rewrite translate_char_plain, IH.
Qed.

Lemma translate_lower_bound (name : string) : strlen name <= strlen (translate name).
Proof.
  induction name as [|c name IH]; [reflexivity|].
  cbn [translate]. rewrite strlen_app. pose proof (translate_char_length c).
  assert (strlen (String c name) = 1 + strlen name) by (unfold strlen; simpl; lia). lia.
Qed.

(** X7. The translator leaves a name as it is exactly when the name holds
    none of [N], [Z], [X] and [!]; its output never holds one of the four,
    and it is at least as long as the name and at most five times as long. *)
Theorem translate_pattern_fixed_points (name : string) :
  (translate_pattern name = name <-> has_rewritten name = false) /\
  has_rewritten (translate_pattern name) = false /\
  strlen name <= strlen (translate_pattern name) <= 5 * strlen name.
Proof.
  rewrite translate_pattern_translate. split; [split|split].
  - intros H. rewrite <- H. apply translate_has_rewritten.
  - apply translate_plain.
  - apply translate_has_rewritten.
  - split; [apply translate_lower_bound | apply translate_length].
Qed.

(** X8. Room for the separator, the prefix, five bytes for each character of
    the name and the marker is enough for an entry: the entry is then
    appended whole, the cursor moves by no more than that and by no less than
    the separator, the prefix and the length of the name, and neither the
    result nor the course of the extension loop changes. *)
Theorem entry_room_suffices (ignore : string -> string -> bool) (cap : Z)
    (prefix : string) (count : nat) (incs : list (option string)) (e : ast_exten)
    (b : outbuf) (res : Z) (log : list diag) :
  eligible e = true -> stack_ok count incs -> buf_inv cap b ->
  2 + strlen prefix + 5 * strlen (strip_sentinel (exten_name e)) < len b ->
  exists b' log',
    exten_body ignore prefix count incs e b res log = Done (false, b', res, log') /\
    clean b' /\ buf b' + len b' = buf b + len b /\
    buf b + 1 + strlen prefix + strlen (strip_sentinel (exten_name e)) <= buf b' /\
    buf b' <= buf b + 2 + strlen prefix + 5 * strlen (strip_sentinel (exten_name e)).
Proof.
  intros He Hok Hinv Hroom.
  set (name := strip_sentinel (exten_name e)) in *.
  set (m := with_marker prefix
              (ignore_active ignore (stack_names count incs) (first_digit prefix e)) name).
  pose proof (with_marker_length prefix
                (ignore_active ignore (stack_names count incs) (first_digit prefix e)) name)
    as Hm. fold m in Hm.
  pose proof (translate_length name) as Hup.
  assert (Hlow : strlen (translate name) <= strlen m).
  { unfold m, with_marker. destruct name as [|c rest]; [reflexivity|].
    cbn [translate]. destruct (ignore_active _ _ _), (Str.is_empty prefix);
      rewrite ?strlen_app; change (strlen ",") with 1; lia. }
  pose proof (translate_lower_bound name) as Hlo.
  assert (Hfit : 1 + strlen (alternative ignore (stack_names count incs) prefix e) < len b)
    by (unfold alternative; rewrite strlen_app; fold name m; lia).
  eexists _, _. rewrite (exten_body_fits ignore cap) by assumption.
  split; [reflexivity|]. split; [now apply (push_clean cap)|].
  unfold push, alternative. cbn [buf len]. fold name m.
  rewrite !strlen_app. change (strlen "|") with 1. lia.
Qed.

(** ** Names that log nothing *)

Lemma name_step_shape (ename prefix : string) (c : ascii) (ig : bool) (v : bracket_vars)
    (b : outbuf) (log : list diag) :
  match name_step ename prefix c ig v b log with
  | Next _ v' _ log' =>
      v' = fst (step_vars ename c v) /\ log' = log ++ snd (step_vars ename c v)
  | Stop _ log' => log' = log \/ log' = log ++ snd (step_vars ename c v)
  end.
Proof.
  unfold name_step, then_append, step_vars.
  destruct (negb (Str.is_empty prefix) && ig), (Str.is_empty prefix), ig; simpl;
    repeat match goal with
      | |- context [Ascii.eqb ?a ?x] => destruct (Ascii.eqb a x); simpl
      end;
    try destruct (track_brackets ename c v) as [v1 d1];
    repeat match goal with
      | |- context [buf_append ?b ?s] => destruct (buf_append b s)
      end;
    simpl; rewrite ?app_nil_r; auto.
Qed.

Lemma name_loop_warnings (ename prefix name : string) (ig : bool) (v : bracket_vars)
    (b : outbuf) (log : list diag) :
  exists l l',
    pattern_warnings ename name v = l ++ l' /\
    snd (name_loop ename prefix name ig v b log) = log ++ l.
Proof.
  revert ig v b log. induction name as [|c name IH]; intros ig v b log.
  - exists [], []. split; [reflexivity | simpl; now rewrite app_nil_r].
  - rewrite pattern_warnings_cons. cbn [name_loop].
    pose proof (name_step_shape ename prefix c ig v b log) as Hs.
    destruct (name_step ename prefix c ig v b log) as [ig1 v1 b1 log1|b1 log1].
    + destruct Hs as [-> ->].
      destruct (IH ig1 (fst (step_vars ename c v)) b1 (log ++ snd (step_vars ename c v)))
        as (l & l' & Hp & Hl).
      exists (snd (step_vars ename c v) ++ l), l'. rewrite Hp, Hl.
      split; now rewrite app_assoc.
    + destruct Hs as [->| ->].
      * exists [], (snd (step_vars ename c v) ++
                    pattern_warnings ename name (fst (step_vars ename c v))).
        split; [reflexivity | simpl; now rewrite app_nil_r].
      * exists (snd (step_vars ename c v)),
               (pattern_warnings ename name (fst (step_vars ename c v))).
        split; reflexivity.
Qed.

Lemma step_vars_outside (ename : string) (c : ascii) (v : bracket_vars) :
  in_pattern v = 0 -> Ascii.eqb c "[" = false -> Ascii.eqb c "]" = false ->
  step_vars ename c v = (v, []).
Proof.
  intros Hv Ho Hc. unfold step_vars, track_brackets. rewrite Ho, Hc, Hv.
  now destruct (_ || _).
Qed.

Lemma plain_silent (ename s : string) (v : bracket_vars) :
  in_pattern v = 0 -> Str.mem_char "[" s = false -> Str.mem_char "]" s = false ->
  pattern_warnings ename s v = [] /\ track_name ename s v = v.
Proof.
  intros Hv. induction s as [|c s IH]; [now split|]. simpl Str.mem_char.
  intros [Ho Hs1]%orb_false_iff [Hc Hs2]%orb_false_iff.
  rewrite Ascii.eqb_sym in Ho. rewrite Ascii.eqb_sym in Hc.
  rewrite pattern_warnings_cons. cbn [track_name].
  rewrite step_vars_outside by assumption. now apply IH.
Qed.

Lemma class_silent (ename : string) (items : list class_item) (v : bracket_vars) :
  in_pattern v = 0 -> segment_ok (Class items) = true ->
  pattern_warnings ename (segment_text (Class items)) v = [] /\
  in_pattern (track_name ename (segment_text (Class items)) v) = 0.
Proof.
  intros Hv Hok. cbn [segment_ok] in Hok. apply andb_true_iff in Hok as [Hlit Hshape].
  cbn [segment_text]. rewrite !pattern_warnings_app, !track_name_app.
  destruct (class_track ename items 0 0 Hlit) as (Ht & Hw & _).
  assert (Hopen : step_vars ename "[" v = (BracketVars 1 0 0, [])).
  { unfold step_vars, track_brackets. cbn [Ascii.eqb Bool.eqb orb]. now rewrite Hv. }
  assert (Ho1 : track_name ename "[" v = BracketVars 1 0 0)
    by (cbn [track_name]; now rewrite Hopen).
  assert (Ho2 : pattern_warnings ename "[" v = [])
    by (rewrite pattern_warnings_cons, Hopen; reflexivity).
  rewrite Ho1, Ho2, Ht, Hw. cbn [app].
  rewrite pattern_warnings_cons. cbn [track_name pattern_warnings].
  unfold step_vars, track_brackets. cbn [Ascii.eqb Bool.eqb orb].
  cbn [in_pattern contains_range current_pattern_items].
  change (1 - 1 <? 0) with false. cbn iota.
  assert (Hquiet : negb (0 + Z.of_nat (length (List.filter is_range items)) =? 0) &&
                   (1 <? 0 + Z.of_nat (length items)) = false).
  { apply orb_true_iff in Hshape as [Hnone|Hone].
    - assert (List.filter is_range items = []) as ->; [|reflexivity].
      clear -Hnone. induction items as [|i items IH]; [reflexivity|].
      cbn [forallb] in Hnone. apply andb_true_iff in Hnone as [Hi Hr].
      cbn [List.filter]. destruct (is_range i); [discriminate | now apply IH].
    - apply Nat.leb_le in Hone. apply andb_false_iff. right.
      destruct (Z.ltb_spec 1 (0 + Z.of_nat (length items))); [lia | reflexivity]. }
  rewrite Hquiet. split; reflexivity.
Qed.

Lemma segments_silent (ename : string) (segs : list segment) (v : bracket_vars) :
  in_pattern v = 0 -> forallb segment_ok segs = true ->
  pattern_warnings ename (Str.concat (map segment_text segs)) v = [].
Proof.
  revert v. induction segs as [|g segs IH]; intros v Hv Hok; [reflexivity|].
  cbn [forallb] in Hok. apply andb_true_iff in Hok as [Hg Hrest].
  cbn [map Str.concat]. rewrite pattern_warnings_app.
  destruct g as [s|items].
  - cbn [segment_ok] in Hg. apply andb_true_iff in Hg as [H1 H2].
    apply negb_true_iff in H1. apply negb_true_iff in H2. cbn [segment_text].
    destruct (plain_silent ename s v Hv H1 H2) as [-> ->]. now apply IH.
  - destruct (class_silent ename items v Hv Hg) as [-> Hin]. now apply IH.
Qed.

(** X9. A name made of text without brackets and of bracket classes that
    hold literal characters and either no range or a single item (such as
    [_[2-9]XX], [_1[358]X.] or [911]) never logs a warning, whether it fits
    the buffer or not. *)
Theorem well_formed_name_is_silent (ignore : string -> string -> bool) (cap : Z)
    (prefix : string) (count : nat) (incs : list (option string)) (e : ast_exten)
    (b : outbuf) (res : Z) (log : list diag) (segs : list segment) :
  stack_ok count incs -> buf_inv cap b ->
  strip_sentinel (exten_name e) = Str.concat (map segment_text segs) ->
  forallb segment_ok segs = true ->
  exists broke b' res',
    exten_body ignore prefix count incs e b res log = Done (broke, b', res', log).
Proof.
  intros Hok Hinv Hname Hsegs.
  destruct (exten_body_inv ignore cap prefix count incs e b res log Hok Hinv)
    as (broke & b' & res' & log' & E & _).
  exists broke, b', res'. rewrite E. do 2 f_equal.
  destruct (eligible e) eqn:He.
  - rewrite exten_body_unfold in E by assumption.
    destruct (buf_append b "|") as [b1|b1]; [|now injection E as _ _ _ <-].
    destruct (buf_append b1 prefix) as [b2|b2]; [|now injection E as _ _ _ <-].
    destruct (name_loop_warnings (exten_name e) prefix (strip_sentinel (exten_name e))
                (ignore_active ignore (stack_names count incs) (first_digit prefix e))
                (BracketVars 0 0 0) b2 log) as (l & l' & Hp & Hl).
    rewrite Hname, segments_silent in Hp by (assumption || reflexivity).
    symmetry in Hp. apply app_eq_nil in Hp as [-> _]. rewrite app_nil_r in Hl.
    destruct (name_loop _ _ _ _ _ b2 log) as [[b3 br] log3]. simpl in Hl.
    injection E as _ _ _ <-. exact Hl.
  - rewrite exten_body_skip in E by assumption. now injection E as _ _ _ <-.
Qed.

(** ** Misplaced brackets *)

Lemma step_vars_keeps_depth (ename : string) (c : ascii) (v : bracket_vars) :
  Ascii.eqb c "[" = false -> Ascii.eqb c "]" = false ->
  in_pattern (fst (step_vars ename c v)) = in_pattern v.
Proof.
  intros Ho Hc. unfold step_vars, track_brackets. rewrite Ho, Hc.
  destruct (_ || _); [reflexivity|].
  destruct (negb _); [|reflexivity].
  destruct (Ascii.eqb c "."); [reflexivity|].
  now destruct (Ascii.eqb c "-").
Qed.

Lemma track_name_keeps_depth (ename s : string) (v : bracket_vars) :
  Str.mem_char "[" s = false -> Str.mem_char "]" s = false ->
  in_pattern (track_name ename s v) = in_pattern v.
Proof.
  revert v. induction s as [|c s IH]; intros v; [reflexivity|]. simpl Str.mem_char.
  intros [Ho Hs1]%orb_false_iff [Hc Hs2]%orb_false_iff.
  rewrite Ascii.eqb_sym in Ho. rewrite Ascii.eqb_sym in Hc.
  cbn [track_name]. rewrite IH by assumption. now apply step_vars_keeps_depth.
Qed.

Lemma depth_after_open (ename pre mid : string) :
  Str.mem_char "[" mid = false -> Str.mem_char "]" mid = false ->
  in_pattern (track_name ename (pre +:+ "[" +:+ mid) (BracketVars 0 0 0)) = 1.
Proof.
  intros H1 H2. rewrite !track_name_app, track_name_keeps_depth by assumption.
  cbn [track_name]. rewrite step_vars_open; [reflexivity|].
  apply track_name_in_pattern. simpl. lia.
Qed.

Lemma stray_close_warning (ename pre post : string) :
  Str.mem_char "[" pre = false -> Str.mem_char "]" pre = false ->
  In (DialplanInvalid ename)
    (pattern_warnings ename (pre +:+ "]" +:+ post) (BracketVars 0 0 0)).
Proof.
  intros H1 H2. rewrite !pattern_warnings_app.
  destruct (plain_silent ename pre (BracketVars 0 0 0) eq_refl H1 H2) as [-> ->].
  cbn [app]. apply in_or_app. left. simpl. auto.
Qed.

Lemma nested_open_warning (ename pre mid post : string) :
  Str.mem_char "[" mid = false -> Str.mem_char "]" mid = false ->
  In (DialplanInvalid ename)
    (pattern_warnings ename (pre +:+ "[" +:+ mid +:+ "[" +:+ post) (BracketVars 0 0 0)).
Proof.
  intros H1 H2.
  replace (pre +:+ "[" +:+ mid +:+ "[" +:+ post)
    with ((pre +:+ "[" +:+ mid) +:+ "[" +:+ post) by now rewrite !str_app_assoc.
  rewrite (pattern_warnings_app ename (pre +:+ "[" +:+ mid)).
  apply in_or_app. right. rewrite pattern_warnings_app. apply in_or_app. left.
  pose proof (depth_after_open ename pre mid H1 H2) as Hd.
  rewrite pattern_warnings_cons. cbn [pattern_warnings app]. rewrite app_nil_r.
  unfold step_vars, track_brackets. cbn [Ascii.eqb Bool.eqb orb]. rewrite Hd.
  simpl. auto.
Qed.

Lemma period_in_class_warning (ename pre mid post : string) :
  Str.mem_char "[" mid = false -> Str.mem_char "]" mid = false ->
  In (PeriodInBrackets ename)
    (pattern_warnings ename (pre +:+ "[" +:+ mid +:+ "." +:+ post) (BracketVars 0 0 0)).
Proof.
  intros H1 H2.
  replace (pre +:+ "[" +:+ mid +:+ "." +:+ post)
    with ((pre +:+ "[" +:+ mid) +:+ "." +:+ post) by now rewrite !str_app_assoc.
  rewrite (pattern_warnings_app ename (pre +:+ "[" +:+ mid)).
  apply in_or_app. right. rewrite pattern_warnings_app. apply in_or_app. left.
  pose proof (depth_after_open ename pre mid H1 H2) as Hd.
  rewrite pattern_warnings_cons. cbn [pattern_warnings app]. rewrite app_nil_r.
  unfold step_vars, track_brackets. cbn [Ascii.eqb Bool.eqb orb]. rewrite Hd.
  simpl. auto.
Qed.

(** X10. Misplaced characters are warned about and copied all the same. In
    an entry with room in the buffer, a [']'] that closes nothing and a
    ['['] inside an open class each log that the dialplan is invalid, and a
    period inside an open class logs its own warning; in each case the whole
    name is translated into the alternative, the result is not set to -1
    and the extension loop goes on. *)
Theorem misplaced_characters_warn (ignore : string -> string -> bool) (cap : Z)
    (prefix : string) (count : nat) (incs : list (option string)) (e : ast_exten)
    (b : outbuf) (res : Z) (log : list diag) (pre mid post : string) :
  eligible e = true -> stack_ok count incs -> buf_inv cap b ->
  2 + strlen prefix + 5 * strlen (strip_sentinel (exten_name e)) < len b ->
  Str.mem_char "[" mid = false -> Str.mem_char "]" mid = false ->
  exists log',
    exten_body ignore prefix count incs e b res log =
      Done (false,
            push b ("|" +:+ alternative ignore (stack_names count incs) prefix e),
            res, log') /\
    (Str.mem_char "[" pre = false -> Str.mem_char "]" pre = false ->
     strip_sentinel (exten_name e) = pre +:+ "]" +:+ post ->
     In (DialplanInvalid (exten_name e)) log') /\
    (strip_sentinel (exten_name e) = pre +:+ "[" +:+ mid +:+ "[" +:+ post ->
     In (DialplanInvalid (exten_name e)) log') /\
    (strip_sentinel (exten_name e) = pre +:+ "[" +:+ mid +:+ "." +:+ post ->
     In (PeriodInBrackets (exten_name e)) log').
Proof.
  intros He Hok Hinv Hroom H1 H2.
  set (name := strip_sentinel (exten_name e)) in *.
  pose proof (with_marker_length prefix
                (ignore_active ignore (stack_names count incs) (first_digit prefix e)) name)
    as Hm.
  pose proof (translate_length name) as Hup.
  assert (Hfit : 1 + strlen (alternative ignore (stack_names count incs) prefix e) < len b)
    by (unfold alternative; rewrite strlen_app; fold name; lia).
  eexists. rewrite (exten_body_fits ignore cap) by assumption.
  split; [reflexivity|]. fold name. repeat split.
  - intros H3 H4 ->. apply in_or_app. right. now apply stray_close_warning.
  - intros ->. apply in_or_app. right. now apply nested_open_warning.
  - intros ->. apply in_or_app. right. now apply period_in_class_warning.
Qed.

(** ** The further properties on sample dialplans *)

(** X1 on the two contexts of the scenario: the text of the tree is
    [|1xxx|9[2-9]xx]. *)
Lemma digit_map_is_expansion_witness :
  exists w,
    generate_digit_map_all 128 (dialplan scenario_plan) no_ignorepat strdup_succeeds "A" =
      Done (CliResult 0 ("1xxx|9[2-9]xx" +:+ newline) w).
Proof.
  exact (digit_map_is_expansion 128 (dialplan scenario_plan) no_ignorepat strdup_succeeds
           "A" ltac:(lia)).
Defined.

(** X2 on the crowded context, whose run fails for lack of room. *)
Lemma no_space_warning_never_logged_witness :
  exists r,
    generate_digit_map_all 128 (dialplan crowded_plan) no_ignorepat strdup_succeeds "A" =
      Done r /\
    (In NoSpaceLeft (cli_warnings r) -> False).
Proof.
  exact (no_space_warning_never_logged 128 (dialplan crowded_plan) no_ignorepat
           strdup_succeeds "A"
           ltac:(lia)).
Defined.

Lemma handler_reports_generation_witness :
  exists r,
    handle_dialplan_generate_digitmap 128 (dialplan scenario_plan) (ignorepat_digit "9")
      strdup_succeeds BadAccess (CliEntry EmptyString EmptyString) CLI_HANDLER
      ["dialplan"; "generate"; "digitmap"; "A"] = Done r /\
    handler_entry r = CliEntry EmptyString EmptyString /\
    handler_status r = CLI_SUCCESS /\
    handler_text r = "1xxx|9,[2-9]xx" +:+ newline.
Proof.
  exact (handler_reports_generation 128 (dialplan scenario_plan) (ignorepat_digit "9")
           strdup_succeeds BadAccess (CliEntry EmptyString EmptyString)
           ["dialplan"; "generate"; "digitmap"; "A"] "A" ltac:(lia) eq_refl eq_refl).
Defined.

Lemma parse_include_fields_witness :
  parse_include "B" = ("B", Some EmptyString) /\
  parse_include "B|1|9" = ("B", Some "9") /\
  parse_include "B|1" = ("B", None) /\
  parse_include "B,x" = ("B", Some EmptyString) /\
  parse_include "B,x|1|9" = ("B", Some "9").
Proof.
  exact (parse_include_fields "B" "1" "9" "x" eq_refl eq_refl eq_refl eq_refl).
Defined.

Lemma entry_room_suffices_witness :
  exists b' log',
    exten_body (ignorepat_digit "9") "9" 1 (<[0%nat := Some "B"]> (replicate 128 None))
      (Exten "_NXX" 1) (Outbuf EmptyString 0 BUF_SIZE) 0 [] = Done (false, b', 0, log') /\
    clean b' /\ buf b' + len b' = 0 + BUF_SIZE /\
    0 + 1 + 1 + 3 <= buf b' /\ buf b' <= 0 + 2 + 1 + 5 * 3.
Proof.
  exact (entry_room_suffices (ignorepat_digit "9") BUF_SIZE "9" 1
           (<[0%nat := Some "B"]> (replicate 128 None)) (Exten "_NXX" 1)
           (Outbuf EmptyString 0 BUF_SIZE) 0 [] eq_refl
           (stack_ok_push 0 (replicate 128 None) "B" (stack_ok_empty _) ltac:(simpl; lia))
           (buf_inv_initial BUF_SIZE ltac:(unfold BUF_SIZE; lia)) eq_refl).
Defined.

Lemma well_formed_name_is_silent_witness :
  exists broke b' res',
    exten_body no_ignorepat EmptyString 1 (<[0%nat := Some "A"]> (replicate 128 None))
      (Exten "_[2-9]XX" 1) (Outbuf EmptyString 0 BUF_SIZE) 0 [] =
    Done (broke, b', res', []).
Proof.
  exact (well_formed_name_is_silent no_ignorepat BUF_SIZE EmptyString 1
           (<[0%nat := Some "A"]> (replicate 128 None)) (Exten "_[2-9]XX" 1)
           (Outbuf EmptyString 0 BUF_SIZE) 0 [] [Class [Range "2" "9"]; Plain "XX"]
           (stack_ok_push 0 (replicate 128 None) "A" (stack_ok_empty _) ltac:(simpl; lia))
           (buf_inv_initial BUF_SIZE ltac:(unfold BUF_SIZE; lia)) eq_refl eq_refl).
Defined.

(** X10 on a name with a stray [']']. *)
Lemma misplaced_characters_warn_witness :
  exists log',
    exten_body no_ignorepat EmptyString 1 (<[0%nat := Some "A"]> (replicate 128 None))
      (Exten "_1]2" 1) (Outbuf EmptyString 0 BUF_SIZE) 0 [] =
    Done (false, push (Outbuf EmptyString 0 BUF_SIZE) "|1]2", 0, log') /\
    In (DialplanInvalid "_1]2") log'.
Proof.
  destruct (misplaced_characters_warn no_ignorepat BUF_SIZE EmptyString 1
              (<[0%nat := Some "A"]> (replicate 128 None)) (Exten "_1]2" 1)
              (Outbuf EmptyString 0 BUF_SIZE) 0 [] "1" EmptyString "2" eq_refl
              (stack_ok_push 0 (replicate 128 None) "A" (stack_ok_empty _)
                 ltac:(simpl; lia))
              (buf_inv_initial BUF_SIZE ltac:(unfold BUF_SIZE; lia)) eq_refl
              eq_refl eq_refl) as (log' & Hrun & Hclose & _).
  exists log'. split; [exact Hrun|]. exact (Hclose eq_refl eq_refl eq_refl).
Defined.

Example nested_class_warned :
  generate_digit_map_all 128 (dialplan [("A", Context [Exten "_[1[2]3" 1] [])])
    no_ignorepat strdup_succeeds "A" =
  Done (CliResult 0 ("[1[2]3" +:+ newline) [DialplanInvalid "_[1[2]3"]).
Proof. vm_compute. reflexivity. Qed.

(** * Ephemeral unique IDs: the allocation discipline *)

Import Euniqueid.

Lemma live_app ex l k : live ex (l ++ k) = live ex l ++ live ex k.
Proof. unfold live. induction l as [|u l IH]; simpl; [reflexivity|]. destruct (ex (channel u)); simpl; rewrite IH; reflexivity. Qed.

Lemma live_In ex l u : In u (live ex l) <-> In u l /\ ex (channel u) = true.
Proof. unfold live. apply List.filter_In. Qed.

Lemma live_idem ex l : live ex (live ex l) = live ex l.
Proof.
  unfold live. induction l as [|u l IH]; simpl; [reflexivity|].
  destruct (ex (channel u)) eqn:E; simpl; [rewrite E, IH|]; auto.
Qed.

(** The traversal keeps the live entries; [highest_id] ends as the ID of the
    last of them. *)
Lemma purge_spec ex l h :
  purge ex l h = (live ex l, List.last (map id (live ex l)) h).
Proof.
  revert h. induction l as [|u l IH]; intros h; simpl; [reflexivity|].
  unfold live; simpl. destruct (ex (channel u)) eqn:E.
  - rewrite IH. fold (live ex l). f_equal.
    change (map id (u :: live ex l)) with (id u :: map id (live ex l)).
    destruct (map id (live ex l)) as [|x xs] eqn:Em; [reflexivity|].
    simpl. clear. revert x. induction xs as [|y ys IHy]; intros x; simpl; [reflexivity|].
    apply IHy.
  - apply IH.
Qed.

Lemma purge_stale_live ex l : purge_stale ex l = live ex l.
Proof.
  unfold live. induction l as [|u l IH]; simpl; [reflexivity|].
  destruct (ex (channel u)); rewrite IH; reflexivity.
Qed.

Lemma unload_module_empty l : unload_module l = (0, []).
Proof. induction l; simpl; auto. Qed.

Lemma ids_ok_nil : ids_ok [].
Proof. split; constructor. Qed.

Lemma ids_ok_live ex l : ids_ok l -> ids_ok (live ex l).
Proof.
  intros [Hs Hf]. split.
  - clear Hf. unfold live. induction l as [|u l IH]; simpl; [constructor|].
    simpl in Hs. apply StronglySorted_inv in Hs as [Hs Hu].
    destruct (ex (channel u)); [|auto].
    simpl. constructor; [auto|].
    rewrite List.Forall_forall in *. intros x Hx. apply Hu.
    apply List.in_map_iff in Hx as (v & <- & Hv). apply List.filter_In in Hv as [Hv _].
    apply List.in_map. exact Hv.
  - rewrite List.Forall_forall in *. intros x Hx. apply live_In in Hx as [Hx _]. auto.
Qed.

Lemma ids_ok_snoc l u :
  ids_ok l -> (forall v, In v l -> id v < id u) -> 0 <= id u <= INT_MAX ->
  ids_ok (l ++ [u]).
Proof.
  intros [Hs Hf] Hlt Hu. split.
  - clear Hf. induction l as [|v l IH]; simpl.
    + constructor; constructor.
    + simpl in Hs. apply StronglySorted_inv in Hs as [Hs Hv].
      constructor.
      * apply IH; [exact Hs|]. intros w Hw. apply Hlt. right. exact Hw.
      * rewrite List.Forall_forall in *. intros x Hx.
        rewrite List.map_app in Hx. apply List.in_app_iff in Hx as [Hx|Hx].
        -- apply Hv. exact Hx.
        -- simpl in Hx. destruct Hx as [<-|[]]. apply Hlt. left. reflexivity.
  - rewrite List.Forall_forall in *. intros x Hx.
    apply List.in_app_iff in Hx as [Hx|Hx]; [auto|].
    simpl in Hx. destruct Hx as [<-|[]]. exact Hu.
Qed.

(** In a list whose IDs grow, the last ID bounds them all and belongs to an
    entry of the list. *)
Lemma last_id_max l h :
  StronglySorted Z.lt (map id l) ->
  (forall u, In u l -> id u <= List.last (map id l) h) /\
  (l = [] \/ exists u, In u l /\ List.last (map id l) h = id u).
Proof.
  induction l as [|u l IH]; intros Hs.
  - split; [intros ? []|left; reflexivity].
  - simpl in Hs. apply StronglySorted_inv in Hs as [Hs Hu].
    specialize (IH Hs) as [IH1 IH2].
    assert (Hlast : List.last (map id (u :: l)) h =
                    match l with [] => id u | _ => List.last (map id l) h end).
    { destruct l; reflexivity. }
    rewrite Hlast. split.
    + intros v [<-|Hv].
      * destruct l as [|w l]; [lia|].
        destruct IH2 as [IH2|(x & Hx & Ex)]; [discriminate|].
        rewrite Ex. rewrite List.Forall_forall in Hu.
        specialize (Hu (id x) (List.in_map id _ _ Hx)). lia.
      * destruct l as [|w l]; [destruct Hv|]. apply IH1. exact Hv.
    + right. destruct l as [|w l].
      * exists u. split; [left|]; reflexivity.
      * destruct IH2 as [IH2|(x & Hx & Ex)]; [discriminate|].
        exists x. split; [right; exact Hx|exact Ex].
Qed.

(** What a successful call does, for a list whose IDs are in order. *)
Lemma euniqueid_read_ok ex name function buf maxlen now l :
  ids_ok l ->
  (forall u, In u l -> ex (channel u) = true -> id u < INT_MAX) ->
  exists n,
    euniqueid_read ex (Some name) function buf maxlen now true l =
      Some (ReadResult 0 (snprintf_d buf maxlen n)
              (live ex l ++ [Uniqueid n now name]) [HasUniqueId name n]) /\
    0 <= n <= INT_MAX /\
    (forall u, In u l -> ex (channel u) = true -> id u < n) /\
    (n = 0 \/ exists u, In u l /\ ex (channel u) = true /\ n = id u + 1).
Proof.
  intros Hok Hmax. unfold euniqueid_read. rewrite purge_spec.
  pose proof (ids_ok_live ex l Hok) as [Hs Hf].
  destruct (last_id_max (live ex l) (-1) Hs) as [Hle Hin].
  destruct Hin as [Hnil|(x & Hx & Ex)].
  - rewrite Hnil. simpl. exists 0. split; [reflexivity|].
    split; [unfold INT_MAX; lia|]. split; [|left; reflexivity].
    intros u Hu Hlive. assert (In u (live ex l)) as Hc by (apply live_In; auto).
    rewrite Hnil in Hc. destruct Hc.
  - rewrite Ex. rewrite List.Forall_forall in Hf. pose proof (Hf x Hx) as Hx0.
    pose proof Hx as Hx'. apply live_In in Hx' as [Hxl Hxe].
    pose proof (Hmax x Hxl Hxe) as Hxm.
    assert ((id x =? -1) = false) as -> by lia. simpl negb. cbv iota.
    unfold int_add.
    assert ((- INT_MAX - 1 <=? id x + 1) && (id x + 1 <=? INT_MAX) = true) as ->.
    { apply andb_true_intro. unfold INT_MAX in *. split; lia. }
    exists (id x + 1). split; [reflexivity|]. split; [lia|]. split.
    + intros u Hu Hlive. assert (In u (live ex l)) as Hc by (apply live_In; auto).
      specialize (Hle u Hc). rewrite Ex in Hle. lia.
    + right. exists x. auto.
Qed.

(** Every result of [euniqueid_read] keeps the IDs in order. *)
Lemma euniqueid_read_keeps_order ex chan function buf maxlen now ok l r :
  ids_ok l ->
  euniqueid_read ex chan function buf maxlen now ok l = Some r ->
  ids_ok (read_uniqueids r).
Proof.
  intros Hok. unfold euniqueid_read. destruct chan as [name|].
  - rewrite purge_spec.
    pose proof (ids_ok_live ex l Hok) as Hlive. pose proof Hlive as [Hs Hf].
    destruct (last_id_max (live ex l) (-1) Hs) as [Hle Hin].
    destruct (negb (List.last (map id (live ex l)) (-1) =? -1)) eqn:En.
    + unfold int_add.
      destruct ((- INT_MAX - 1 <=? List.last (map id (live ex l)) (-1) + 1) &&
                (List.last (map id (live ex l)) (-1) + 1 <=? INT_MAX)) eqn:Eb;
        [|discriminate].
      apply andb_prop in Eb as [_ Eb].
      destruct ok; intros [= <-]; simpl; [|exact Hlive].
      apply ids_ok_snoc; [exact Hlive| |]; simpl.
      * intros v Hv. specialize (Hle v Hv). lia.
      * destruct Hin as [Hnil|(x & Hx & Ex)].
        -- rewrite Hnil in En. discriminate.
        -- rewrite List.Forall_forall in Hf. specialize (Hf x Hx).
           rewrite Ex in *. lia.
    + destruct ok; intros [= <-]; simpl; [|exact Hlive].
      apply ids_ok_snoc; [exact Hlive| |simpl; unfold INT_MAX; lia]; simpl.
      intros v Hv. destruct Hin as [Hnil|(x & Hx & Ex)].
      * rewrite Hnil in Hv. destruct Hv.
      * rewrite List.Forall_forall in Hf. specialize (Hf x Hx).
        rewrite Ex in En. apply negb_false_iff in En. lia.
  - intros [= <-]. exact Hok.
Qed.

Lemma step_keeps_order l l' : ids_ok l -> step l l' -> ids_ok l'.
Proof.
  intros Hok [ex chan function buf maxlen now ok r Hr ->|ex e cmd argc now ->| ->].
  - eapply euniqueid_read_keeps_order; eauto.
  - unfold handle_show_channels. destruct cmd; simpl; try exact Hok.
    destruct (negb (argc =? 3)); simpl; [exact Hok|].
    rewrite purge_stale_live. apply ids_ok_live. exact Hok.
  - rewrite unload_module_empty. apply ids_ok_nil.
Qed.

Lemma reachable_ids_ok l : reachable l -> ids_ok l.
Proof.
  induction 1 as [|l l' _ IH Hstep]; [apply ids_ok_nil|].
  eapply step_keeps_order; eauto.
Qed.

Lemma sorted_NoDup (xs : list Z) : StronglySorted Z.lt xs -> List.NoDup xs.
Proof.
  induction 1 as [|x xs _ IH Hx]; constructor; [|exact IH].
  intros Hin. rewrite List.Forall_forall in Hx. specialize (Hx x Hin). lia.
Qed.

(** X11. The ID handed to a channel is one more than the highest ID held by
    a channel that still exists, and 0 when no holder exists any more; the
    entries of vanished channels are dropped and the new entry goes to the
    end of the list. IDs freed below the highest live one are not reused. *)
Theorem next_id_follows_highest_live
    (exists_now : string -> bool) (name function buf : string) (maxlen now : Z)
    (l : list uniqueid) :
  reachable l ->
  (forall u, In u l -> exists_now (channel u) = true -> id u < INT_MAX) ->
  exists n,
    euniqueid_read exists_now (Some name) function buf maxlen now true l =
      Some (ReadResult 0 (snprintf_d buf maxlen n)
              (live exists_now l ++ [Uniqueid n now name]) [HasUniqueId name n]) /\
    (forall u, In u l -> exists_now (channel u) = true -> id u < n) /\
    (n = 0 \/ exists u, In u l /\ exists_now (channel u) = true /\ n = id u + 1).
Proof.
  intros Hr Hmax.
  destruct (euniqueid_read_ok exists_now name function buf maxlen now l
              (reachable_ids_ok l Hr) Hmax) as (n & E & _ & H1 & H2).
  exists n. auto.
Qed.

Lemma in_order_spelled (l : list uniqueid) :
  ids_ok l ->
  StronglySorted Z.lt (map id l) /\ List.NoDup (map id l) /\
  Forall (fun u => 0 <= id u <= INT_MAX) l.
Proof.
  intros [Hs Hf]. split; [exact Hs|]. split; [apply sorted_NoDup; exact Hs | exact Hf].
Qed.

(** Below [INT_MAX] every read has a result. *)
Lemma euniqueid_read_defined ex chan function buf maxlen now ok l :
  ids_ok l ->
  (forall u, In u l -> ex (channel u) = true -> id u < INT_MAX) ->
  exists r, euniqueid_read ex chan function buf maxlen now ok l = Some r.
Proof.
  intros Hok Hmax. destruct chan as [name|]; [|eexists; reflexivity].
  unfold euniqueid_read. rewrite purge_spec.
  pose proof (ids_ok_live ex l Hok) as [Hs Hf].
  destruct (last_id_max (live ex l) (-1) Hs) as [_ [Hnil|(x & Hx & Ex)]].
  - rewrite Hnil. simpl. destruct ok; eexists; reflexivity.
  - rewrite Ex. rewrite List.Forall_forall in Hf. pose proof (Hf x Hx) as Hx0.
    apply live_In in Hx as [Hxl Hxe]. pose proof (Hmax x Hxl Hxe) as Hxm.
    assert ((id x =? -1) = false) as -> by lia. simpl negb. cbv iota.
    unfold int_add.
    assert ((- INT_MAX - 1 <=? id x + 1) && (id x + 1 <=? INT_MAX) = true) as ->.
    { apply andb_true_intro. unfold INT_MAX in *. split; lia. }
    destruct ok; eexists; reflexivity.
Qed.

(** At a live [INT_MAX] the sum [highest_id + 1] leaves [int]. *)
Lemma euniqueid_read_overflow ex name function buf maxlen now ok l :
  ids_ok l ->
  (exists u, In u l /\ ex (channel u) = true /\ id u = INT_MAX) ->
  euniqueid_read ex (Some name) function buf maxlen now ok l = None.
Proof.
  intros Hok (u & Hu & Hlive & Hid).
  unfold euniqueid_read. rewrite purge_spec.
  pose proof (ids_ok_live ex l Hok) as [Hs Hf].
  destruct (last_id_max (live ex l) (-1) Hs) as [Hle Hin].
  assert (Hul : In u (live ex l)) by (apply live_In; auto).
  destruct Hin as [Hnil|(x & Hx & Ex)]; [rewrite Hnil in Hul; destruct Hul|].
  specialize (Hle u Hul). rewrite Ex in *.
  rewrite List.Forall_forall in Hf. specialize (Hf x Hx).
  assert (Hxm : id x = INT_MAX) by lia. rewrite Hxm. reflexivity.
Qed.

(** X12. The IDs of the list grow strictly from head to tail, so that no two
    entries share an ID, and each is between 0 and [INT_MAX]: that is so for
    the empty list the module starts with, and when it is so for a list, it
    is so after a listing, after an unload, and after every read made while
    the IDs of the channels that still exist are below [INT_MAX]. A read by
    a channel that finds a holder of [INT_MAX] in existence adds one to it,
    which [int] cannot hold: it has no defined result, and nothing is
    claimed of the list from there on. *)
Theorem allocated_ids_are_distinct
    (exists_now : string -> bool) (chan : option string) (function buf : string)
    (maxlen now : Z) (calloc_ok : bool) (e : ast_cli_entry) (cmd : cli_command)
    (argc now' : Z) (l : list uniqueid) :
  StronglySorted Z.lt (map id l) ->
  Forall (fun u => 0 <= id u <= INT_MAX) l ->
  let in_order l' :=
    StronglySorted Z.lt (map id l') /\ List.NoDup (map id l') /\
    Forall (fun u => 0 <= id u <= INT_MAX) l' in
  in_order [] /\
  in_order l /\
  in_order (show_uniqueids (handle_show_channels exists_now e cmd argc now' l)) /\
  in_order (unload_module l).2 /\
  ((forall u, In u l -> exists_now (channel u) = true -> id u < INT_MAX) ->
   exists r,
     euniqueid_read exists_now chan function buf maxlen now calloc_ok l = Some r /\
     in_order (read_uniqueids r)) /\
  ((exists u, In u l /\ exists_now (channel u) = true /\ id u = INT_MAX) ->
   chan <> None ->
   euniqueid_read exists_now chan function buf maxlen now calloc_ok l = None).
Proof.
  intros Hs Hf in_order. assert (Hok : ids_ok l) by (split; assumption).
  split; [apply in_order_spelled, ids_ok_nil|].
  split; [apply in_order_spelled, Hok|].
  split; [apply in_order_spelled, (step_keeps_order l); [exact Hok|]|].
  { now apply (StepShow l _ exists_now e cmd argc now'). }
  split; [apply in_order_spelled, (step_keeps_order l); [exact Hok|]|].
  { now apply StepUnload. }
  split.
  - intros Hmax.
    destruct (euniqueid_read_defined exists_now chan function buf maxlen now calloc_ok l
                Hok Hmax) as [r Hr].
    exists r. split; [exact Hr|].
    apply in_order_spelled. eapply euniqueid_read_keeps_order; eauto.
  - intros Hmax Hchan. destruct chan as [name|]; [|congruence].
    now apply euniqueid_read_overflow.
Qed.

Lemma purge_live ex l h : purge ex (live ex l) h = purge ex l h.
Proof. rewrite !purge_spec, live_idem. reflexivity. Qed.

(** X13. [euniqueid show channels] with its three words succeeds, prints the
    header and one row per entry of a channel that still exists, in list
    order, and leaves exactly those entries in the list; a read that follows
    it allocates what it would have allocated without the listing. *)
Theorem show_channels_lists_live
    (exists_now : string -> bool) (e : ast_cli_entry) (now : Z) (l : list uniqueid)
    (name function buf : string) (maxlen now' : Z) (calloc_ok : bool) :
  handle_show_channels exists_now e CLI_HANDLER 3 now l =
    ShowResult CLI_SUCCESS e
      (header +:+ Str.concat (map (row now) (live exists_now l)))
      (live exists_now l) /\
  euniqueid_read exists_now (Some name) function buf maxlen now' calloc_ok
    (show_uniqueids (handle_show_channels exists_now e CLI_HANDLER 3 now l)) =
  euniqueid_read exists_now (Some name) function buf maxlen now' calloc_ok l.
Proof.
  unfold handle_show_channels. simpl. rewrite purge_stale_live. split; [reflexivity|].
  unfold euniqueid_read. rewrite purge_live. reflexivity.
Qed.

(** X14. A channel that exists and reads again is given a second entry: when
    a read has returned [n], the next read, with the same channels in
    existence, returns [n + 1] and appends its entry behind the first. *)
Theorem consecutive_reads_count_up
    (exists_now : string -> bool) (name function buf : string) (maxlen now : Z)
    (name2 function2 buf2 : string) (maxlen2 now2 : Z)
    (l : list uniqueid) (r : read_result) (n : Z) :
  reachable l ->
  exists_now name = true ->
  euniqueid_read exists_now (Some name) function buf maxlen now true l = Some r ->
  read_log r = [HasUniqueId name n] ->
  n < INT_MAX ->
  euniqueid_read exists_now (Some name2) function2 buf2 maxlen2 now2 true
    (read_uniqueids r) =
    Some (ReadResult 0 (snprintf_d buf2 maxlen2 (n + 1))
            (read_uniqueids r ++ [Uniqueid (n + 1) now2 name2])
            [HasUniqueId name2 (n + 1)]).
Proof.
  intros Hr Hname Hread Hlog Hn.
  pose proof (reachable_ids_ok l Hr) as Hok.
  pose proof (euniqueid_read_keeps_order _ _ _ _ _ _ _ _ _ Hok Hread) as Hok'.
  revert Hread. unfold euniqueid_read at 1. rewrite purge_spec.
  destruct (if negb (List.last (map id (live exists_now l)) (-1) =? -1)
            then int_add (List.last (map id (live exists_now l)) (-1)) 1
            else Some 0) as [m|] eqn:Em; [|discriminate].
  intros [= <-]. simpl in Hlog. injection Hlog as ->. simpl in Hok'. simpl.
  assert (Hm : 0 <= n).
  { destruct Hok' as [_ Hf]. rewrite List.Forall_forall in Hf.
    specialize (Hf (Uniqueid n now name)). simpl in Hf.
    apply Hf. apply List.in_app_iff. right. left. reflexivity. }
  unfold euniqueid_read. rewrite purge_spec.
  rewrite live_app, live_idem.
  assert (Hl : live exists_now [Uniqueid n now name] = [Uniqueid n now name]).
  { unfold live. simpl. rewrite Hname. reflexivity. }
  rewrite Hl. rewrite List.map_app. simpl map. rewrite List.last_last.
  assert ((n =? -1) = false) as -> by lia. simpl negb. cbv iota.
  unfold int_add.
  assert ((- INT_MAX - 1 <=? n + 1) && (n + 1 <=? INT_MAX) = true) as ->.
  { apply andb_true_intro. unfold INT_MAX in *. split; lia. }
  reflexivity.
Qed.

(** ** The allocation discipline on sample states *)

Lemma three_calls_reachable : reachable three_calls.
Proof.
  apply (ReachStep [Uniqueid 0 100 "SIP/a"; Uniqueid 1 101 "SIP/b"]).
  - apply (ReachStep [Uniqueid 0 100 "SIP/a"]).
    + apply (ReachStep []); [apply ReachLoad|].
      eapply (StepRead _ _ (channels_up ["SIP/a"]) (Some "SIP/a") "EPHEMERAL_UNIQUEID"
                EmptyString 16 100 true); reflexivity.
    + eapply (StepRead _ _ (channels_up ["SIP/a"; "SIP/b"]) (Some "SIP/b")
                "EPHEMERAL_UNIQUEID" EmptyString 16 101 true); reflexivity.
  - eapply (StepRead _ _ (channels_up ["SIP/a"; "SIP/b"; "SIP/c"]) (Some "SIP/c")
              "EPHEMERAL_UNIQUEID" EmptyString 16 102 true); reflexivity.
Defined.

Lemma three_calls_below_max (exists_now : string -> bool) (u : uniqueid) :
  In u three_calls -> exists_now (channel u) = true -> id u < INT_MAX.
Proof. intros [<-|[<-|[<-|[]]]] _; reflexivity. Defined.

(** X11 after the second of three channels has hung up: the fourth channel
    is given 3, and 1 stays unused. *)
Lemma next_id_follows_highest_live_witness :
  exists n,
    euniqueid_read (channels_up ["SIP/a"; "SIP/c"; "SIP/d"]) (Some "SIP/d")
      "EPHEMERAL_UNIQUEID" EmptyString 16 200 true three_calls =
      Some (ReadResult 0 (snprintf_d EmptyString 16 n)
              ([Uniqueid 0 100 "SIP/a"; Uniqueid 2 102 "SIP/c"] ++ [Uniqueid n 200 "SIP/d"])
              [HasUniqueId "SIP/d" n]) /\
    (forall u, In u three_calls ->
               channels_up ["SIP/a"; "SIP/c"; "SIP/d"] (channel u) = true -> id u < n) /\
    (n = 0 \/ exists u, In u three_calls /\
                        channels_up ["SIP/a"; "SIP/c"; "SIP/d"] (channel u) = true /\
                        n = id u + 1).
Proof.
  exact (next_id_follows_highest_live (channels_up ["SIP/a"; "SIP/c"; "SIP/d"]) "SIP/d"
           "EPHEMERAL_UNIQUEID" EmptyString 16 200 three_calls three_calls_reachable
           (three_calls_below_max _)).
Defined.

Lemma three_calls_sorted : StronglySorted Z.lt (map id three_calls).
Proof. repeat constructor. Defined.

Lemma three_calls_in_range : Forall (fun u => 0 <= id u <= INT_MAX) three_calls.
Proof. repeat constructor; discriminate. Defined.

(** X12 for a read after the second of three channels has hung up. *)
Lemma allocated_ids_are_distinct_witness :
  exists r,
    euniqueid_read (channels_up ["SIP/a"; "SIP/c"; "SIP/d"]) (Some "SIP/d")
      "EPHEMERAL_UNIQUEID" EmptyString 16 200 true three_calls = Some r /\
    StronglySorted Z.lt (map id (read_uniqueids r)) /\
    List.NoDup (map id (read_uniqueids r)) /\
    Forall (fun u => 0 <= id u <= INT_MAX) (read_uniqueids r).
Proof.
  exact (proj1 (proj2 (proj2 (proj2 (proj2
           (allocated_ids_are_distinct (channels_up ["SIP/a"; "SIP/c"; "SIP/d"])
              (Some "SIP/d") "EPHEMERAL_UNIQUEID" EmptyString 16 200 true
              (CliEntry EmptyString EmptyString) CLI_HANDLER 3 200 three_calls
              three_calls_sorted three_calls_in_range)))))
           (three_calls_below_max _)).
Defined.

(** A holder of [INT_MAX] that still exists leaves the next read without a
    defined result. *)
Example read_at_int_max :
  euniqueid_read (channels_up ["SIP/a"]) (Some "SIP/b") "EPHEMERAL_UNIQUEID" EmptyString
    16 200 true [Uniqueid INT_MAX 100 "SIP/a"] = None.
Proof. reflexivity. Qed.

(** X14 for a channel that reads twice in a row after the three calls. *)
Lemma consecutive_reads_count_up_witness :
  euniqueid_read (channels_up ["SIP/a"; "SIP/b"; "SIP/c"]) (Some "SIP/c")
    "EPHEMERAL_UNIQUEID" EmptyString 16 201 true
    (three_calls ++ [Uniqueid 3 200 "SIP/c"]) =
  Some (ReadResult 0 (snprintf_d EmptyString 16 (3 + 1))
          ((three_calls ++ [Uniqueid 3 200 "SIP/c"]) ++ [Uniqueid (3 + 1) 201 "SIP/c"])
          [HasUniqueId "SIP/c" (3 + 1)]).
Proof.
  exact (consecutive_reads_count_up (channels_up ["SIP/a"; "SIP/b"; "SIP/c"]) "SIP/c"
           "EPHEMERAL_UNIQUEID" EmptyString 16 200 "SIP/c" "EPHEMERAL_UNIQUEID"
           EmptyString 16 201 three_calls
           (ReadResult 0 "3" (three_calls ++ [Uniqueid 3 200 "SIP/c"])
              [HasUniqueId "SIP/c" 3])
           3 three_calls_reachable eq_refl eq_refl eq_refl eq_refl).
Defined.

Example freed_highest_id_is_reused :
  euniqueid_read (channels_up ["SIP/a"; "SIP/b"; "SIP/d"]) (Some "SIP/d")
    "EPHEMERAL_UNIQUEID" EmptyString 16 200 true three_calls =
  Some (ReadResult 0 "2"
          [Uniqueid 0 100 "SIP/a"; Uniqueid 1 101 "SIP/b"; Uniqueid 2 200 "SIP/d"]
          [HasUniqueId "SIP/d" 2]).
Proof. reflexivity. Qed.

Example show_channels_sample :
  handle_show_channels (channels_up ["SIP/a"; "SIP/c"]) (CliEntry EmptyString EmptyString)
    CLI_HANDLER 3 200 three_calls =
  ShowResult CLI_SUCCESS (CliEntry EmptyString EmptyString)
    ("  ID    Age Channel" +:+ newline +:+
     "   0    100 SIP/a" +:+ newline +:+
     "   2     98 SIP/c" +:+ newline)
    [Uniqueid 0 100 "SIP/a"; Uniqueid 2 102 "SIP/c"].
Proof. reflexivity. Qed.
